(** * SoulSync core: a shallow embedding

    The development follows three source files of the repository and two of
    their callers:

    - [src/core/matching_engine.py]   (module [MatchingEngine]),
    - [src/core/soulseek_client.py]   (modules [SearchResult], [AlbumResult],
                                       [SoulseekClient]),
    - [src/core/plex_scan_manager.py] (module [PlexScanManager]),
    - [src/services/sync_service.py]  (module [SyncService]),
    - [src/ui/pages/sync.py]          (module [TrackDownloadWorker]).

    Conventions.

    - Text.  A Python [str] is modelled by [string]: a sequence of characters
      with codes 0..255, read as the code points U+0000..U+00FF.  The character
      classes of module [Text] are Python's classes on that range.
    - Regular expressions.  The patterns of the source are written in a small
      abstract syntax and run by a backtracking matcher with Python's
      leftmost, greedy-first semantics (module [Re]).
    - Numbers.  [quality_score] is computed on binary64 floats, exactly as
      Python does.  The scores of the matching engine range over unboundedly
      many values: they are given on exact rationals, for the bounds and the
      comparisons with a constant, and again on binary64
      ([MatchingEngine.Binary64]) for [find_best_match], whose choice between
      two candidates depends on the rounding.
    - Threads.  The scan manager is given section by section, a section
      being what a thread does under one hold of [_lock] or during one call
      that leaves the manager; the methods run on their own are the
      sections one after the other.
    - Paths.  [os.path] and [pathlib] are the POSIX ones.
    - Libraries outside the repository ([unidecode], [difflib]) enter either
      as section variables or through a model that is named as such. *)

From Stdlib Require Import ZArith NArith QArith Bool List String Ascii Lia Lqa.
From Stdlib Require Import Sorting.Sorted Sorting.Permutation.
From Stdlib Require Import Floats.PrimFloat Floats.FloatOps Floats.SpecFloat.
From Stdlib Require Import Floats.FloatAxioms.
Import ListNotations.

Set Warnings "-inexact-float,-register-all".
Close Scope Q_scope.

(* ================================================================== *)
(** * Python built-ins used by the source *)
(* ================================================================== *)

Module Py.

(** [min(a, b)] on floats: the first argument is kept unless the second is
    strictly smaller. *)
Definition min_float (a b : float) : float :=
  if (b <? a)%float then b else a.

(** [max(a, b)] on floats: the first argument is kept unless the second is
    strictly greater. *)
Definition max_float (a b : float) : float :=
  if (a <? b)%float then b else a.

(** [max(a, b)] on rationals: the first argument is kept unless the second is
    strictly greater. *)
Definition max_Q (a b : Q) : Q :=
  if Qlt_le_dec a b then b else a.

(** Truth value of an [Optional[int]]: [None] and [0] are false. *)
Definition truthy_int (o : option Z) : bool :=
  match o with
  | None => false
  | Some n => negb (n =? 0)%Z
  end.

(** Truth value of an [Optional[str]]: [None] and the empty string are false. *)
Definition truthy_str (o : option string) : bool :=
  match o with
  | None => false
  | Some s => negb (String.eqb s "")
  end.

(** [d.get(key, default)] on a dict written as a literal. *)
Fixpoint dict_get {V : Type} (d : list (string * V)) (key : string) (default : V) : V :=
  match d with
  | [] => default
  | (k, v) :: d' => if String.eqb k key then v else dict_get d' key default
  end.

End Py.

(* ================================================================== *)
(** * Characters and strings *)
(* ================================================================== *)

Module Text.

Definition code (c : ascii) : N := N_of_ascii c.

Definition in_range (lo hi : N) (c : ascii) : bool :=
  (lo <=? code c)%N && (code c <=? hi)%N.

(** [str.isspace] and the class [\s]: TAB..CR, FS..US, SPACE, NEL, NBSP. *)
Definition is_space (c : ascii) : bool :=
  in_range 9 13 c || in_range 28 32 c || (code c =? 133)%N || (code c =? 160)%N.

(** The class [\d]: the decimal digits of the range are 0..9. *)
Definition is_digit (c : ascii) : bool := in_range 48 57 c.

Definition is_ascii_lower (c : ascii) : bool := in_range 97 122 c.
Definition is_ascii_upper (c : ascii) : bool := in_range 65 90 c.

(** Letters of the range: a-z, A-Z, the ordinal indicators, the micro sign and
    the accented letters (the multiplication and division signs are not). *)
Definition is_alpha (c : ascii) : bool :=
  is_ascii_lower c || is_ascii_upper c
  || (code c =? 170)%N || (code c =? 181)%N || (code c =? 186)%N
  || in_range 192 214 c || in_range 216 246 c || in_range 248 255 c.

(** Superscript digits and vulgar fractions count as numeric. *)
Definition is_numeric (c : ascii) : bool :=
  is_digit c || (code c =? 178)%N || (code c =? 179)%N || (code c =? 185)%N
  || in_range 188 190 c.

(** The class [\w]: alphanumeric or underscore. *)
Definition is_word (c : ascii) : bool :=
  is_alpha c || is_numeric c || (code c =? 95)%N.

(** [str.lower] on one character. *)
Definition lower_char (c : ascii) : ascii :=
  if is_ascii_upper c || in_range 192 214 c || in_range 216 222 c
  then ascii_of_N (code c + 32)
  else c.

Fixpoint lower (s : string) : string :=
  match s with
  | EmptyString => EmptyString
  | String c s' => String (lower_char c) (lower s')
  end.

Definition is_ascii (c : ascii) : bool := (code c <? 128)%N.

Fixpoint all_chars (p : ascii -> bool) (s : string) : bool :=
  match s with
  | EmptyString => true
  | String c s' => p c && all_chars p s'
  end.

(** [s.lstrip()], [s.rstrip()] and [s.strip()] with no argument. *)
Fixpoint lstrip (s : string) : string :=
  match s with
  | String c s' => if is_space c then lstrip s' else s
  | EmptyString => EmptyString
  end.

Fixpoint rstrip (s : string) : string :=
  match s with
  | EmptyString => EmptyString
  | String c s' =>
      match rstrip s' with
      | EmptyString => if is_space c then EmptyString else String c EmptyString
      | r => String c r
      end
  end.

Definition strip (s : string) : string := rstrip (lstrip s).

(** [s.startswith(p)]. *)
Definition startswith (p s : string) : bool := String.prefix p s.

(** [sub in s] for strings. *)
Fixpoint contains (sub s : string) : bool :=
  String.prefix sub s ||
  match s with
  | EmptyString => false
  | String _ s' => contains sub s'
  end.

(** [s.replace(a, b)] for single characters. *)
Fixpoint replace_char (a b : ascii) (s : string) : string :=
  match s with
  | EmptyString => EmptyString
  | String c s' => String (if Ascii.eqb c a then b else c) (replace_char a b s')
  end.

(** [s.split(sep)] for a single-character separator: never empty. *)
Fixpoint split (sep : ascii) (s : string) : list string :=
  match s with
  | EmptyString => [EmptyString]
  | String c s' =>
      if Ascii.eqb c sep then EmptyString :: split sep s'
      else match split sep s' with
           | [] => [String c EmptyString]
           | p :: ps => String c p :: ps
           end
  end.

(** [sep.join(parts)]. *)
Fixpoint join (sep : string) (parts : list string) : string :=
  match parts with
  | [] => EmptyString
  | [p] => p
  | p :: ps => (p ++ sep ++ join sep ps)%string
  end.

Fixpoint drop (n : nat) (s : string) : string :=
  match n, s with
  | O, _ => s
  | S n', String _ s' => drop n' s'
  | S _, EmptyString => EmptyString
  end.

Fixpoint take (n : nat) (s : string) : string :=
  match n, s with
  | O, _ => EmptyString
  | S n', String c s' => String c (take n' s')
  | S _, EmptyString => EmptyString
  end.

(** [s[i:j]]. *)
Definition slice (i j : nat) (s : string) : string := take (j - i) (drop i s).

End Text.

(* ================================================================== *)
(** * Regular expressions (the fragment of [re] the source uses) *)
(* ================================================================== *)

Module Re.
Import Text.

(** Sets of characters. *)
Inductive charset : Type :=
| Any                          (* [.]  every character but the newline *)
| Space                        (* [\s] *)
| Digit                        (* [\d] *)
| Word                         (* [\w] *)
| Chr (c : ascii)              (* a literal character *)
| OneOf (cs : list charset)    (* a bracketed set *)
| NoneOf (cs : list charset).  (* a complemented bracketed set *)

(** Quantifiers; all are greedy except [LazyPlus] (written [+?]). *)
Inductive quant : Type := One | Opt | Star | Plus | LazyPlus.

Inductive item : Type :=
| Atom (q : quant) (c : charset)
| GroupOpen                    (* an opening parenthesis of a capture group *)
| GroupClose
| Bol                          (* [^] *)
| Eol.                         (* [$] *)

Definition regex : Type := list item.

Definition newline : ascii := ascii_of_N 10.

(** [icase] is the flag [re.IGNORECASE]. *)
Fixpoint cmatch (icase : bool) (cs : charset) (a : ascii) : bool :=
  match cs with
  | Any => negb (Ascii.eqb a newline)
  | Space => is_space a
  | Digit => is_digit a
  | Word => is_word a
  | Chr c => if icase then Ascii.eqb (lower_char a) (lower_char c) else Ascii.eqb a c
  | OneOf l => existsb (fun c => cmatch icase c a) l
  | NoneOf l => negb (existsb (fun c => cmatch icase c a) l)
  end.

(** A match found from some start: where it ends, and the spans of its
    groups in the order they were closed. *)
Definition result : Type := (nat * list (nat * nat))%type.

(** The rest of a pattern, as a function of the position reached and of the
    text not yet read. *)
Definition cont : Type := nat -> string -> option result.

Definition one (p : ascii -> bool) (k : cont) : cont :=
  fun pos s =>
    match s with
    | String a s' => if p a then k (S pos) s' else None
    | EmptyString => None
    end.

Definition opt_greedy (p : ascii -> bool) (k : cont) : cont :=
  fun pos s =>
    match s with
    | String a s' =>
        if p a then
          match k (S pos) s' with
          | Some r => Some r
          | None => k pos s
          end
        else k pos s
    | EmptyString => k pos s
    end.

(** Greedy star: take as many characters as possible, give them back one by
    one while the rest of the pattern fails. *)
Fixpoint star_greedy (p : ascii -> bool) (k : cont) (pos : nat) (s : string) : option result :=
  match s with
  | String a s' =>
      if p a then
        match star_greedy p k (S pos) s' with
        | Some r => Some r
        | None => k pos s
        end
      else k pos s
  | EmptyString => k pos s
  end.

Definition plus_greedy (p : ascii -> bool) (k : cont) : cont :=
  one p (star_greedy p k).

(** Lazy plus: take one character, then as few more as the rest of the
    pattern allows. *)
Fixpoint plus_lazy (p : ascii -> bool) (k : cont) (pos : nat) (s : string) : option result :=
  match s with
  | String a s' =>
      if p a then
        match k (S pos) s' with
        | Some r => Some r
        | None => plus_lazy p k (S pos) s'
        end
      else None
  | EmptyString => None
  end.

Definition quantified (q : quant) (p : ascii -> bool) (k : cont) : cont :=
  match q with
  | One => one p k
  | Opt => opt_greedy p k
  | Star => star_greedy p k
  | Plus => plus_greedy p k
  | LazyPlus => plus_lazy p k
  end.

(** [$] without [re.MULTILINE]: the end of the text, or just before a final
    newline. *)
Definition at_eol (s : string) : bool :=
  match s with
  | EmptyString => true
  | String a EmptyString => Ascii.eqb a newline
  | _ => false
  end.

(** The matcher.  [opened] holds the starts of the groups that are open and
    [caps] the spans already closed, latest first. *)
Fixpoint compile (icase : bool) (r : regex) (opened : list nat) (caps : list (nat * nat)) : cont :=
  match r with
  | [] => fun pos _ => Some (pos, rev caps)
  | Atom q c :: r' => quantified q (cmatch icase c) (compile icase r' opened caps)
  | GroupOpen :: r' => fun pos s => compile icase r' (pos :: opened) caps pos s
  | GroupClose :: r' =>
      fun pos s =>
        match opened with
        | b :: opened' => compile icase r' opened' ((b, pos) :: caps) pos s
        | [] => None
        end
  | Bol :: r' => fun pos s => if Nat.eqb pos 0 then compile icase r' opened caps pos s else None
  | Eol :: r' => fun pos s => if at_eol s then compile icase r' opened caps pos s else None
  end.

(** A match that starts at position [pos], where [s] is the text from there. *)
Definition match_at (icase : bool) (r : regex) (pos : nat) (s : string) : option result :=
  compile icase r [] [] pos s.

(** [re.search]: the leftmost start with a match, [s] being the text from
    position [pos] on. *)
Fixpoint search_from (icase : bool) (r : regex) (pos : nat) (s : string) : option (nat * result) :=
  match match_at icase r pos s with
  | Some m => Some (pos, m)
  | None =>
      match s with
      | String _ s' => search_from icase r (S pos) s'
      | EmptyString => None
      end
  end.

Definition groups_of (s : string) (m : result) : list string :=
  map (fun be => slice (fst be) (snd be) s) (snd m).

(** [re.match(r, s).groups()]. *)
Definition match_groups (icase : bool) (r : regex) (s : string) : option (list string) :=
  option_map (groups_of s) (match_at icase r 0 s).

(** [re.search(r, s).groups()]. *)
Definition search_groups (icase : bool) (r : regex) (s : string) : option (list string) :=
  option_map (fun pm => groups_of s (snd pm)) (search_from icase r 0 s).

(** [re.sub(r, repl, s)] for a replacement without group references.  A match
    that is empty inserts the replacement and moves one character on. *)
Fixpoint sub_from (fuel : nat) (icase : bool) (r : regex) (repl : string)
                  (pos : nat) (s : string) : string :=
  match fuel with
  | O => s
  | S fuel' =>
      let step :=
        match s with
        | String a s' => String a (sub_from fuel' icase r repl (S pos) s')
        | EmptyString => EmptyString
        end in
      match match_at icase r pos s with
      | Some (e, _) =>
          if Nat.ltb pos e
          then (repl ++ sub_from fuel' icase r repl e (drop (e - pos) s))%string
          else (repl ++ step)%string
      | None => step
      end
  end.

Definition sub (icase : bool) (r : regex) (repl : string) (s : string) : string :=
  sub_from (S (String.length s)) icase r repl 0 s.

(** Pattern-building helpers. *)
Fixpoint lit (s : string) : regex :=
  match s with
  | EmptyString => []
  | String c s' => Atom One (Chr c) :: lit s'
  end.

Definition group (r : regex) : regex := GroupOpen :: r ++ [GroupClose].

End Re.

(* ================================================================== *)
(** * [src/core/matching_engine.py] *)
(* ================================================================== *)

Module MatchingEngine.
Import Text Re.
Local Open Scope Q_scope.

(** Modelled from the spec: [core.spotify_client.Track] is not among the
    sources; a source track carries an identifier, a title, an ordered list of
    artist names and a duration in milliseconds. *)
Record SpotifyTrack : Type := mkSpotifyTrack {
  id : string;
  name : string;
  artists : list string;
  duration_ms : Z
}.

(** Modelled from the spec: [core.plex_client.PlexTrackInfo] is not among the
    sources; a candidate carries an identifier, a title, a single artist string
    and an optional duration in milliseconds. *)
Record PlexTrackInfo : Type := mkPlexTrackInfo {
  rating_key : string;
  title : string;
  artist : string;
  duration : option Z
}.

(** The values of [MatchResult.match_type]; each constructor is spelt like the
    string the source uses. *)
Inductive MatchType : Type :=
| perfect_match
| high_confidence
| medium_confidence
| low_confidence
| no_match
| no_candidates.

Record MatchResult : Type := mkMatchResult {
  spotify_track : SpotifyTrack;
  plex_track : option PlexTrackInfo;
  confidence : Q;
  match_type : MatchType
}.

(** Strict comparison of scores, [a > b]. *)
Definition gt (a b : Q) : bool := if Qlt_le_dec b a then true else false.

Definition is_match (r : MatchResult) : bool :=
  match plex_track r with
  | None => false
  | Some _ => Qle_bool 0.8 (confidence r)
  end.

Definition sp : item := Atom Star Space.       (* [\s*] *)
Definition sp1 : item := Atom Plus Space.      (* [\s+] *)
Definition rest : item := Atom Star Any.       (* [.*]  *)

Definition title_patterns : list regex :=
  [ lit "(" ++ [rest] ++ lit ")";                        (* \(.*\)             *)
    lit "[" ++ [rest] ++ lit "]";                        (* \[.*\]             *)
    lit "-" ++ [sp] ++ lit "single version";             (* -\s*single version *)
    lit "-" ++ [sp] ++ lit "remaster" ++ [rest];         (* -\s*remaster.*     *)
    lit "-" ++ [sp] ++ lit "live" ++ [rest];             (* -\s*live.*         *)
    lit "-" ++ [sp] ++ lit "remix";                      (* -\s*remix          *)
    lit "-" ++ [sp] ++ lit "radio edit";                 (* -\s*radio edit     *)
    [sp1] ++ lit "feat" ++ [Atom Opt (Chr "."); rest];   (* \s+feat\.?.*       *)
    [sp1] ++ lit "ft" ++ [Atom Opt (Chr "."); rest];     (* \s+ft\.?.*         *)
    [sp1] ++ lit "featuring" ++ [rest] ].                (* \s+featuring.*     *)

Definition artist_patterns : list regex :=
  [ [sp] ++ lit "feat." ++ [rest];                       (* \s*feat\..*        *)
    [sp] ++ lit "ft." ++ [rest];                         (* \s*ft\..*          *)
    [sp] ++ lit "featuring" ++ [rest];                   (* \s*featuring.*     *)
    [sp] ++ lit "&" ++ [rest];                           (* \s*&.*             *)
    [sp] ++ lit "and" ++ [rest];                         (* \s*and.*           *)
    lit "," ++ [rest] ].                                 (* ,.*                *)

(** [\[^\w\s-\]] *)
Definition punctuation : regex := [Atom One (NoneOf [Word; Space; Chr "-"])].

(** [\s+] *)
Definition spaces : regex := [sp1].

(** The loop shared by [clean_title] and [clean_artist]:
    [cleaned = re.sub(pattern, '', cleaned, flags=re.IGNORECASE).strip()]. *)
Definition strip_patterns (patterns : list regex) (text : string) : string :=
  fold_left (fun cleaned pattern => strip (sub true pattern "" cleaned)) patterns text.

Definition duration_similarity (duration1 duration2 : Z) : Q :=
  if ((duration1 =? 0) || (duration2 =? 0))%Z then 0.5
  else if (Z.abs (duration1 - duration2) <=? 5000)%Z then 1.0
  else
    let diff_ratio := inject_Z (Z.abs (duration1 - duration2)) / inject_Z (Z.max duration1 duration2) in
    let penalised := 1.0 - diff_ratio * 5 in
    if gt penalised 0 then penalised else 0.

Section Engine.

(** [unidecode] is a library outside the repository.  It leaves the ASCII
    characters alone and replaces every other one by the entry of a fixed
    table; the table is the parameter. *)
Variable table : ascii -> string.

(** [difflib.SequenceMatcher(None, a, b).ratio()], likewise. *)
Variable ratio : string -> string -> Q.

Fixpoint unidecode (s : string) : string :=
  match s with
  | EmptyString => EmptyString
  | String c s' => ((if is_ascii c then String c EmptyString else table c) ++ unidecode s')%string
  end.

(** The argument is optional: the source tests [if not text] first, which
    also covers [None]. *)
Definition normalize_string (text : option string) : string :=
  match text with
  | None => ""
  | Some text =>
      if String.eqb text "" then ""
      else
        let text := unidecode text in
        let text := lower text in
        let text := sub false punctuation "" text in
        strip (sub false spaces " " text)
  end.

Definition clean_title (title : string) : string :=
  normalize_string (Some (strip_patterns title_patterns title)).

Definition clean_artist (artist : string) : string :=
  normalize_string (Some (strip_patterns artist_patterns artist)).

Definition similarity_score (str1 str2 : string) : Q :=
  if String.eqb str1 "" || String.eqb str2 "" then 0.0
  else ratio str1 str2.

(** The artist loop of [calculate_match_confidence], with its [break]. *)
Fixpoint best_artist (plex_artist_normalized plex_artist_cleaned : string)
                     (spotify_artists_cleaned : list string) (best_artist_score : Q) : Q :=
  match spotify_artists_cleaned with
  | [] => best_artist_score
  | spotify_artist :: others =>
      let score :=
        if contains spotify_artist plex_artist_normalized then 1.0
        else similarity_score spotify_artist plex_artist_cleaned in
      if gt score best_artist_score then
        if Qeq_bool score 1.0 then score
        else best_artist plex_artist_normalized plex_artist_cleaned others score
      else best_artist plex_artist_normalized plex_artist_cleaned others best_artist_score
  end.

Definition artist_score_of (spotify_track : SpotifyTrack) (plex_track : PlexTrackInfo) : Q :=
  let spotify_artists_cleaned :=
    map clean_artist (filter (fun a => negb (String.eqb a "")) (artists spotify_track)) in
  let plex_artist_cleaned := clean_artist (artist plex_track) in
  let plex_artist_normalized := normalize_string (Some (artist plex_track)) in
  best_artist plex_artist_normalized plex_artist_cleaned spotify_artists_cleaned 0.0.

Definition title_score_of (spotify_track : SpotifyTrack) (plex_track : PlexTrackInfo) : Q :=
  similarity_score (clean_title (name spotify_track)) (clean_title (title plex_track)).

Definition duration_score_of (spotify_track : SpotifyTrack) (plex_track : PlexTrackInfo) : Q :=
  duration_similarity (duration_ms spotify_track)
    (if Py.truthy_int (duration plex_track)
     then match duration plex_track with Some d => d | None => 0%Z end
     else 0%Z).

(** The last two steps of [calculate_match_confidence]: the boost for equal
    titles, then the tier.  The weighted sum is the exact one; the rounded
    one is in [Binary64] below. *)
Definition boost_and_tier (titles_equal : bool) (title_score artist_score duration_score : Q)
  : Q * MatchType :=
  let confidence := title_score * 0.5 + artist_score * 0.3 + duration_score * 0.2 in
  let confidence := if titles_equal then Py.max_Q confidence 0.85 else confidence in
  if gt title_score 0.95 && gt artist_score 0.9 && gt duration_score 0.9 then
    (Py.max_Q confidence 0.98, perfect_match)
  else if gt title_score 0.85 && gt artist_score 0.8 then
    (confidence, high_confidence)
  else if gt title_score 0.75 then
    (confidence, medium_confidence)
  else
    (confidence, low_confidence).

Definition calculate_match_confidence (spotify_track : SpotifyTrack) (plex_track : PlexTrackInfo)
  : Q * MatchType :=
  let spotify_title_cleaned := clean_title (name spotify_track) in
  let plex_title_cleaned := clean_title (title plex_track) in
  let artist_score := artist_score_of spotify_track plex_track in
  let title_score := similarity_score spotify_title_cleaned plex_title_cleaned in
  let duration_score := duration_score_of spotify_track plex_track in
  boost_and_tier
    (String.eqb spotify_title_cleaned plex_title_cleaned
     && Nat.ltb 0 (String.length spotify_title_cleaned))
    title_score artist_score duration_score.

(** The loop of [find_best_match]; the state is
    [(best_match, best_confidence, best_match_type)]. *)
Definition best_state : Type := (option PlexTrackInfo * Q * MatchType)%type.

Definition consider (spotify_track : SpotifyTrack) (st : best_state) (plex_track : PlexTrackInfo)
  : best_state :=
  let '(best_match, best_confidence, best_match_type) := st in
  let '(confidence, match_type) := calculate_match_confidence spotify_track plex_track in
  if gt confidence best_confidence
  then (Some plex_track, confidence, match_type)
  else st.

Definition find_best_match (spotify_track : SpotifyTrack) (plex_tracks : list PlexTrackInfo)
  : MatchResult :=
  match plex_tracks with
  | [] => mkMatchResult spotify_track None 0.0 no_candidates
  | _ =>
      let '(best_match, best_confidence, best_match_type) :=
        fold_left (consider spotify_track) plex_tracks (None, 0.0, no_match) in
      mkMatchResult spotify_track best_match best_confidence best_match_type
  end.

End Engine.

(** ** The confidence as the program computes it

    The scores above are exact rationals.  The program computes on binary64
    floats, and which of two candidates [find_best_match] keeps depends on
    the rounding: the scores and the loop are given again on floats, with
    the operations of Python. *)

Module Binary64.
(** [MatchResult] with the confidence as the program holds it. *)
Record MatchResult : Type := mkMatchResult {
  spotify_track : SpotifyTrack;
  plex_track : option PlexTrackInfo;
  confidence : float;
  match_type : MatchType
}.

Definition is_match (r : MatchResult) : bool :=
  match plex_track r with
  | None => false
  | Some _ => (0.8 <=? confidence r)%float
  end.

(** An integer as a number with no rounding. *)
Definition exactly (n : Z) : spec_float :=
  match n with
  | Z0 => S754_zero false
  | Zpos m => S754_finite false m 0
  | Zneg m => S754_finite true m 0
  end.

(** [a / b] on two integers: the float nearest to the quotient.  Python
    raises [OverflowError] where this gives an infinity. *)
Definition true_division (a b : Z) : float :=
  SF2Prim (SFdiv prec emax (exactly a) (exactly b)).

(** [max(0, ...)] returns the integer 0 where the penalised score is not
    positive; it stands here as the float 0.0, which compares and multiplies
    alike. *)
Definition duration_similarity (duration1 duration2 : Z) : float :=
  if ((duration1 =? 0) || (duration2 =? 0))%Z then 0.5
  else if (Z.abs (duration1 - duration2) <=? 5000)%Z then 1.0
  else
    let diff_ratio := true_division (Z.abs (duration1 - duration2)) (Z.max duration1 duration2) in
    let penalised := (1.0 - diff_ratio * 5)%float in
    if (0 <? penalised)%float then penalised else 0%float.

Section Engine.

Variable table : ascii -> string.

(** [difflib.SequenceMatcher(None, a, b).ratio()]. *)
Variable ratio : string -> string -> float.

Definition similarity_score (str1 str2 : string) : float :=
  if String.eqb str1 "" || String.eqb str2 "" then 0.0
  else ratio str1 str2.

(** The artist loop of [calculate_match_confidence], with its [break]. *)
Fixpoint best_artist (plex_artist_normalized plex_artist_cleaned : string)
                     (spotify_artists_cleaned : list string) (best_artist_score : float)
  : float :=
  match spotify_artists_cleaned with
  | [] => best_artist_score
  | spotify_artist :: others =>
      let score :=
        if contains spotify_artist plex_artist_normalized then 1.0%float
        else similarity_score spotify_artist plex_artist_cleaned in
      if (best_artist_score <? score)%float then
        if (score =? 1.0)%float then score
        else best_artist plex_artist_normalized plex_artist_cleaned others score
      else best_artist plex_artist_normalized plex_artist_cleaned others best_artist_score
  end.

Definition artist_score_of (spotify_track : SpotifyTrack) (plex_track : PlexTrackInfo) : float :=
  let spotify_artists_cleaned :=
    map (clean_artist table)
        (filter (fun a => negb (String.eqb a "")) (artists spotify_track)) in
  let plex_artist_cleaned := clean_artist table (artist plex_track) in
  let plex_artist_normalized := normalize_string table (Some (artist plex_track)) in
  best_artist plex_artist_normalized plex_artist_cleaned spotify_artists_cleaned 0.0.

Definition duration_score_of (spotify_track : SpotifyTrack) (plex_track : PlexTrackInfo)
  : float :=
  duration_similarity (duration_ms spotify_track)
    (if Py.truthy_int (duration plex_track)
     then match duration plex_track with Some d => d | None => 0%Z end
     else 0%Z).

Definition calculate_match_confidence (spotify_track : SpotifyTrack) (plex_track : PlexTrackInfo)
  : float * MatchType :=
  let spotify_title_cleaned := clean_title table (name spotify_track) in
  let plex_title_cleaned := clean_title table (title plex_track) in
  let artist_score := artist_score_of spotify_track plex_track in
  let title_score := similarity_score spotify_title_cleaned plex_title_cleaned in
  let duration_score := duration_score_of spotify_track plex_track in
  let confidence := (title_score * 0.5 + artist_score * 0.3 + duration_score * 0.2)%float in
  let confidence :=
    if String.eqb spotify_title_cleaned plex_title_cleaned
       && Nat.ltb 0 (String.length spotify_title_cleaned)
    then Py.max_float confidence 0.85
    else confidence in
  if (0.95 <? title_score)%float && (0.9 <? artist_score)%float
     && (0.9 <? duration_score)%float then
    (Py.max_float confidence 0.98, perfect_match)
  else if (0.85 <? title_score)%float && (0.8 <? artist_score)%float then
    (confidence, high_confidence)
  else if (0.75 <? title_score)%float then
    (confidence, medium_confidence)
  else
    (confidence, low_confidence).

(** The loop of [find_best_match]; the state is
    [(best_match, best_confidence, best_match_type)]. *)
Definition best_state : Type := (option PlexTrackInfo * float * MatchType)%type.

Definition consider (spotify_track : SpotifyTrack) (st : best_state) (plex_track : PlexTrackInfo)
  : best_state :=
  let '(best_match, best_confidence, best_match_type) := st in
  let '(confidence, match_type) := calculate_match_confidence spotify_track plex_track in
  if (best_confidence <? confidence)%float
  then (Some plex_track, confidence, match_type)
  else st.

Definition find_best_match (spotify_track : SpotifyTrack) (plex_tracks : list PlexTrackInfo)
  : MatchResult :=
  match plex_tracks with
  | [] => mkMatchResult spotify_track None 0.0 no_candidates
  | _ =>
      let '(best_match, best_confidence, best_match_type) :=
        fold_left (consider spotify_track) plex_tracks (None, 0.0%float, no_match) in
      mkMatchResult spotify_track best_match best_confidence best_match_type
  end.

End Engine.

End Binary64.

End MatchingEngine.

(* ================================================================== *)
(** * [src/core/soulseek_client.py]: result records and their scores *)
(* ================================================================== *)

(** [TrackResult], with the fields it inherits from [SearchResult]. *)
Record TrackResult : Type := mkTrackResult {
  username : string;
  filename : string;
  size : Z;
  bitrate : option Z;
  duration : option Z;
  quality : string;
  free_upload_slots : Z;
  upload_speed : Z;
  queue_length : Z;
  artist : option string;
  title : option string;
  album : option string;
  track_number : option Z
}.

Record AlbumResult : Type := mkAlbumResult {
  album_username : string;
  album_path : string;
  album_title : string;
  album_artist : option string;
  track_count : Z;
  total_size : Z;
  tracks : list TrackResult;
  dominant_quality : string;
  year : option string;
  album_free_upload_slots : Z;
  album_upload_speed : Z;
  album_queue_length : Z
}.

(** The dict literal [quality_weights], the same in both classes. *)
Definition quality_weights : list (string * float) :=
  [ ("flac", 1.0); ("mp3", 0.8); ("ogg", 0.7); ("aac", 0.6); ("wma", 0.5) ]%string%float.

Module SearchResult.

Definition quality_score (self : TrackResult) : float :=
  let base_score := Py.dict_get quality_weights (Text.lower (quality self)) 0.3%float in
  let base_score :=
    if Py.truthy_int (bitrate self) then
      match bitrate self with
      | Some b =>
          if (b >=? 320)%Z then (base_score + 0.2)%float
          else if (b >=? 256)%Z then (base_score + 0.1)%float
          else if (b <? 128)%Z then (base_score - 0.2)%float
          else base_score
      | None => base_score
      end
    else base_score in
  let base_score :=
    if (free_upload_slots self >? 0)%Z then (base_score + 0.1)%float else base_score in
  let base_score :=
    if (upload_speed self >? 100)%Z then (base_score + 0.05)%float else base_score in
  let base_score :=
    if (queue_length self >? 10)%Z then (base_score - 0.1)%float else base_score in
  Py.min_float base_score 1.0%float.

End SearchResult.

Module AlbumResult.

Definition quality_score (self : AlbumResult) : float :=
  let base_score := Py.dict_get quality_weights (Text.lower (dominant_quality self)) 0.3%float in
  let base_score :=
    if ((8 <=? track_count self) && (track_count self <=? 20))%Z then (base_score + 0.1)%float
    else if (track_count self >? 20)%Z then (base_score + 0.05)%float
    else base_score in
  let base_score :=
    if (album_free_upload_slots self >? 0)%Z then (base_score + 0.1)%float else base_score in
  let base_score :=
    if (album_upload_speed self >? 100)%Z then (base_score + 0.05)%float else base_score in
  let base_score :=
    if (album_queue_length self >? 10)%Z then (base_score - 0.1)%float else base_score in
  Py.min_float base_score 1.0%float.

End AlbumResult.

(** The values the two scores range over: a weight of the table (or the
    default), then one adjustment per test of the property. *)
Definition weight_values : list float := 0.3%float :: map snd quality_weights.

Definition either (f : float -> float) : list (float -> float) := [f; fun x => x].

Definition bitrate_steps : list (float -> float) :=
  [ (fun x => x + 0.2)%float; (fun x => x + 0.1)%float; (fun x => x - 0.2)%float; fun x => x ].

Definition count_steps : list (float -> float) :=
  [ (fun x => x + 0.1)%float; (fun x => x + 0.05)%float; fun x => x ].

Definition peer_steps : list (float -> float) :=
  flat_map (fun f1 =>
    flat_map (fun f2 =>
      map (fun f3 x => Py.min_float (f3 (f2 (f1 x))) 1.0%float)
          (either (fun x => x - 0.1)%float))
      (either (fun x => x + 0.05)%float))
    (either (fun x => x + 0.1)%float).

Definition score_values (steps : list (float -> float)) : list float :=
  flat_map (fun w => flat_map (fun f => map (fun g => g (f w)) peer_steps) steps) weight_values.

Definition track_scores : list float := score_values bitrate_steps.
Definition album_scores : list float := score_values count_steps.

(* ================================================================== *)
(** * [src/core/soulseek_client.py]: parsing and aggregation *)
(* ================================================================== *)

Module SoulseekClient.
Import Text Re.

(** ** Paths *)

(** [os.path.basename]: what follows the last slash. *)
Definition basename (p : string) : string := last (split "/" p) EmptyString.

(** [os.path.splitext(name)[0]] for a name without slash: cut at the last dot,
    unless only dots come before it. *)
Fixpoint stem_parts (parts : list string) : string :=
  match parts with
  | [] => EmptyString
  | [p] => EmptyString
  | p :: ps => match ps with
               | [_] => p
               | _ => (p ++ "." ++ stem_parts ps)%string
               end
  end.

Definition splitext_root (name : string) : string :=
  match split "." name with
  | [] | [_] => name
  | parts =>
      let root := stem_parts parts in
      if all_chars (fun c => Ascii.eqb c ".") root then name else root
  end.

(** [Path(filename).name]: the last component, empty components and single
    dots dropped. *)
Definition path_name (filename : string) : string :=
  last (filter (fun p => negb (String.eqb p "" || String.eqb p ".")) (split "/" filename))
       EmptyString.

(** [Path(filename).suffix]: from the last dot of the name on, when that dot is
    neither its first nor its last character. *)
Definition path_suffix (filename : string) : string :=
  let name := path_name filename in
  match rev (split "." name) with
  | ext :: _ :: _ =>
      if String.eqb ext "" then EmptyString
      else if Nat.eqb (String.length name) (S (String.length ext)) then EmptyString
      else ("." ++ ext)%string
  | _ => EmptyString
  end.

(** [s.lstrip('.')]. *)
Fixpoint lstrip_dots (s : string) : string :=
  match s with
  | String c s' => if Ascii.eqb c "." then lstrip_dots s' else s
  | EmptyString => EmptyString
  end.

Definition audio_extensions : list string :=
  [".mp3"; ".flac"; ".ogg"; ".aac"; ".wma"; ".wav"; ".m4a"]%string.

Definition known_qualities : list string := ["flac"; "mp3"; "ogg"; "aac"; "wma"]%string.

Definition mem (x : string) (l : list string) : bool := existsb (String.eqb x) l.

(** ** Filename metadata ([TrackResult._parse_filename_metadata]) *)

Definition dash : charset := OneOf [Chr "-"].          (* [-] with the en dash, which lies outside the range *)
Definition dash_or_dot : charset := OneOf [Chr "-"; Chr "."].

Definition track_patterns : list regex :=
  [ (* ^(\d+)\s*[-\.]\s*(.+?)\s*[-]\s*(.+)$ *)
    [Bol] ++ group [Atom Plus Digit] ++ [Atom Star Space; Atom One dash_or_dot; Atom Star Space]
      ++ group [Atom LazyPlus Any] ++ [Atom Star Space; Atom One dash; Atom Star Space]
      ++ group [Atom Plus Any] ++ [Eol];
    (* ^(.+?)\s*[-]\s*(.+)$ *)
    [Bol] ++ group [Atom LazyPlus Any] ++ [Atom Star Space; Atom One dash; Atom Star Space]
      ++ group [Atom Plus Any] ++ [Eol];
    (* ^(\d+)\s*[-\.]\s*(.+)$ *)
    [Bol] ++ group [Atom Plus Digit] ++ [Atom Star Space; Atom One dash_or_dot; Atom Star Space]
      ++ group [Atom Plus Any] ++ [Eol] ].

(** [^\d+\s*[-\.]\s*] *)
Definition leading_number : regex :=
  [Bol; Atom Plus Digit; Atom Star Space; Atom One dash_or_dot; Atom Star Space].

(** [str.isdigit]: the digits and the superscript digits, on a non-empty text. *)
Definition isdigit (s : string) : bool :=
  negb (String.eqb s "")
  && all_chars (fun c => is_digit c || (code c =? 178)%N || (code c =? 179)%N || (code c =? 185)%N) s.

(** [int(s)] on a text of digits; [None] stands for [ValueError]. *)
Fixpoint int_digits (acc : Z) (s : string) : option Z :=
  match s with
  | EmptyString => Some acc
  | String c s' =>
      if is_digit c then int_digits (10 * acc + Z.of_N (code c) - 48)%Z s' else None
  end.

Definition int_of (s : string) : option Z :=
  if String.eqb s "" then None else int_digits 0%Z s.

(** [a or b] on optional texts. *)
Definition or_else (a : option string) (b : string) : option string :=
  if Py.truthy_str a then a else Some b.

(** The first pattern that matches, with its groups ([for ... break]). *)
Fixpoint first_match (patterns : list regex) (text : string) : option (list string) :=
  match patterns with
  | [] => None
  | p :: ps =>
      match match_groups false p text with
      | Some g => Some g
      | None => first_match ps text
      end
  end.

(** The fields the loop over the patterns assigns:
    [(track_number, artist, title)]. *)
Definition apply_groups (self : TrackResult) (groups : list string)
  : option Z * option string * option string :=
  match groups with
  | [g0; g1; g2] =>
      match int_of g0 with
      | Some n => (Some n, or_else (artist self) (strip g1), or_else (title self) (strip g2))
      | None =>
          (track_number self, or_else (artist self) (strip g0),
           or_else (title self) (strip (g1 ++ " - " ++ g2)%string))
      end
  | [g0; g1] =>
      if isdigit g0 then
        match int_of g0 with
        | Some n => (Some n, artist self, or_else (title self) (strip g1))
        | None => (track_number self, artist self, title self)
        end
      else (track_number self, or_else (artist self) (strip g0), or_else (title self) (strip g1))
  | _ => (track_number self, artist self, title self)
  end.

(** The album taken from the directories, nearest first. *)
Fixpoint album_from_parts (parts : list string) : option string :=
  match parts with
  | [] => None
  | part :: others =>
      if negb (String.eqb part "") && negb (startswith "@" part) then
        let cleaned := sub false leading_number "" part in
        if Nat.ltb 3 (String.length cleaned) then Some cleaned
        else album_from_parts others
      else album_from_parts others
  end.

Definition _parse_filename_metadata (self : TrackResult) : TrackResult :=
  let base_name := splitext_root (basename (filename self)) in
  let '(number, artist', title') :=
    match first_match track_patterns base_name with
    | Some groups => apply_groups self groups
    | None => (track_number self, artist self, title self)
    end in
  let title' := if Py.truthy_str title' then title' else Some base_name in
  let album' :=
    if negb (Py.truthy_str (album self)) && contains "/" (filename self) then
      match album_from_parts (rev (removelast (split "/" (filename self)))) with
      | Some a => Some a
      | None => album self
      end
    else album self in
  mkTrackResult (username self) (filename self) (size self) (bitrate self) (duration self)
    (quality self) (free_upload_slots self) (upload_speed self) (queue_length self)
    artist' title' album' number.

(** [TrackResult.__post_init__]. *)
Definition __post_init__ (self : TrackResult) : TrackResult :=
  if negb (Py.truthy_str (title self)) || negb (Py.truthy_str (artist self))
  then _parse_filename_metadata self
  else self.

(** ** Raw responses *)

(** One file record of a response; absent keys already hold the defaults the
    source gives them ([''] and [0]), [bitRate] and [length] may be absent. *)
Record FileData : Type := mkFileData {
  file_filename : string;
  file_size : Z;
  file_bitRate : option Z;
  file_length : option Z
}.

Record ResponseData : Type := mkResponseData {
  response_username : string;
  response_files : list FileData;
  freeUploadSlots : Z;
  uploadSpeed : Z;
  queueLength : Z
}.

(** ** Album detection *)

Definition _extract_album_path (filename : string) : option string :=
  if negb (contains "/" filename) && negb (contains "\" filename) then None
  else
    let normalized_path := replace_char "\" "/" filename in
    let path_parts := split "/" normalized_path in
    if Nat.ltb (List.length path_parts) 2 then None
    else
      let album_dir := last (removelast path_parts) EmptyString in
      if startswith "@" album_dir || Nat.ltb (String.length album_dir) 2 then None
      else Some (join "/" (removelast path_parts)).

(** The keys of [albums_by_path]. *)
Definition album_key : Type := (string * string)%type.

Definition key_eqb (k1 k2 : album_key) : bool :=
  String.eqb (fst k1) (fst k2) && String.eqb (snd k1) (snd k2).

(** [albums_by_path[key].append(track)] on a [defaultdict(list)]; the keys
    keep the order of their first insertion. *)
Fixpoint group_add (key : album_key) (track : TrackResult)
                   (d : list (album_key * list TrackResult)) : list (album_key * list TrackResult) :=
  match d with
  | [] => [(key, [track])]
  | (k, ts) :: d' =>
      if key_eqb k key then (k, ts ++ [track]) :: d'
      else (k, ts) :: group_add key track d'
  end.

(** [Counter(items).most_common(1)[0][0]]: the first item, in order of first
    occurrence, whose count is the greatest. *)
Fixpoint count_add (x : string) (c : list (string * nat)) : list (string * nat) :=
  match c with
  | [] => [(x, 1)]
  | (y, n) :: c' => if String.eqb y x then (y, S n) :: c' else (y, n) :: count_add x c'
  end.

Definition counter (items : list string) : list (string * nat) :=
  fold_left (fun c x => count_add x c) items [].

Fixpoint max_count (best : string * nat) (c : list (string * nat)) : string * nat :=
  match c with
  | [] => best
  | item :: c' => if Nat.ltb (snd best) (snd item) then max_count item c' else max_count best c'
  end.

Definition most_common (items : list string) : option string :=
  match counter items with
  | [] => None
  | item :: c => Some (fst (max_count item c))
  end.

(** A stable sort by insertion; [after x y] tells that [x] has to come
    after [y]. *)
Fixpoint insert {A : Type} (after : A -> A -> bool) (x : A) (l : list A) : list A :=
  match l with
  | [] => [x]
  | y :: l' => if after x y then y :: insert after x l' else x :: l
  end.

Definition stable_sort {A : Type} (after : A -> A -> bool) (l : list A) : list A :=
  fold_right (insert after) [] l.

(** [sorted(tracks, key=lambda t: t.track_number or 0)]. *)
Definition number_key (t : TrackResult) : Z :=
  if Py.truthy_int (track_number t)
  then match track_number t with Some n => n | None => 0%Z end
  else 0%Z.

Definition sorted_by_number (ts : list TrackResult) : list TrackResult :=
  stable_sort (fun x y => (number_key y <? number_key x)%Z) ts.

(** [l.sort(key=lambda x: x.quality_score, reverse=True)]. *)
Definition sort_desc {A : Type} (key : A -> float) (l : list A) : list A :=
  stable_sort (fun x y => (key x <? key y)%float) l.

Definition digit4 : regex := [Atom One Digit; Atom One Digit; Atom One Digit; Atom One Digit].

(** [^\d+\s*[-\.\s]+] *)
Definition title_number : regex :=
  [Bol; Atom Plus Digit; Atom Star Space; Atom Plus (OneOf [Chr "-"; Chr "."; Space])].

(** [\s*[-\(\[]?\d{4}[-\)\]]?\s*$] *)
Definition title_year : regex :=
  [Atom Star Space; Atom Opt (OneOf [Chr "-"; Chr "("; Chr "["])] ++ digit4
  ++ [Atom Opt (OneOf [Chr "-"; Chr ")"; Chr "]"]); Atom Star Space; Eol].

Definition _extract_album_title (album_path : string) : string :=
  let album_dir := last (split "/" album_path) EmptyString in
  let cleaned := sub false title_number "" album_dir in
  let cleaned := sub false title_year "" cleaned in
  let cleaned := strip (sub false [Atom Plus Space] " " cleaned) in
  if String.eqb cleaned "" then album_dir else cleaned.

(** [^(.+?)\s*[-]\s*(.+)$] *)
Definition artist_album : regex :=
  [Bol] ++ group [Atom LazyPlus Any] ++ [Atom Star Space; Atom One dash; Atom Star Space]
  ++ group [Atom Plus Any] ++ [Eol].

Definition truthy_artists (ts : list TrackResult) : list string :=
  flat_map (fun t => match artist t with
                     | Some a => if String.eqb a "" then [] else [a]
                     | None => []
                     end) ts.

Definition _determine_album_artist (ts : list TrackResult) (album_path : string) : option string :=
  match most_common (truthy_artists ts) with
  | Some a => Some a
  | None =>
      let album_dir := last (split "/" album_path) EmptyString in
      match match_groups false artist_album album_dir with
      | Some (g1 :: _) =>
          let potential_artist := strip g1 in
          if Nat.ltb 1 (String.length potential_artist) then Some potential_artist else None
      | _ => None
      end
  end.

Definition year_patterns : list regex :=
  [ lit "(" ++ group digit4 ++ lit ")";                  (* \((\d{4})\)  *)
    lit "[" ++ group digit4 ++ lit "]";                  (* \[(\d{4})\]  *)
    [Atom One Space] ++ lit "-" ++ group digit4 ++ [Eol]; (* \s-(\d{4})$  *)
    [Atom One Space] ++ group digit4 ++ [Atom One Space]; (* \s(\d{4})\s  *)
    [Atom One Space] ++ group digit4 ++ [Eol] ].          (* \s(\d{4})$   *)

Fixpoint first_year (patterns : list regex) (text : string) : option string :=
  match patterns with
  | [] => None
  | p :: ps =>
      match search_groups false p text with
      | Some (y :: _) =>
          match int_of y with
          | Some n => if ((1900 <=? n) && (n <=? 2030))%Z then Some y else first_year ps text
          | None => first_year ps text
          end
      | _ => first_year ps text
      end
  end.

Definition _extract_year (album_path album_title : string) : option string :=
  first_year year_patterns (album_path ++ " " ++ album_title)%string.

Definition sum_sizes (ts : list TrackResult) : Z :=
  fold_left (fun acc t => (acc + size t)%Z) ts 0%Z.

Definition make_album (key : album_key) (ts : list TrackResult) : AlbumResult :=
  let album_title := _extract_album_title (snd key) in
  mkAlbumResult (fst key) (snd key) album_title
    (_determine_album_artist ts (snd key))
    (Z.of_nat (List.length ts))
    (sum_sizes ts)
    (sorted_by_number ts)
    (match most_common (map quality ts) with Some q => q | None => EmptyString end)
    (_extract_year (snd key) album_title)
    (match ts with first_track :: _ => free_upload_slots first_track | [] => 0%Z end)
    (match ts with first_track :: _ => upload_speed first_track | [] => 0%Z end)
    (match ts with first_track :: _ => queue_length first_track | [] => 0%Z end).

Definition _create_album_results (albums_by_path : list (album_key * list TrackResult))
  : list AlbumResult :=
  flat_map (fun item =>
              if Nat.ltb (List.length (snd item)) 2 then []
              else [make_album (fst item) (snd item)])
           albums_by_path.

(** The audio files of one response, as [TrackResult]s, in order. *)
Definition parse_file (response_data : ResponseData) (file_data : FileData) : list TrackResult :=
  let filename := file_filename file_data in
  let file_ext := lstrip_dots (lower (path_suffix filename)) in
  if negb (mem ("." ++ file_ext)%string audio_extensions) then []
  else
    let quality := if mem file_ext known_qualities then file_ext else "unknown"%string in
    [ __post_init__
        (mkTrackResult (response_username response_data) filename (file_size file_data)
           (file_bitRate file_data) (file_length file_data) quality
           (freeUploadSlots response_data) (uploadSpeed response_data)
           (queueLength response_data) None None None None) ].

(** [all_tracks] at the end of the two loops. *)
Definition parsed_tracks (responses_data : list ResponseData) : list TrackResult :=
  flat_map (fun r => flat_map (parse_file r) (response_files r)) responses_data.

(** [albums_by_path] at the end of the two loops. *)
Definition group_tracks (all_tracks : list TrackResult) : list (album_key * list TrackResult) :=
  fold_left (fun d track =>
               match _extract_album_path (filename track) with
               | Some album_path =>
                   if String.eqb album_path "" then d
                   else group_add (username track, album_path) track d
               | None => d
               end)
            all_tracks [].

Definition album_track_filenames (album_results : list AlbumResult) : list string :=
  flat_map (fun album => map filename (tracks album)) album_results.

Definition _process_search_responses (responses_data : list ResponseData)
  : list TrackResult * list AlbumResult :=
  let all_tracks := parsed_tracks responses_data in
  let album_results := _create_album_results (group_tracks all_tracks) in
  let claimed := album_track_filenames album_results in
  let individual_tracks := filter (fun track => negb (mem (filename track) claimed)) all_tracks in
  (individual_tracks, album_results).

(** ** The progressive search ([SoulseekClient.search]) *)

(** The slskd service as the search sees it: whether the client is
    configured, the id the POST request yields ([None] when the request fails
    or the reply carries no id), and the reply to each poll, numbered from 0
    ([None] when the request fails or the reply is not a list). *)
Record Backend : Type := mkBackend {
  base_url : option string;
  search_id : option string;
  responses : nat -> option (list ResponseData)
}.

(** A progress callback is handed the two cumulative lists themselves, not
    copies: what it does to them stays.  It is given by the lists it leaves
    behind; an exception it raises is logged and the loop goes on. *)
Definition callback : Type :=
  list TrackResult -> list AlbumResult -> nat -> list TrackResult * list AlbumResult.

(** The arguments of one invocation of the callback. *)
Record Call : Type := mkCall {
  call_tracks : list TrackResult;
  call_albums : list AlbumResult;
  call_count : nat
}.

(** The accumulators of one search, with what the loop did so far:
    [polled] holds [len(all_responses)] as it stood after each poll and
    [calls] the invocations of the callback, latest first. *)
Record Session : Type := mkSession {
  all_responses : list ResponseData;
  all_tracks : list TrackResult;
  all_albums : list AlbumResult;
  polled : list nat;
  calls : list Call
}.

(** [int(timeout / poll_interval)] with [poll_interval = 1.5]: the quotient
    truncated towards zero.  The float division is exact enough for this as
    long as [|timeout| < 2^50]. *)
Definition max_polls (timeout : Z) : Z := Z.quot (2 * timeout) 3.

(** One turn of the loop; the boolean tells whether it ends in [break]. *)
Definition poll (backend : Backend) (progress_callback : option callback)
                (poll_count : nat) (st : Session) : Session * bool :=
  let idle :=
    (mkSession (all_responses st) (all_tracks st) (all_albums st)
               (List.length (all_responses st) :: polled st) (calls st), false) in
  match responses backend poll_count with
  | Some responses_data =>
      if Nat.ltb (List.length (all_responses st)) (List.length responses_data) then
        let new_responses := skipn (List.length (all_responses st)) responses_data in
        let '(new_tracks, new_albums) := _process_search_responses new_responses in
        let tracks := sort_desc SearchResult.quality_score (all_tracks st ++ new_tracks) in
        let albums := sort_desc AlbumResult.quality_score (all_albums st ++ new_albums) in
        let count := List.length responses_data in
        let '(tracks', albums', calls') :=
          match progress_callback with
          | Some f => let '(t, a) := f tracks albums count in
                      (t, a, mkCall tracks albums count :: calls st)
          | None => (tracks, albums, calls st)
          end in
        (mkSession responses_data tracks' albums' (count :: polled st) calls',
         Nat.leb 30 count)
      else idle
  | None => idle
  end.

(** [for poll_count in range(max_polls)], from turn [poll_count] on with
    [remaining] turns left. *)
Fixpoint poll_loop (backend : Backend) (progress_callback : option callback)
                   (remaining poll_count : nat) (st : Session) : Session :=
  match remaining with
  | O => st
  | S remaining' =>
      let '(st', stop) := poll backend progress_callback poll_count st in
      if stop then st'
      else poll_loop backend progress_callback remaining' (S poll_count) st'
  end.

Definition new_session : Session := mkSession [] [] [] [] [].

(** The whole session of one search; nothing is polled when the client is
    not configured or the search could not be submitted. *)
Definition search_session (backend : Backend) (timeout : Z)
                          (progress_callback : option callback) : Session :=
  if Py.truthy_str (base_url backend) && Py.truthy_str (search_id backend)
  then poll_loop backend progress_callback (Z.to_nat (max_polls timeout)) 0 new_session
  else new_session.

Definition search (backend : Backend) (timeout : Z) (progress_callback : option callback)
  : list TrackResult * list AlbumResult :=
  let st := search_session backend timeout progress_callback in
  (all_tracks st, all_albums st).

(** ** JSON values and requests *)

(** What [response.json()] yields; [JNull] is Python's [None], which is also
    what [_make_request] returns when the request fails. *)
Inductive json : Type :=
| JNull
| JBool (b : bool)
| JInt (n : Z)
| JFloat (x : float)
| JStr (s : string)
| JList (l : list json)
| JDict (d : list (string * json)).

(** [bool(v)]. *)
Definition truthy (v : json) : bool :=
  match v with
  | JNull => false
  | JBool b => b
  | JInt n => negb (n =? 0)%Z
  | JFloat x => negb (x =? 0)%float
  | JStr s => negb (String.eqb s "")
  | JList l => match l with [] => false | _ => true end
  | JDict d => match d with [] => false | _ => true end
  end.

(** [d.get(key)] on a dict: the value under the key, if any. *)
Fixpoint lookup (key : string) (d : list (string * json)) : option json :=
  match d with
  | [] => None
  | (k, v) :: d' => if String.eqb k key then Some v else lookup key d'
  end.

(** What a piece of code does: it returns a value or raises. *)
Inductive outcome (A : Type) : Type :=
| Returned (a : A)
| Raised.

Arguments Returned {A} a.
Arguments Raised {A}.

(** One call of [_make_request]. *)
Record Request : Type := mkRequest {
  method : string;
  endpoint : string;
  payload : json
}.

(** The slskd service behind [_make_request]: what the n-th request of a
    session returns. *)
Definition Service : Type := nat -> Request -> json.

(** ** [download] *)

(** [isinstance(x, str) and x == 'id'], the test [in] makes on the items of a
    list. *)
Definition is_id (v : json) : bool :=
  match v with
  | JStr s => String.eqb s "id"
  | _ => false
  end.

(** What [download] makes of a response that is not [None]: the id it
    returns, unless reading it raises. *)
Definition download_id (filename : string) (response : json) : outcome json :=
  match response with
  | JDict d =>
      match lookup "id" d with
      | Some id => Returned id
      | None => Returned (JStr filename)
      end
  | JList (first :: _) =>
      match first with
      | JDict d =>
          match lookup "id" d with
          | Some id => Returned id
          | None => Returned (JStr filename)
          end
      | JList l => if existsb is_id l then Raised else Returned (JStr filename)
      | JStr s => if contains "id" s then Raised else Returned (JStr filename)
      | JNull | JBool _ | JInt _ | JFloat _ => Raised
      end
  | _ => Returned (JStr filename)
  end.

(** One of the loops over endpoints: the requests are made in order until one
    gives a response whose id can be read.  [n] counts the requests of the
    session; the result comes with the requests made, latest first. *)
Fixpoint try_endpoints (service : Service) (filename : string) (requests : list Request)
                       (n : nat) (made : list Request) : json * list Request :=
  match requests with
  | [] => (JNull, made)
  | request :: others =>
      match service n request with
      | JNull => try_endpoints service filename others (S n) (request :: made)
      | response =>
          match download_id filename response with
          | Returned id => (id, request :: made)
          | Raised => try_endpoints service filename others (S n) (request :: made)
          end
      end
  end.

Definition post (endpoint : string) (data : json) : Request := mkRequest "POST" endpoint data.

Definition download_data (filename : string) (file_size : Z) (download_path : string) : json :=
  JList [JDict [("filename", JStr filename); ("size", JInt file_size);
                ("path", JStr download_path)]%string].

Definition fallback_data (filename : string) (file_size : Z) : json :=
  JDict [("files", JList [JDict [("filename", JStr filename); ("size", JInt file_size)]%string])%string].

Definition username_endpoints_to_try (username : string) : list string :=
  [ "transfers/" ++ username ++ "/enqueue";
    "users/" ++ username ++ "/downloads";
    "users/" ++ username ++ "/enqueue" ]%string.

(** The requests [download] can make, in the order it makes them. *)
Definition download_requests (username filename : string) (file_size : Z)
                             (download_path : string) : list Request :=
  post ("transfers/downloads/" ++ username) (download_data filename file_size download_path)
  :: map (fun e => post e (download_data filename file_size download_path))
         (username_endpoints_to_try username)
  ++ map (fun e => post e (fallback_data filename file_size))
         (username_endpoints_to_try username).

(** [download]: the value returned and the requests made, latest first. *)
Definition download (base_url : option string) (download_path : string) (service : Service)
                    (username filename : string) (file_size : Z) : json * list Request :=
  if negb (Py.truthy_str base_url) then (JNull, [])
  else try_endpoints service filename
         (download_requests username filename file_size download_path) 0 [].

(** ** [get_all_downloads] *)

(** The error monad of code that may raise. *)
Definition bind {A B : Type} (x : outcome A) (f : A -> outcome B) : outcome B :=
  match x with
  | Returned a => f a
  | Raised => Raised
  end.

Notation "x <- e1 ;; e2" := (bind e1 (fun x => e2))
  (at level 61, e1 at next level, right associativity).

(** [v.get(key, default)]: only a dict has the method. *)
Definition get (v : json) (key : string) (default : json) : outcome json :=
  match v with
  | JDict d => Returned (match lookup key d with Some x => x | None => default end)
  | _ => Raised
  end.

(** The characters of a text, one text each. *)
Fixpoint characters (s : string) : list json :=
  match s with
  | EmptyString => []
  | String c s' => JStr (String c EmptyString) :: characters s'
  end.

(** [for x in v]: the items of a list, the keys of a dict, the characters of
    a text; nothing else can be iterated. *)
Definition iterate (v : json) : outcome (list json) :=
  match v with
  | JList l => Returned l
  | JDict d => Returned (map (fun kv => JStr (fst kv)) d)
  | JStr s => Returned (characters s)
  | JNull | JBool _ | JInt _ | JFloat _ => Raised
  end.

(** [float(n)] on an integer: the nearest float, [OverflowError] beyond the
    range. *)
Definition float_of_int (n : Z) : outcome float :=
  let x := SF2Prim (binary_normalize prec emax n 0 false) in
  if is_infinity x then Raised else Returned x.

Section Downloads.

(** [float(s)] on a text: Python's reading of a float literal, [None] where
    it raises [ValueError]. *)
Variable float_of_text : string -> option float.

(** [float(v)]. *)
Definition to_float (v : json) : outcome float :=
  match v with
  | JInt n => float_of_int n
  | JFloat x => Returned x
  | JBool b => Returned (if b then 1.0 else 0.0)%float
  | JStr s => match float_of_text s with Some x => Returned x | None => Raised end
  | JNull | JList _ | JDict _ => Raised
  end.

Record DownloadStatus : Type := mkDownloadStatus {
  status_id : json;
  status_filename : json;
  status_username : json;
  status_state : json;
  status_progress : float;
  status_size : json;
  status_transferred : json;
  status_speed : json;
  status_time_remaining : json
}.

(** The body of the innermost loop. *)
Definition file_status (username file_data : json) : outcome DownloadStatus :=
  state <- get file_data "state" (JStr "") ;;
  match state with
  | JStr s =>
      progress <-
        (if startswith "completed" (lower s) then Returned 100.0%float
         else
           match file_data with
           | JDict d =>
               match lookup "progress" d with
               | Some p => to_float p
               | None => Returned 0.0%float
               end
           | _ => Raised
           end) ;;
      id <- get file_data "id" (JStr "") ;;
      filename <- get file_data "filename" (JStr "") ;;
      state <- get file_data "state" (JStr "") ;;
      size <- get file_data "size" (JInt 0) ;;
      transferred <- get file_data "bytesTransferred" (JInt 0) ;;
      speed <- get file_data "averageSpeed" (JInt 0) ;;
      time_remaining <- get file_data "timeRemaining" JNull ;;
      Returned (mkDownloadStatus id filename username state progress size transferred speed
                                time_remaining)
  | _ => Raised
  end.

(** A loop whose body may raise: the results in order, or the first
    exception. *)
Fixpoint for_each {A B : Type} (body : A -> outcome (list B)) (items : list A)
  : outcome (list B) :=
  match items with
  | [] => Returned []
  | x :: items' =>
      first <- body x ;;
      others <- for_each body items' ;;
      Returned (first ++ others)
  end.

Definition directory_statuses (username directory : json) : outcome (list DownloadStatus) :=
  files <- get directory "files" (JList []) ;;
  files <- iterate files ;;
  for_each (fun file_data => s <- file_status username file_data ;; Returned [s]) files.

Definition user_statuses (user_data : json) : outcome (list DownloadStatus) :=
  username <- get user_data "username" (JStr "") ;;
  directories <- get user_data "directories" (JList []) ;;
  directories <- iterate directories ;;
  for_each (directory_statuses username) directories.

(** [get_all_downloads]: [response] is what the request for
    [transfers/downloads] returns. *)
Definition get_all_downloads (base_url : option string) (response : json)
  : list DownloadStatus :=
  if negb (Py.truthy_str base_url) then []
  else if negb (truthy response) then []
  else
    match (users <- iterate response ;; for_each user_statuses users) with
    | Returned downloads => downloads
    | Raised => []
    end.

End Downloads.

(** ** [search_and_download_best] *)

(** What the names of [search_and_download_best] can be bound to: a track, an
    album, or a list of such. *)
Inductive object : Type :=
| Track (t : TrackResult)
| Album (a : AlbumResult)
| ListOf (l : list object).

(** [for r in results] on the pair that [search] returns: its two members. *)
Definition members (results : list TrackResult * list AlbumResult) : list object :=
  [ListOf (map Track (fst results)); ListOf (map Album (snd results))].

(** The attributes read off a result; a list has none of them, and an album
    has no [quality], [filename] or [size]. *)
Definition quality_of (r : object) : outcome string :=
  match r with
  | Track t => Returned (quality t)
  | Album _ | ListOf _ => Raised
  end.

Definition username_of (r : object) : outcome string :=
  match r with
  | Track t => Returned (username t)
  | Album a => Returned (album_username a)
  | ListOf _ => Raised
  end.

Definition filename_of (r : object) : outcome string :=
  match r with
  | Track t => Returned (filename t)
  | Album _ | ListOf _ => Raised
  end.

Definition size_of (r : object) : outcome Z :=
  match r with
  | Track t => Returned (size t)
  | Album _ | ListOf _ => Raised
  end.

(** [[r for r in results if r.quality.lower() == preferred_quality.lower()]]. *)
Fixpoint preferred (preferred_quality : string) (results : list object)
  : outcome (list object) :=
  match results with
  | [] => Returned []
  | r :: others =>
      q <- quality_of r ;;
      rest <- preferred preferred_quality others ;;
      Returned (if String.eqb (lower q) (lower preferred_quality) then r :: rest else rest)
  end.

(** [search_and_download_best]: what it returns or that it raises, with the
    session of its search and the requests its download made.  The tuple
    that [search] returns is never empty, so [if not results] never holds. *)
Definition search_and_download_best
    (backend : Backend) (download_path : string) (service : Service)
    (query preferred_quality : string)
  : outcome json * Session * list Request :=
  let st := search_session backend 30 None in
  let results := members (all_tracks st, all_albums st) in
  match preferred preferred_quality results with
  | Raised => (Raised, st, [])
  | Returned preferred_results =>
      let best_result :=
        match preferred_results with
        | r :: _ => Returned r
        | [] => match results with
                | r :: _ => q <- quality_of r ;; Returned r
                | [] => Raised
                end
        end in
      match (r <- best_result ;;
             u <- username_of r ;; f <- filename_of r ;; s <- size_of r ;;
             Returned (u, f, s)) with
      | Returned (u, f, s) =>
          let '(id, made) := download (base_url backend) download_path service u f s in
          (Returned id, st, made)
      | Raised => (Raised, st, [])
      end
  end.

End SoulseekClient.

(* ================================================================== *)
(** * [src/core/plex_scan_manager.py] *)
(* ================================================================== *)

(** The manager runs on several threads: the callers of its methods and the
    threads of its timers.  Every method body is taken as one step; the steps
    are ordered by a clock ([now], in seconds), and a timer fires at the time
    it is due.  Completion callbacks are taken not to call back into the
    manager. *)

Module PlexScanManager.

(** What a [threading.Timer] of the manager runs. *)
Inductive target : Type := ExecuteScan | PollScanStatus.

(** A timer that was started and has neither fired nor been cancelled. *)
Record Timer : Type := mkTimer {
  timer_id : nat;
  due : Z;
  runs : target
}.

(** The outcome of a call to the Plex client. *)
Inductive reply : Type := Yes | No | Raises.

(** The Plex client as the manager sees it: the outcome of the n-th call of
    either method. *)
Record Plex : Type := mkPlex {
  trigger_library_scan : nat -> reply;
  is_library_scanning : nat -> reply
}.

(** The fields of the manager. *)
Record Manager : Type := mkManager {
  delay : Z;
  _timer : option nat;
  _scan_in_progress : bool;
  _downloads_during_scan : bool;
  _scan_completion_callbacks : list nat;
  _scan_start_time : option Z;
  _max_scan_time : Z
}.

(** The manager with what surrounds it: the clock, the live timers in the
    order they were started, the next timer id, the number of calls made to
    either method of the Plex client, the callbacks called so far (latest
    first), and whether a thread sits on [_lock] for ever. *)
Record World : Type := mkWorld {
  mgr : Manager;
  now : Z;
  timers : list Timer;
  next_id : nat;
  triggers : nat;
  status_checks : nat;
  called : list nat;
  wedged : bool
}.

(** [PlexScanManager(plex_client, delay_seconds)] at time [t]. *)
Definition init (delay_seconds t : Z) : World :=
  mkWorld (mkManager delay_seconds None false false [] None 1800) t [] 0 0 0 [] false.

Definition with_mgr (w : World) (m : Manager) : World :=
  mkWorld m (now w) (timers w) (next_id w) (triggers w) (status_checks w) (called w) (wedged w).

Definition set_timer (m : Manager) (t : option nat) : Manager :=
  mkManager (delay m) t (_scan_in_progress m) (_downloads_during_scan m)
            (_scan_completion_callbacks m) (_scan_start_time m) (_max_scan_time m).

Definition set_in_progress (m : Manager) (b : bool) : Manager :=
  mkManager (delay m) (_timer m) b (_downloads_during_scan m)
            (_scan_completion_callbacks m) (_scan_start_time m) (_max_scan_time m).

Definition set_downloads (m : Manager) (b : bool) : Manager :=
  mkManager (delay m) (_timer m) (_scan_in_progress m) b
            (_scan_completion_callbacks m) (_scan_start_time m) (_max_scan_time m).

Definition set_start_time (m : Manager) (t : option Z) : Manager :=
  mkManager (delay m) (_timer m) (_scan_in_progress m) (_downloads_during_scan m)
            (_scan_completion_callbacks m) t (_max_scan_time m).

Definition set_callbacks (m : Manager) (l : list nat) : Manager :=
  mkManager (delay m) (_timer m) (_scan_in_progress m) (_downloads_during_scan m)
            l (_scan_start_time m) (_max_scan_time m).

(** [threading.Timer(seconds, f).start()]; the result holds the new timer's id
    in [next_id - 1]. *)
Definition start_timer (seconds : Z) (f : target) (w : World) : World :=
  mkWorld (mgr w) (now w) (timers w ++ [mkTimer (next_id w) (now w + seconds) f])
          (S (next_id w)) (triggers w) (status_checks w) (called w) (wedged w).

(** [timer.cancel()]: a timer that already fired is not touched. *)
Definition cancel (id : nat) (w : World) : World :=
  mkWorld (mgr w) (now w) (filter (fun t => negb (Nat.eqb (timer_id t) id)) (timers w))
          (next_id w) (triggers w) (status_checks w) (called w) (wedged w).

Definition cancel_current (w : World) : World :=
  match _timer (mgr w) with
  | Some id => cancel id w
  | None => w
  end.

(** ** The sections of the methods

    A method holds [_lock] for a part of its body only: other threads run
    before and after each [with self._lock] block, and while the method
    waits for Plex or for a callback.  The methods are therefore given
    section by section; a thread is known by where it stands.  Callbacks
    are taken not to call back into the manager. *)

(** A section that needs [_lock] while a thread sits on it never returns. *)
Definition locked (step : World -> World) (w : World) : World :=
  if wedged w then w else step w.

(** Where a thread stands: before a [with self._lock] block, or before a call
    that leaves the manager.  What a thread has read under the lock and
    still uses is kept with its position. *)
Inductive position : Type :=
| at_force_scan                                   (* l.213 *)
| at_execute_scan                                 (* l.93 *)
| at_trigger_library_scan                         (* l.106 *)
| at_reset_scan_state                             (* l.204 *)
| at_poll_scan_status                             (* l.133 *)
| at_is_library_scanning                          (* l.145 *)
| at_scan_completed                               (* l.165 *)
| at_call_completion_callbacks (downloads_during_scan : bool)   (* l.190 *)
| at_callbacks (downloads_during_scan : bool) (callbacks : list nat)   (* l.194 *)
| at_follow_up                                    (* l.184 *)
| at_deadlock.                                    (* l.165, reached from l.141 *)

(** [request_scan] is one [with self._lock] block. *)
Definition request_scan : World -> World :=
  locked (fun w =>
    if _scan_in_progress (mgr w) then with_mgr w (set_downloads (mgr w) true)
    else
      let w := cancel_current w in
      let id := next_id w in
      let w := start_timer (delay (mgr w)) ExecuteScan w in
      with_mgr w (set_timer (mgr w) (Some id))).

Definition add_scan_completion_callback (callback : nat) : World -> World :=
  locked (fun w =>
    if existsb (Nat.eqb callback) (_scan_completion_callbacks (mgr w)) then w
    else with_mgr w (set_callbacks (mgr w) (_scan_completion_callbacks (mgr w) ++ [callback]))).

(** [list.remove]: the first occurrence goes. *)
Fixpoint remove_first (x : nat) (l : list nat) : list nat :=
  match l with
  | [] => []
  | y :: l' => if Nat.eqb y x then l' else y :: remove_first x l'
  end.

Definition remove_scan_completion_callback (callback : nat) : World -> World :=
  locked (fun w =>
    with_mgr w (set_callbacks (mgr w) (remove_first callback (_scan_completion_callbacks (mgr w))))).

Definition _reset_scan_state : World -> World :=
  locked (fun w => with_mgr w (set_start_time (set_in_progress (mgr w) false) None)).

Definition _start_scan_monitoring (w : World) : World :=
  start_timer 15 PollScanStatus w.

(** The loop of [_call_completion_callbacks] over its copy of the list:
    every callback is called, in order; an exception of one is caught and
    logged before the next is called. *)
Definition call_each (callbacks : list nat) (w : World) : World :=
  mkWorld (mgr w) (now w) (timers w) (next_id w) (triggers w) (status_checks w)
          (rev callbacks ++ called w) (wedged w).

(** The list is copied under the lock, the callbacks are called after it
    is released. *)
Definition _call_completion_callbacks : World -> World :=
  locked (fun w => call_each (_scan_completion_callbacks (mgr w)) w).

Definition shutdown : World -> World :=
  locked (fun w =>
    match _timer (mgr w) with
    | Some id => with_mgr (cancel id w) (set_timer (mgr w) None)
    | None => w
    end).

(** The thread holds [_lock] and asks for it again: it waits for ever and
    the lock is never released. *)
Definition wedge (w : World) : World :=
  mkWorld (mgr w) (now w) (timers w) (next_id w) (triggers w) (status_checks w) (called w) true.

Definition timed_out (w : World) : bool :=
  match _scan_start_time (mgr w) with
  | Some t => negb (t =? 0)%Z && (now w - t >? _max_scan_time (mgr w))%Z
  | None => false
  end.

(** A section under [_lock]: a thread that cannot have the lock stays where
    it stands. *)
Definition with_lock (pos : position) (section : World -> World * option position)
                     (w : World) : World * option position :=
  if wedged w then (w, Some pos) else section w.

Section WithPlex.

Variable plex_client : Plex.

(** One section of a thread: the world it leaves, and where the thread
    stands next, [None] when its method has returned. *)
Definition advance (pos : position) (w : World) : World * option position :=
  match pos with
  | at_force_scan =>                                      (* l.213-220 *)
      with_lock pos (fun w =>
        let w := match _timer (mgr w) with
                 | Some id => with_mgr (cancel id w) (set_timer (mgr w) None)
                 | None => w
                 end in
        if _scan_in_progress (mgr w) then (w, None) else (w, Some at_execute_scan)) w
  | at_execute_scan =>                                    (* l.93-101 *)
      with_lock pos (fun w =>
        if _scan_in_progress (mgr w) then (w, None)
        else
          let m := set_start_time
                     (set_timer (set_downloads (set_in_progress (mgr w) true) false) None)
                     (Some (now w)) in
          (with_mgr w m, Some at_trigger_library_scan)) w
  | at_trigger_library_scan =>                            (* l.105-118 *)
      let w' := mkWorld (mgr w) (now w) (timers w) (next_id w) (S (triggers w))
                        (status_checks w) (called w) (wedged w) in
      match trigger_library_scan plex_client (triggers w) with
      | Yes => (_start_scan_monitoring w', None)
      | No | Raises => (w', Some at_reset_scan_state)
      end
  | at_reset_scan_state =>                                (* l.204-206 *)
      with_lock pos (fun w => (_reset_scan_state w, None)) w
  | at_poll_scan_status =>                                (* l.133-142 *)
      with_lock pos (fun w =>
        if negb (_scan_in_progress (mgr w)) then (w, None)
        else if timed_out w then (wedge w, Some at_deadlock)
        else (w, Some at_is_library_scanning)) w
  | at_is_library_scanning =>                             (* l.145-161 *)
      let w' := mkWorld (mgr w) (now w) (timers w) (next_id w) (triggers w)
                        (S (status_checks w)) (called w) (wedged w) in
      match is_library_scanning plex_client (status_checks w) with
      | Yes => (start_timer 30 PollScanStatus w', None)
      | No | Raises => (w', Some at_scan_completed)
      end
  | at_scan_completed =>                                  (* l.165-174 *)
      with_lock pos (fun w =>
        let was_in_progress := _scan_in_progress (mgr w) in
        let downloads_during_scan := _downloads_during_scan (mgr w) in
        let w := with_mgr w (set_in_progress (mgr w) false) in
        if negb was_in_progress then (w, None)
        else (w, Some (at_call_completion_callbacks downloads_during_scan))) w
  | at_call_completion_callbacks downloads_during_scan => (* l.190-191 *)
      with_lock pos (fun w =>
        (w, Some (at_callbacks downloads_during_scan (_scan_completion_callbacks (mgr w))))) w
  | at_callbacks downloads_during_scan callbacks =>       (* l.193-200, l.182 *)
      (call_each callbacks w, if downloads_during_scan then Some at_follow_up else None)
  | at_follow_up =>                                       (* l.184 *)
      with_lock pos (fun w => (request_scan w, None)) w
  | at_deadlock => (w, Some at_deadlock)
  end.

(** The sections that are left, at most, from a position. *)
Definition sections (pos : position) : nat :=
  match pos with
  | at_force_scan => 4
  | at_execute_scan => 3
  | at_trigger_library_scan => 2
  | at_reset_scan_state => 1
  | at_poll_scan_status => 6
  | at_is_library_scanning => 5
  | at_scan_completed => 4
  | at_call_completion_callbacks _ => 3
  | at_callbacks _ _ => 2
  | at_follow_up => 1
  | at_deadlock => 0
  end.

(** A thread goes through its sections with no other thread in between. *)
Fixpoint complete (n : nat) (pos : position) (w : World) : World :=
  match n with
  | O => w
  | S n' =>
      match advance pos w with
      | (w', Some pos') => complete n' pos' w'
      | (w', None) => w'
      end
  end.

(** A method run on its own, from the position where it starts to its
    return, or to the lock it cannot have. *)
Definition alone (pos : position) (w : World) : World :=
  complete (sections pos) pos w.

Definition _execute_scan : World -> World := alone at_execute_scan.

Definition _scan_completed : World -> World := alone at_scan_completed.

Definition _poll_scan_status : World -> World := alone at_poll_scan_status.

Definition force_scan : World -> World := alone at_force_scan.

(** The live timer that is due first; among timers due together, the one
    started first. *)
Fixpoint earliest (best : Timer) (l : list Timer) : Timer :=
  match l with
  | [] => best
  | t :: l' => if (due t <? due best)%Z then earliest t l' else earliest best l'
  end.

Definition next_timer (w : World) : option Timer :=
  match timers w with
  | [] => None
  | t :: l => Some (earliest t l)
  end.

(** Where the thread of a timer starts. *)
Definition entry (f : target) : position :=
  match f with
  | ExecuteScan => at_execute_scan
  | PollScanStatus => at_poll_scan_status
  end.

(** The next timer fires: the clock moves to its due time, the timer is no
    longer live, and a thread starts on what it runs. *)
Definition fire (w : World) : World * option position :=
  match next_timer w with
  | None => (w, None)
  | Some t =>
      let w := cancel (timer_id t) w in
      (mkWorld (mgr w) (Z.max (now w) (due t)) (timers w) (next_id w) (triggers w)
               (status_checks w) (called w) (wedged w),
       Some (entry (runs t)))
  end.

(** The next timer fires and its thread runs on its own. *)
Definition fire_next (w : World) : World :=
  match fire w with
  | (w', Some pos) => alone pos w'
  | (w', None) => w'
  end.

Fixpoint fire_many (n : nat) (w : World) : World :=
  match n with
  | O => w
  | S n' => fire_many n' (fire_next w)
  end.

(** ** Threads side by side *)

(** The manager and the threads that are inside its methods. *)
Record System : Type := mkSystem {
  world : World;
  threads : list position
}.

(** What happens next: a thread calls a public method ([request_scan],
    [shutdown] and the two callback methods are one section each;
    [force_scan] starts a thread), the next timer fires and starts a thread,
    the thread of the given index runs its next section, or time passes. *)
Inductive action : Type :=
| call_request_scan
| call_force_scan
| call_shutdown
| call_add_scan_completion_callback (callback : nat)
| call_remove_scan_completion_callback (callback : nat)
| timer_fires
| thread_runs (i : nat)
| time_passes (t : Z).

(** Time passes up to [t] with no timer firing. *)
Definition wait_until (t : Z) (w : World) : World :=
  mkWorld (mgr w) (Z.max (now w) t) (timers w) (next_id w) (triggers w)
          (status_checks w) (called w) (wedged w).

Definition act (s : System) (a : action) : System :=
  match a with
  | call_request_scan => mkSystem (request_scan (world s)) (threads s)
  | call_force_scan => mkSystem (world s) (threads s ++ [at_force_scan])
  | call_shutdown => mkSystem (shutdown (world s)) (threads s)
  | call_add_scan_completion_callback c =>
      mkSystem (add_scan_completion_callback c (world s)) (threads s)
  | call_remove_scan_completion_callback c =>
      mkSystem (remove_scan_completion_callback c (world s)) (threads s)
  | timer_fires =>
      match fire (world s) with
      | (w, Some pos) => mkSystem w (threads s ++ [pos])
      | (w, None) => mkSystem w (threads s)
      end
  | thread_runs i =>
      match nth_error (threads s) i with
      | Some pos =>
          match advance pos (world s) with
          | (w, Some pos') => mkSystem w (firstn i (threads s) ++ pos' :: skipn (S i) (threads s))
          | (w, None) => mkSystem w (firstn i (threads s) ++ skipn (S i) (threads s))
          end
      | None => s
      end
  | time_passes t => mkSystem (wait_until t (world s)) (threads s)
  end.

Definition interleave (actions : list action) (s : System) : System :=
  fold_left act actions s.

End WithPlex.

Definition get_status (w : World) : bool * bool * bool * Z :=
  (_scan_in_progress (mgr w), _downloads_during_scan (mgr w),
   match _timer (mgr w) with Some _ => true | None => false end, delay (mgr w)).

Definition live (f : target) (w : World) : list Timer :=
  filter (fun t => match runs t, f with
                   | ExecuteScan, ExecuteScan | PollScanStatus, PollScanStatus => true
                   | _, _ => false
                   end) (timers w).

End PlexScanManager.

(* ================================================================== *)
(** * [src/services/sync_service.py] *)
(* ================================================================== *)

(** The service runs as a task among others, and [cancel_sync] may be called
    between any two of its steps: what the service finds in [_cancelled] each
    time it reads it is given from outside.  Progress callbacks are taken to
    return normally.  [sync_time], the wall clock, is left out of the
    results.  Confidences are exact rationals, as the scores of the matching
    engine are. *)

Module SyncService.
Import SoulseekClient.
Local Open Scope Q_scope.

(** What is appended to [errors]. *)
Inductive error : Type :=
| already_in_progress            (* "Sync already in progress" *)
| sync_cancelled                 (* "Sync cancelled" *)
| no_tracks (playlist : string)  (* "Playlist '...' has no tracks" *)
| exception.                     (* [str(e)] of an exception that was caught *)

(** A Spotify playlist, by what the service reads of it. *)
Module Playlist.
Record t : Type := mk {
  name : string;
  tracks : list MatchingEngine.SpotifyTrack
}.
End Playlist.

Module SyncResult.
Record t : Type := mk {
  playlist_name : string;
  total_tracks : Z;
  matched_tracks : Z;
  synced_tracks : Z;
  downloaded_tracks : Z;
  failed_tracks : Z;
  errors : list error
}.
End SyncResult.

(** [MockPlexTrack]: the five attributes copied from a track that the
    database returned. *)
Module MockPlexTrack.
Record t : Type := mk {
  id : string;
  title : string;
  artist : string;
  album : string;
  duration : option Z
}.
End MockPlexTrack.

(** The dataclass [MatchResult] of [matching_engine.py] as the service fills
    it: [plex_track] holds a [MockPlexTrack] and [match_type] one of the two
    texts of the service, neither of which [MatchingEngine.MatchResult] has a
    place for.  [is_match] is the same property. *)
Module MatchResult.
Record t : Type := mk {
  spotify_track : MatchingEngine.SpotifyTrack;
  plex_track : option MockPlexTrack.t;
  confidence : Q;
  match_type : string
}.

(** The property [is_match]. *)
Definition is_match (self : t) : bool :=
  match plex_track self with
  | None => false
  | Some _ => Qle_bool 0.8 (confidence self)
  end.
End MatchResult.

(** The Plex client, by the two methods the service calls. *)
Record PlexClient : Type := mkPlexClient {
  is_connected : outcome bool;
  update_playlist : string -> list MockPlexTrack.t -> outcome bool
}.

(** What surrounds the service: its Plex client, if any; the database
    ([MusicDatabase().check_track_exists(title, artist, 0.7)]); what
    [_cancelled] holds at its n-th reading; and the Soulseek client with its
    two services. *)
Record Environment : Type := mkEnvironment {
  plex_client : option PlexClient;
  check_track_exists : string -> string -> outcome (option MockPlexTrack.t * Q);
  cancelled : nat -> bool;
  backend : Backend;
  download_path : string;
  service : Service
}.

(** The two flags of the service. *)
Record Flags : Type := mkFlags {
  is_syncing : bool;
  _cancelled : bool
}.

(** [cancel_sync]. *)
Definition cancel_sync (flags : Flags) : Flags := mkFlags false true.

Definition _create_error_result (playlist_name : string) (errors : list error) : SyncResult.t :=
  SyncResult.mk playlist_name 0 0 0 0 0 errors.

(** The loop of [_find_track_in_plex] over the artists; [n] counts the
    readings of [_cancelled]. *)
Fixpoint find_by_artists (env : Environment) (original_title : string)
                         (artists : list string) (n : nat)
  : option MockPlexTrack.t * Q * nat :=
  match artists with
  | [] => (None, 0.0, n)
  | artist_name :: others =>
      if cancelled env n then (None, 0.0, S n)
      else
        match check_track_exists env original_title artist_name with
        | Returned (Some db_track, confidence) =>
            if Qle_bool 0.7 confidence then (Some db_track, confidence, S n)
            else find_by_artists env original_title others (S n)
        | Returned (None, _) | Raised => find_by_artists env original_title others (S n)
        end
  end.

Definition _find_track_in_plex (env : Environment) (spotify_track : MatchingEngine.SpotifyTrack)
                               (n : nat) : option MockPlexTrack.t * Q * nat :=
  match plex_client env with
  | None => (None, 0.0, n)
  | Some plex =>
      match is_connected plex with
      | Returned true =>
          find_by_artists env (MatchingEngine.name spotify_track)
                          (MatchingEngine.artists spotify_track) n
      | Returned false | Raised => (None, 0.0, n)
      end
  end.

(** The matching loop of [sync_playlist]: the results in order, or [None]
    when it finds the sync cancelled. *)
Fixpoint match_tracks (env : Environment) (tracks : list MatchingEngine.SpotifyTrack)
                      (n : nat) (match_results : list MatchResult.t)
  : option (list MatchResult.t) * nat :=
  match tracks with
  | [] => (Some match_results, n)
  | track :: others =>
      if cancelled env n then (None, S n)
      else
        let '(plex_match, confidence, n') := _find_track_in_plex env track (S n) in
        let match_result :=
          MatchResult.mk track plex_match confidence
            (match plex_match with Some _ => "robust_search" | None => "no_match" end) in
        match_tracks env others n' (match_results ++ [match_result])
  end.

(** [MusicMatchingEngine] defines no method [generate_download_query]: the
    call raises [AttributeError]. *)
Definition generate_download_query (spotify_track : MatchingEngine.SpotifyTrack)
  : outcome string := Raised.

(** [_download_missing_tracks]; an exception in the body of the loop is
    logged and the loop goes on. *)
Fixpoint _download_missing_tracks (env : Environment) (unmatched_tracks : list MatchResult.t)
                                  (downloaded_count : Z) : Z :=
  match unmatched_tracks with
  | [] => downloaded_count
  | match_result :: others =>
      match generate_download_query (MatchResult.spotify_track match_result) with
      | Returned query =>
          match search_and_download_best (backend env) (download_path env) (service env)
                                         query "flac" with
          | (Returned download_id, _, _) =>
              _download_missing_tracks env others
                (if truthy download_id then downloaded_count + 1 else downloaded_count)%Z
          | (Raised, _, _) => _download_missing_tracks env others downloaded_count
          end
      | Raised => _download_missing_tracks env others downloaded_count
      end
  end.

(** [[r.plex_track for r in matched_tracks if r.plex_track]]. *)
Definition plex_tracks_of (matched_tracks : list MatchResult.t) : list MockPlexTrack.t :=
  flat_map (fun r => match MatchResult.plex_track r with Some t => [t] | None => [] end)
           matched_tracks.

(** What a run of [sync_playlist] leaves: its result, the flags, and the
    tracks it handed to [update_playlist], if it came to that. *)
Record Run : Type := mkRun {
  result : SyncResult.t;
  flags : Flags;
  updated : option (list MockPlexTrack.t)
}.

(** The part of [sync_playlist] that follows the matching loop; [n] counts
    the readings of [_cancelled]. *)
Definition finish (env : Environment) (playlist : Playlist.t) (download_missing : bool)
                  (match_results : list MatchResult.t) (n : nat)
  : SyncResult.t * option (list MockPlexTrack.t) :=
  let name := Playlist.name playlist in
  let matched_tracks := filter MatchResult.is_match match_results in
  let unmatched_tracks := filter (fun r => negb (MatchResult.is_match r)) match_results in
  if cancelled env n then (_create_error_result name [sync_cancelled], None)
  else
    let download := download_missing && negb (Nat.eqb (List.length unmatched_tracks) 0) in
    if download && cancelled env (S n) then (_create_error_result name [sync_cancelled], None)
    else
      let downloaded_tracks :=
        if download then _download_missing_tracks env unmatched_tracks 0 else 0%Z in
      if cancelled env (if download then S (S n) else S n)
      then (_create_error_result name [sync_cancelled], None)
      else
        let plex_tracks := plex_tracks_of matched_tracks in
        match plex_client env with
        | None => (_create_error_result name [exception], None)
        | Some plex =>
            match update_playlist plex name plex_tracks with
            | Raised => (_create_error_result name [exception], Some plex_tracks)
            | Returned sync_success =>
                let total := Z.of_nat (List.length (Playlist.tracks playlist)) in
                let synced_tracks :=
                  if sync_success then Z.of_nat (List.length plex_tracks) else 0%Z in
                let failed_tracks := (total - synced_tracks - downloaded_tracks)%Z in
                (SyncResult.mk name total (Z.of_nat (List.length matched_tracks))
                               synced_tracks downloaded_tracks failed_tracks [],
                 Some plex_tracks)
            end
        end.

Definition sync_playlist (env : Environment) (state : Flags) (playlist : Playlist.t)
                         (download_missing : bool) : Run :=
  let name := Playlist.name playlist in
  if is_syncing state then
    mkRun (_create_error_result name [already_in_progress]) state None
  else
    let done := mkFlags false false in
    if cancelled env 0 then mkRun (_create_error_result name [sync_cancelled]) done None
    else
      match Playlist.tracks playlist with
      | [] => mkRun (_create_error_result name [no_tracks name]) done None
      | tracks =>
          if cancelled env 1 then mkRun (_create_error_result name [sync_cancelled]) done None
          else
            match match_tracks env tracks 2 [] with
            | (None, _) => mkRun (_create_error_result name [sync_cancelled]) done None
            | (Some match_results, n) =>
                let '(r, u) := finish env playlist download_missing match_results n in
                mkRun r done u
            end
      end.

End SyncService.

(* ================================================================== *)
(** * [src/ui/pages/sync.py]: [TrackDownloadWorker] *)
(* ================================================================== *)

Module TrackDownloadWorker.
Import SoulseekClient.

(** The text a [download_failed] signal carries. *)
Inductive message : Type :=
| no_search_results              (* "No search results found" *)
| exception_text.                (* [str(e)] of the exception that was caught *)

(** The signal a run emits. *)
Inductive signal : Type :=
| download_completed (download_index track_index : Z) (download_id : json)
| download_failed (download_index track_index : Z) (text : message).

(** The Soulseek client of the worker, with its two services. *)
Record Client : Type := mkClient {
  backend : Backend;
  download_path : string;
  service : Service
}.

(** The loop over the search queries; [n] counts the readings of
    [_cancelled], and the queries that were searched are collected, latest
    first.  The result is what the loop leaves in [download_id], [None] when
    the run returns from inside the loop, or that the search raised. *)
Fixpoint try_queries (cancelled : nat -> bool) (client : Client) (search_queries : list string)
                     (n : nat) (searched : list string)
  : outcome (option json) * list string :=
  match search_queries with
  | [] => (Returned (Some JNull), searched)
  | query :: others =>
      if cancelled n then (Returned None, searched)
      else
        match search_and_download_best (backend client) (download_path client) (service client)
                                       query "flac" with
        | (Returned download_id, _, _) =>
            if truthy download_id then (Returned (Some download_id), query :: searched)
            else try_queries cancelled client others (S n) (query :: searched)
        | (Raised, _, _) => (Raised, query :: searched)
        end
  end.

(** [run]: the signal emitted, if any, and the queries searched, in order. *)
Definition run (cancelled : nat -> bool) (soulseek_client : option Client)
               (spotify_track : MatchingEngine.SpotifyTrack) (download_index track_index : Z)
  : option signal * list string :=
  match soulseek_client with
  | None => (None, [])
  | Some client =>
      if cancelled 0 then (None, [])
      else
        let track_name := MatchingEngine.name spotify_track in
        let artist_name :=
          match MatchingEngine.artists spotify_track with
          | first :: _ => first
          | [] => EmptyString
          end in
        let search_queries :=
          track_name
          :: (if String.eqb artist_name "" then []
              else [(artist_name ++ " " ++ track_name)%string]) in
        match try_queries cancelled client search_queries 1 [] with
        | (Returned None, searched) => (None, rev searched)
        | (Returned (Some download_id), searched) =>
            (Some (if truthy download_id
                   then download_completed download_index track_index download_id
                   else download_failed download_index track_index no_search_results),
             rev searched)
        | (Raised, searched) =>
            (Some (download_failed download_index track_index exception_text), rev searched)
        end
  end.

End TrackDownloadWorker.

(* ================================================================== *)
(** * Models of the libraries, for the closed examples *)
(* ================================================================== *)

Module Library.

(** A few entries of the table of [unidecode]; a character that is not listed
    transliterates to nothing here. *)
Definition latin1_sample (c : ascii) : string :=
  let n := Text.code c in
  if (n =? 228)%N then "a"
  else if (n =? 231)%N then "c"
  else if (n =? 232)%N || (n =? 233)%N then "e"
  else if (n =? 241)%N then "n"
  else if (n =? 246)%N then "o"
  else if (n =? 252)%N then "u"
  else "".

(** [difflib.SequenceMatcher(None, a, b).ratio()], written after the
    library: the longest matching block, found row by row, extended on both
    sides, then the same to its left and to its right. *)

Fixpoint count_char (c : ascii) (b : list ascii) : nat :=
  match b with
  | [] => 0
  | x :: b' => (if Ascii.eqb x c then 1 else 0) + count_char c b'
  end.

(** With 200 characters or more in [b], those that make up more than one
    percent of it (plus one) are left out of the index [b2j]. *)
Definition popular (b : list ascii) (c : ascii) : bool :=
  Nat.leb 200 (List.length b)
  && Nat.ltb (List.length b / 100 + 1) (count_char c b).

(** One row of [find_longest_match]: for the character [ai] of [a], the
    lengths of the matches that end at each [j]; [prev] is the row before,
    moved one place to the right. *)
Fixpoint row (indexed : ascii -> bool) (ai : ascii) (blo bhi j : nat)
             (b : list ascii) (prev : list nat) : list nat :=
  match b with
  | [] => []
  | bj :: b' =>
      (if Nat.leb blo j && Nat.ltb j bhi && Ascii.eqb ai bj && indexed bj
       then S (hd 0 prev) else 0)
      :: row indexed ai blo bhi (S j) b' (tl prev)
  end.

Definition block : Type := (nat * nat * nat)%type.

Fixpoint scan_row (i j : nat) (r : list nat) (best : block) : block :=
  match r with
  | [] => best
  | k :: r' =>
      scan_row i (S j) r'
        (if Nat.ltb (snd best) k then (i + 1 - k, j + 1 - k, k) else best)
  end.

Fixpoint rows (indexed : ascii -> bool) (alo ahi blo bhi i : nat)
              (a b : list ascii) (prev : list nat) (best : block) : block :=
  match a with
  | [] => best
  | ai :: a' =>
      if Nat.leb alo i && Nat.ltb i ahi then
        let r := row indexed ai blo bhi 0 b (0 :: prev) in
        rows indexed alo ahi blo bhi (S i) a' b r (scan_row i 0 r best)
      else rows indexed alo ahi blo bhi (S i) a' b [] best
  end.

Definition zero : ascii := ascii_of_N 0.

Fixpoint extend_left (fuel : nat) (a b : list ascii) (alo blo : nat) (m : block) : block :=
  match fuel with
  | O => m
  | S fuel' =>
      let '(i, j, k) := m in
      if Nat.ltb alo i && Nat.ltb blo j && Ascii.eqb (nth (i - 1) a zero) (nth (j - 1) b zero)
      then extend_left fuel' a b alo blo (i - 1, j - 1, S k)
      else m
  end.

Fixpoint extend_right (fuel : nat) (a b : list ascii) (ahi bhi : nat) (m : block) : block :=
  match fuel with
  | O => m
  | S fuel' =>
      let '(i, j, k) := m in
      if Nat.ltb (i + k) ahi && Nat.ltb (j + k) bhi
         && Ascii.eqb (nth (i + k) a zero) (nth (j + k) b zero)
      then extend_right fuel' a b ahi bhi (i, j, S k)
      else m
  end.

Definition find_longest_match (a b : list ascii) (alo ahi blo bhi : nat) : block :=
  let indexed := fun c => negb (popular b c) in
  let m := rows indexed alo ahi blo bhi 0 a b [] (alo, blo, 0) in
  extend_right (List.length a) a b ahi bhi (extend_left (List.length a) a b alo blo m).

(** The sum of the sizes of the blocks of [get_matching_blocks]. *)
Fixpoint matches (fuel : nat) (a b : list ascii) (alo ahi blo bhi : nat) : nat :=
  match fuel with
  | O => 0
  | S fuel' =>
      let '(i, j, k) := find_longest_match a b alo ahi blo bhi in
      if Nat.eqb k 0 then 0
      else
        k
        + (if Nat.ltb alo i && Nat.ltb blo j then matches fuel' a b alo i blo j else 0)
        + (if Nat.ltb (i + k) ahi && Nat.ltb (j + k) bhi
           then matches fuel' a b (i + k) ahi (j + k) bhi else 0)
  end.

Definition ratio (a b : string) : Q :=
  let la := list_ascii_of_string a in
  let lb := list_ascii_of_string b in
  let length := (List.length la + List.length lb)%nat in
  if Nat.eqb length 0 then 1.0%Q
  else
    (inject_Z (2 * Z.of_nat (matches (S (List.length la)) la lb 0 (List.length la) 0 (List.length lb)))
     / inject_Z (Z.of_nat length))%Q.

(** [float(n)] on an integer. *)
Definition float_of_nat (n : nat) : float :=
  SF2Prim (binary_normalize prec emax (Z.of_nat n) 0 false).

(** The same ratio as the library computes it: [2.0 * matches / length]. *)
Definition ratio_binary64 (a b : string) : float :=
  let la := list_ascii_of_string a in
  let lb := list_ascii_of_string b in
  let length := (List.length la + List.length lb)%nat in
  if Nat.eqb length 0 then 1.0%float
  else
    (2.0 * float_of_nat (matches (S (List.length la)) la lb 0 (List.length la) 0 (List.length lb))
     / float_of_nat length)%float.

End Library.

(* ================================================================== *)
(** * Facts: the quality scores *)
(* ================================================================== *)

Module QualityFacts.

(** On the values a score takes, [<] and [<=] are the two halves of a total
    order (no value is a NaN): of two values, one is below the other. *)
Definition ordered (x y : float) : bool :=
  if (x <? y)%float then (x <=? y)%float else (y <=? x)%float.

(** The album the spec gives as an example: flac, ten tracks, a free slot,
    upload speed above 100. *)
Definition example_album : AlbumResult :=
  mkAlbumResult "peer" "Music/Album" "Album" None 10 0 [] "flac" None 1 101 0.

(** The spec's statement about the two scores, as it is written. *)
Definition album_score_uncapped : Prop :=
  (forall t : TrackResult, (SearchResult.quality_score t <=? 1.0)%float = true)
  /\ (exists a : AlbumResult, (1.0 <? AlbumResult.quality_score a)%float = true).

(** A track that differs from [t] in one field only. *)
Definition with_bitrate (t : TrackResult) (b : option Z) : TrackResult :=
  mkTrackResult (username t) (filename t) (size t) b (duration t) (quality t)
    (free_upload_slots t) (upload_speed t) (queue_length t)
    (artist t) (title t) (album t) (track_number t).

Definition with_peer (t : TrackResult) (slots speed queue : Z) : TrackResult :=
  mkTrackResult (username t) (filename t) (size t) (bitrate t) (duration t) (quality t)
    slots speed queue (artist t) (title t) (album t) (track_number t).

(** The adjustment for the bitrate, by tier: below 128, unknown or 128 to 255,
    256 to 319, 320 and more. *)
Definition tier_step (tier : nat) : float -> float :=
  match tier with
  | 0 => (fun x => x - 0.2)%float
  | 1 => fun x => x
  | 2 => (fun x => x + 0.1)%float
  | _ => (fun x => x + 0.2)%float
  end.

Definition bitrate_tier (b : option Z) : nat :=
  match b with
  | None => 1
  | Some b =>
      if (b =? 0)%Z then 1
      else if (b >=? 320)%Z then 3
      else if (b >=? 256)%Z then 2
      else if (b <? 128)%Z then 0
      else 1
  end.

(** The end of the property: the three tests on the peer, then the cap. *)
Definition peer_step (slots speed queue : bool) (x : float) : float :=
  Py.min_float
    (let x := if slots then (x + 0.1)%float else x in
     let x := if speed then (x + 0.05)%float else x in
     if queue then (x - 0.1)%float else x) 1.0%float.

Definition track_score (w : float) (tier : nat) (slots speed queue : bool) : float :=
  peer_step slots speed queue (tier_step tier w).

Definition tiers : list nat := [0; 1; 2; 3].
Definition flags : list bool := [false; true].

(** [x] implies [y], on booleans. *)
Definition implies (x y : bool) : bool := negb x || y.

(** The score does not go down when the tier or the peer gets better, checked
    on every combination. *)
Definition monotone_everywhere : bool :=
  forallb (fun w =>
    forallb (fun t1 => forallb (fun t2 =>
      forallb (fun s1 => forallb (fun s2 =>
        forallb (fun v1 => forallb (fun v2 =>
          forallb (fun q1 => forallb (fun q2 =>
            implies (Nat.leb t1 t2 && implies s1 s2 && implies v1 v2 && implies q2 q1)
                    (track_score w t1 s1 v1 q1 <=? track_score w t2 s2 v2 q2)%float)
          flags) flags) flags) flags) flags) flags) tiers) tiers) weight_values.

Lemma dict_get_in (V : Type) (d : list (string * V)) (k : string) (v : V) :
  In (Py.dict_get d k v) (v :: map snd d).
Proof.
  induction d as [|[k' v'] d IH]; simpl.
  - now left.
  - destruct (String.eqb k' k).
    + right; now left.
    + destruct IH as [IH|IH]; [now left | right; now right].
Qed.

Lemma either_in (f : float -> float) (b : bool) :
  In (fun x => if b then f x else x) (either f).
Proof. destruct b; simpl; auto. Qed.

(** Whatever the three tests on the peer say, the end of either property is
    one of [peer_steps]. *)
Lemma peer_step_in (slots speed queue : bool) :
  In (fun x =>
        Py.min_float
          (let x := if slots then (x + 0.1)%float else x in
           let x := if speed then (x + 0.05)%float else x in
           if queue then (x - 0.1)%float else x) 1.0%float)
     peer_steps.
Proof.
  unfold peer_steps.
  apply in_flat_map. exists (fun x => if slots then (x + 0.1)%float else x).
  split; [apply (either_in (fun x => (x + 0.1)%float)) |].
  apply in_flat_map. exists (fun x => if speed then (x + 0.05)%float else x).
  split; [apply (either_in (fun x => (x + 0.05)%float)) |].
  apply in_map_iff. exists (fun x => if queue then (x - 0.1)%float else x).
  split; [reflexivity | apply (either_in (fun x => (x - 0.1)%float))].
Qed.

Lemma score_value_in (steps : list (float -> float)) (w : float) (f g : float -> float) :
  In w weight_values -> In f steps -> In g peer_steps -> In (g (f w)) (score_values steps).
Proof.
  intros Hw Hf Hg. unfold score_values.
  apply in_flat_map. exists w. split; [exact Hw |].
  apply in_flat_map. exists f. split; [exact Hf |].
  apply in_map_iff. exists g. split; [reflexivity | exact Hg].
Qed.

Lemma track_score_in (t : TrackResult) : In (SearchResult.quality_score t) track_scores.
Proof.
  unfold SearchResult.quality_score, track_scores.
  set (w := Py.dict_get quality_weights (Text.lower (quality t)) 0.3%float).
  assert (Hw : In w weight_values) by apply dict_get_in.
  set (f := fun x : float =>
              if Py.truthy_int (bitrate t) then
                match bitrate t with
                | Some b =>
                    if (b >=? 320)%Z then (x + 0.2)%float
                    else if (b >=? 256)%Z then (x + 0.1)%float
                    else if (b <? 128)%Z then (x - 0.2)%float
                    else x
                | None => x
                end
              else x).
  assert (Hf : In f bitrate_steps).
  { unfold f, bitrate_steps.
    destruct (Py.truthy_int (bitrate t)); [| simpl; tauto].
    destruct (bitrate t) as [b|]; [| simpl; tauto].
    destruct (b >=? 320)%Z; [simpl; tauto |].
    destruct (b >=? 256)%Z; [simpl; tauto |].
    destruct (b <? 128)%Z; simpl; tauto. }
  exact (@score_value_in bitrate_steps w f _ Hw Hf
           (peer_step_in (free_upload_slots t >? 0)%Z (upload_speed t >? 100)%Z
                         (queue_length t >? 10)%Z)).
Qed.

Lemma album_score_in (a : AlbumResult) : In (AlbumResult.quality_score a) album_scores.
Proof.
  unfold AlbumResult.quality_score, album_scores.
  set (w := Py.dict_get quality_weights (Text.lower (dominant_quality a)) 0.3%float).
  assert (Hw : In w weight_values) by apply dict_get_in.
  set (f := fun x : float =>
              if ((8 <=? track_count a) && (track_count a <=? 20))%Z then (x + 0.1)%float
              else if (track_count a >? 20)%Z then (x + 0.05)%float
              else x).
  assert (Hf : In f count_steps).
  { unfold f, count_steps.
    destruct ((8 <=? track_count a) && (track_count a <=? 20))%Z; [simpl; tauto |].
    destruct (track_count a >? 20)%Z; simpl; tauto. }
  exact (@score_value_in count_steps w f _ Hw Hf
           (peer_step_in (album_free_upload_slots a >? 0)%Z (album_upload_speed a >? 100)%Z
                         (album_queue_length a >? 10)%Z)).
Qed.

(** A property checked on every value of a finite list holds of each. *)
Lemma checked_on_all (p : float -> bool) (l : list float) (x : float) :
  forallb p l = true -> In x l -> p x = true.
Proof. intros H Hin. exact (proj1 (forallb_forall p l) H x Hin). Qed.

Lemma checked_on_pairs (p : float -> float -> bool) (l1 l2 : list float) (x y : float) :
  forallb (fun a => forallb (p a) l2) l1 = true -> In x l1 -> In y l2 -> p x y = true.
Proof.
  intros H Hx Hy.
  pose proof (proj1 (forallb_forall _ l1) H x Hx) as Hrow.
  exact (proj1 (forallb_forall _ l2) Hrow y Hy).
Qed.

Lemma track_scores_capped : forallb (fun x => (x <=? 1.0)%float) track_scores = true.
Proof. vm_compute. reflexivity. Qed.

Lemma album_scores_capped : forallb (fun x => (x <=? 1.0)%float) album_scores = true.
Proof. vm_compute. reflexivity. Qed.

Lemma album_scores_not_above : forallb (fun x => negb (1.0 <? x)%float) album_scores = true.
Proof. vm_compute. reflexivity. Qed.

Lemma track_scores_ordered :
  forallb (fun x => forallb (ordered x) track_scores) track_scores = true.
Proof. vm_compute. reflexivity. Qed.

Lemma album_scores_ordered :
  forallb (fun x => forallb (ordered x) album_scores) album_scores = true.
Proof. vm_compute. reflexivity. Qed.

Lemma track_score_ordered (x y : TrackResult) :
  ordered (SearchResult.quality_score x) (SearchResult.quality_score y) = true.
Proof.
  exact (checked_on_pairs ordered _ _ _ _ track_scores_ordered
           (track_score_in x) (track_score_in y)).
Qed.

Lemma album_score_ordered (x y : AlbumResult) :
  ordered (AlbumResult.quality_score x) (AlbumResult.quality_score y) = true.
Proof.
  exact (checked_on_pairs ordered _ _ _ _ album_scores_ordered
           (album_score_in x) (album_score_in y)).
Qed.

(** C1, as amended: both scores are capped.  For every [TrackResult] and for
    every [AlbumResult] the returned [quality_score] is at most 1.0, and the
    album of the spec's example scores exactly 1.0. *)
Theorem quality_scores_capped :
  (forall t : TrackResult, (SearchResult.quality_score t <=? 1.0)%float = true)
  /\ (forall a : AlbumResult, (AlbumResult.quality_score a <=? 1.0)%float = true)
  /\ AlbumResult.quality_score example_album = 1.0%float.
Proof.
  split; [| split].
  - intros t. exact (@checked_on_all _ _ _ track_scores_capped (track_score_in t)).
  - intros a. exact (@checked_on_all _ _ _ album_scores_capped (album_score_in a)).
  - vm_compute. reflexivity.
Qed.

(** C1, as stated, fails: no album scores above 1.0. *)
Lemma album_score_uncapped_fails : ~ album_score_uncapped.
Proof.
  intros [_ [a Ha]].
  pose proof (@checked_on_all _ _ _ album_scores_not_above (album_score_in a)) as Hno.
  simpl in Hno. rewrite Ha in Hno. discriminate.
Qed.

(** ** Better tracks do not score less *)

Lemma monotone_checked : monotone_everywhere = true.
Proof. vm_compute. reflexivity. Qed.

Lemma quality_score_tiers (t : TrackResult) :
  SearchResult.quality_score t
  = track_score (Py.dict_get quality_weights (Text.lower (quality t)) 0.3%float)
                (bitrate_tier (bitrate t))
                (free_upload_slots t >? 0)%Z (upload_speed t >? 100)%Z (queue_length t >? 10)%Z.
Proof.
  unfold SearchResult.quality_score, track_score, peer_step, bitrate_tier, Py.truthy_int.
  destruct (bitrate t) as [b |]; [| reflexivity].
  destruct (b =? 0)%Z; [reflexivity |]. cbn [negb].
  destruct (b >=? 320)%Z; [reflexivity |].
  destruct (b >=? 256)%Z; [reflexivity |].
  destruct (b <? 128)%Z; reflexivity.
Qed.

Lemma tier_in (b : option Z) : In (bitrate_tier b) tiers.
Proof.
  unfold bitrate_tier, tiers. destruct b as [b |]; [| simpl; tauto].
  destruct (b =? 0)%Z; [simpl; tauto |].
  destruct (b >=? 320)%Z; [simpl; tauto |].
  destruct (b >=? 256)%Z; [simpl; tauto |].
  destruct (b <? 128)%Z; simpl; tauto.
Qed.

Lemma flag_in (b : bool) : In b flags.
Proof. destruct b; simpl; tauto. Qed.

Lemma track_score_monotone (w : float) (t1 t2 : nat) (s1 s2 v1 v2 q1 q2 : bool) :
  In w weight_values -> In t1 tiers -> In t2 tiers ->
  t1 <= t2 -> implies s1 s2 = true -> implies v1 v2 = true -> implies q2 q1 = true ->
  (track_score w t1 s1 v1 q1 <=? track_score w t2 s2 v2 q2)%float = true.
Proof.
  intros Hw H1 H2 Ht Hs Hv Hq.
  pose proof monotone_checked as H. unfold monotone_everywhere in H.
  pose proof (proj1 (forallb_forall _ _) H w Hw) as A. cbv beta in A.
  pose proof (proj1 (forallb_forall _ _) A t1 H1) as B. cbv beta in B.
  pose proof (proj1 (forallb_forall _ _) B t2 H2) as C. cbv beta in C.
  pose proof (proj1 (forallb_forall _ _) C s1 (flag_in s1)) as D. cbv beta in D.
  pose proof (proj1 (forallb_forall _ _) D s2 (flag_in s2)) as E. cbv beta in E.
  pose proof (proj1 (forallb_forall _ _) E v1 (flag_in v1)) as F. cbv beta in F.
  pose proof (proj1 (forallb_forall _ _) F v2 (flag_in v2)) as G. cbv beta in G.
  pose proof (proj1 (forallb_forall _ _) G q1 (flag_in q1)) as I. cbv beta in I.
  pose proof (proj1 (forallb_forall _ _) I q2 (flag_in q2)) as J. cbv beta in J.
  apply Nat.leb_le in Ht. rewrite Ht, Hs, Hv, Hq in J. exact J.
Qed.

Lemma gtb_implies (a b c : Z) : (a <= b)%Z -> implies (a >? c)%Z (b >? c)%Z = true.
Proof.
  intros H. unfold implies. destruct (a >? c)%Z eqn:E; [| reflexivity].
  simpl. rewrite Z.gtb_ltb in *. apply Z.ltb_lt in E. apply Z.ltb_lt. lia.
Qed.

Lemma tier_monotone (b b' : Z) :
  b <> 0%Z -> b' <> 0%Z -> (b <= b')%Z -> bitrate_tier (Some b) <= bitrate_tier (Some b').
Proof.
  intros H0 H0' Hle. unfold bitrate_tier.
  apply Z.eqb_neq in H0. apply Z.eqb_neq in H0'. rewrite H0, H0'.
  destruct (b >=? 320)%Z eqn:E1; destruct (b' >=? 320)%Z eqn:E1';
  destruct (b >=? 256)%Z eqn:E2; destruct (b' >=? 256)%Z eqn:E2';
  destruct (b <? 128)%Z eqn:E3; destruct (b' <? 128)%Z eqn:E3'; try lia;
  rewrite ?Z.geb_leb in *;
  repeat match goal with
         | H : (_ <=? _)%Z = true |- _ => apply Z.leb_le in H
         | H : (_ <=? _)%Z = false |- _ => apply Z.leb_gt in H
         | H : (_ <? _)%Z = true |- _ => apply Z.ltb_lt in H
         | H : (_ <? _)%Z = false |- _ => apply Z.ltb_ge in H
         end; lia.
Qed.

(** The score of a track does not go down when its bitrate goes up (a bitrate
    of 0 set apart), when its peer has more free upload slots or a higher
    upload speed, or when the queue of its peer gets shorter.  An unknown
    bitrate, absent or 0, is not penalised: it scores as 128 to 255 does, and
    no less than any bitrate below 128. *)
Theorem quality_score_monotone (t : TrackResult) :
  (forall b b', b <> 0%Z -> b' <> 0%Z -> (b <= b')%Z ->
     (SearchResult.quality_score (with_bitrate t (Some b))
      <=? SearchResult.quality_score (with_bitrate t (Some b')))%float = true)
  /\ (forall b, (b < 128)%Z ->
        (SearchResult.quality_score (with_bitrate t (Some b))
         <=? SearchResult.quality_score (with_bitrate t None))%float = true)
  /\ SearchResult.quality_score (with_bitrate t (Some 0%Z))
     = SearchResult.quality_score (with_bitrate t None)
  /\ (forall slots slots' speed speed' queue queue',
        (slots <= slots')%Z -> (speed <= speed')%Z -> (queue' <= queue)%Z ->
        (SearchResult.quality_score (with_peer t slots speed queue)
         <=? SearchResult.quality_score (with_peer t slots' speed' queue'))%float = true).
Proof.
  assert (Hw : In (Py.dict_get quality_weights (Text.lower (quality t)) 0.3%float) weight_values)
    by apply dict_get_in.
  split; [| split; [| split]].
  - intros b b' H0 H0' Hle. rewrite !quality_score_tiers. cbn [with_bitrate bitrate quality
      free_upload_slots upload_speed queue_length].
    apply track_score_monotone; try apply tier_in; try exact Hw.
    + exact (tier_monotone b b' H0 H0' Hle).
    + apply gtb_implies. lia.
    + apply gtb_implies. lia.
    + apply gtb_implies. lia.
  - intros b Hb. rewrite !quality_score_tiers. cbn [with_bitrate bitrate quality
      free_upload_slots upload_speed queue_length].
    apply track_score_monotone; try apply tier_in; try exact Hw.
    + unfold bitrate_tier. destruct (b =? 0)%Z; [lia |].
      rewrite !Z.geb_leb.
      destruct (320 <=? b)%Z eqn:E1; [apply Z.leb_le in E1; lia |].
      destruct (256 <=? b)%Z eqn:E2; [apply Z.leb_le in E2; lia |].
      apply Z.ltb_lt in Hb. rewrite Hb. lia.
    + apply gtb_implies. lia.
    + apply gtb_implies. lia.
    + apply gtb_implies. lia.
  - rewrite !quality_score_tiers. reflexivity.
  - intros slots slots' speed speed' queue queue' Hs Hv Hq. rewrite !quality_score_tiers.
    cbn [with_peer bitrate quality free_upload_slots upload_speed queue_length].
    apply track_score_monotone; try apply tier_in; try exact Hw.
    + lia.
    + apply gtb_implies. exact Hs.
    + apply gtb_implies. exact Hv.
    + apply gtb_implies. exact Hq.
Qed.

End QualityFacts.

(* ================================================================== *)
(** * Facts: the matching engine *)
(* ================================================================== *)

Module MatchingFacts.
Import Text Re MatchingEngine.
Local Open Scope Q_scope.

(** The inputs of the closed examples. *)
Definition queen_remastered : SpotifyTrack :=
  mkSpotifyTrack "spotify:1" "Bohemian Rhapsody - Remastered 2011" ["Queen"%string] 355000.

Definition queen_plex : PlexTrackInfo :=
  mkPlexTrackInfo "plex:1" "Bohemian Rhapsody" "Queen" (Some 354000%Z).

(** A source track and a candidate that have nothing in common: the
    candidate has neither title nor artist, and its duration is twice as
    long. *)
Definition unrelated_source : SpotifyTrack :=
  mkSpotifyTrack "spotify:2" "abc" ["q"%string] 100000.

Definition unrelated_candidate : PlexTrackInfo :=
  mkPlexTrackInfo "plex:2" "" "" (Some 200000%Z).

(** A source track and two candidates by the same artist.  The first has
    four characters of the title out of five and no duration, the second
    three out of five and the same duration: the title, artist and duration
    scores are 0.8, 1.0, 0.5 and 0.6, 1.0, 1.0. *)
Definition close_source : SpotifyTrack :=
  mkSpotifyTrack "spotify:3" "abcde" ["Queen"%string] 200000.

Definition close_first : PlexTrackInfo :=
  mkPlexTrackInfo "plex:3" "abcdx" "Queen" None.

Definition close_second : PlexTrackInfo :=
  mkPlexTrackInfo "plex:4" "abcxy" "Queen" (Some 200000%Z).

(** [\s*and.*], the fifth of [artist_patterns]. *)
Definition and_pattern : regex := [sp] ++ lit "and" ++ [rest].

(** A similarity that only tells equal texts from different ones. *)
Definition same_or_not (a b : string) : Q := if String.eqb a b then 1 else 0.

(** An artist whose name starts with "And", and a candidate by someone
    else. *)
Definition andrea : SpotifyTrack :=
  mkSpotifyTrack "spotify:3" "Con te partiro" ["Andrea Bocelli"%string] 250000.

Definition metallica : PlexTrackInfo :=
  mkPlexTrackInfo "plex:3" "Enter Sandman" "Metallica" (Some 331000%Z).

Lemma gt_true (a b : Q) : gt a b = true <-> b < a.
Proof.
  unfold gt. destruct (Qlt_le_dec b a) as [H|H]; split; intros; try easy.
  exfalso. exact (Qlt_not_le _ _ H0 H).
Qed.

Lemma gt_false (a b : Q) : gt a b = false <-> a <= b.
Proof.
  unfold gt. destruct (Qlt_le_dec b a) as [H|H]; split; intros; try easy.
  exfalso. exact (Qlt_not_le _ _ H H0).
Qed.

Lemma max_Q_right (a b : Q) : b <= Py.max_Q a b.
Proof.
  unfold Py.max_Q. destruct (Qlt_le_dec a b); [apply Qle_refl | assumption].
Qed.

Lemma max_Q_left (a b : Q) : a <= Py.max_Q a b.
Proof.
  unfold Py.max_Q. destruct (Qlt_le_dec a b); [now apply Qlt_le_weak | apply Qle_refl].
Qed.

(** ** Tiers *)

Section Tiers.

Variables title_score artist_score duration_score : Q.
Variable titles_equal : bool.

Let perfect : Prop := 0.95 < title_score /\ 0.9 < artist_score /\ 0.9 < duration_score.
Let high : Prop := 0.85 < title_score /\ 0.8 < artist_score.
Let outcome : Q * MatchType :=
  boost_and_tier titles_equal title_score artist_score duration_score.

Lemma tier_perfect : perfect -> snd outcome = perfect_match /\ 0.98 <= fst outcome.
Proof.
  intros (Ht & Ha & Hd). unfold outcome, boost_and_tier.
  rewrite (proj2 (gt_true _ _) Ht), (proj2 (gt_true _ _) Ha), (proj2 (gt_true _ _) Hd).
  simpl. split; [reflexivity | apply max_Q_right].
Qed.

Lemma tier_not_perfect : ~ perfect -> snd outcome <> perfect_match.
Proof.
  intros Hn. unfold outcome, boost_and_tier.
  destruct (gt title_score 0.95) eqn:Ht; destruct (gt artist_score 0.9) eqn:Ha;
    destruct (gt duration_score 0.9) eqn:Hd; simpl;
    try (destruct (gt title_score 0.85 && gt artist_score 0.8);
         [discriminate | destruct (gt title_score 0.75); discriminate]).
  exfalso. apply Hn. repeat split; now apply gt_true.
Qed.

Lemma tier_after_perfect :
  ~ perfect ->
  outcome =
    (let confidence := title_score * 0.5 + artist_score * 0.3 + duration_score * 0.2 in
     if titles_equal then Py.max_Q confidence 0.85 else confidence,
     if gt title_score 0.85 && gt artist_score 0.8 then high_confidence
     else if gt title_score 0.75 then medium_confidence
     else low_confidence).
Proof.
  intros Hn. unfold outcome, boost_and_tier.
  destruct (gt title_score 0.95 && gt artist_score 0.9 && gt duration_score 0.9) eqn:E.
  - exfalso. apply Hn. apply andb_true_iff in E as [E Hd]. apply andb_true_iff in E as [Ht Ha].
    repeat split; now apply gt_true.
  - destruct (gt title_score 0.85 && gt artist_score 0.8); [reflexivity |].
    destruct (gt title_score 0.75); reflexivity.
Qed.

Lemma tier_high : ~ perfect -> high -> snd outcome = high_confidence.
Proof.
  intros Hn (Ht & Ha). rewrite (tier_after_perfect Hn). simpl.
  now rewrite (proj2 (gt_true _ _) Ht), (proj2 (gt_true _ _) Ha).
Qed.

Lemma tier_medium : ~ perfect -> ~ high -> 0.75 < title_score -> snd outcome = medium_confidence.
Proof.
  intros Hn Hh Ht. rewrite (tier_after_perfect Hn). simpl.
  destruct (gt title_score 0.85 && gt artist_score 0.8) eqn:E.
  - exfalso. apply Hh. apply andb_true_iff in E as [E1 E2]. split; now apply gt_true.
  - now rewrite (proj2 (gt_true _ _) Ht).
Qed.

Lemma tier_low : ~ 0.75 < title_score -> snd outcome = low_confidence.
Proof.
  intros Ht.
  assert (Hn : ~ perfect).
  { intros (H & _). apply Ht. eapply Qlt_trans; [| exact H]. reflexivity. }
  rewrite (tier_after_perfect Hn). simpl.
  destruct (gt title_score 0.85) eqn:E.
  - exfalso. apply Ht. apply gt_true in E. eapply Qlt_trans; [| exact E]. reflexivity.
  - simpl. destruct (gt title_score 0.75) eqn:E'; [| reflexivity].
    exfalso. apply Ht. now apply gt_true.
Qed.

Lemma tier_boundary :
  title_score == 0.95 \/ artist_score == 0.9 \/ duration_score == 0.9 ->
  snd outcome <> perfect_match.
Proof.
  intros H. apply tier_not_perfect. intros (Ht & Ha & Hd).
  destruct H as [H | [H | H]]; rewrite H in *;
    [exact (Qlt_irrefl _ Ht) | exact (Qlt_irrefl _ Ha) | exact (Qlt_irrefl _ Hd)].
Qed.

End Tiers.

(** [calculate_match_confidence] in terms of the three scores. *)
Lemma confidence_unfold
    (table : ascii -> string) (ratio : string -> string -> Q)
    (s : SpotifyTrack) (p : PlexTrackInfo) :
  calculate_match_confidence table ratio s p =
  boost_and_tier
    (String.eqb (clean_title table (name s)) (clean_title table (title p))
     && Nat.ltb 0 (String.length (clean_title table (name s))))
    (title_score_of table ratio s p) (artist_score_of table ratio s p)
    (duration_score_of s p).
Proof. unfold calculate_match_confidence, title_score_of. reflexivity. Qed.

(** C6: the tier is assigned by strict comparisons checked in order, first
    match wins.  [title_score > 0.95], [artist_score > 0.9] and
    [duration_score > 0.9] give "perfect_match" and a confidence of at least
    0.98; else [title_score > 0.85] and [artist_score > 0.8] give
    "high_confidence"; else [title_score > 0.75] gives "medium_confidence";
    else "low_confidence".  A title score of exactly 0.95, an artist score of
    exactly 0.9 or a duration score of exactly 0.9 does not give
    "perfect_match". *)
Theorem tiers_by_strict_comparison
    (table : ascii -> string) (ratio : string -> string -> Q)
    (s : SpotifyTrack) (p : PlexTrackInfo) :
  let title_score := title_score_of table ratio s p in
  let artist_score := artist_score_of table ratio s p in
  let duration_score := duration_score_of s p in
  let perfect := 0.95 < title_score /\ 0.9 < artist_score /\ 0.9 < duration_score in
  let high := 0.85 < title_score /\ 0.8 < artist_score in
  let outcome := calculate_match_confidence table ratio s p in
  (perfect -> snd outcome = perfect_match /\ 0.98 <= fst outcome)
  /\ (~ perfect -> high -> snd outcome = high_confidence)
  /\ (~ perfect -> ~ high -> 0.75 < title_score -> snd outcome = medium_confidence)
  /\ (~ 0.75 < title_score -> snd outcome = low_confidence)
  /\ (title_score == 0.95 \/ artist_score == 0.9 \/ duration_score == 0.9 ->
      snd outcome <> perfect_match).
Proof.
  cbv zeta. rewrite confidence_unfold.
  generalize (title_score_of table ratio s p) as ts.
  generalize (artist_score_of table ratio s p) as ars.
  generalize (duration_score_of s p) as ds.
  generalize (String.eqb (clean_title table (name s)) (clean_title table (title p))
     && Nat.ltb 0 (String.length (clean_title table (name s)))) as teq.
  intros teq ds ars ts.
  split; [exact (tier_perfect ts ars ds teq) |].
  split; [exact (tier_high ts ars ds teq) |].
  split; [exact (tier_medium ts ars ds teq) |].
  split; [exact (tier_low ts ars ds teq) | exact (tier_boundary ts ars ds teq)].
Qed.

(** ** The boost for equal titles *)

Lemma boosted_at_least (title_score artist_score duration_score : Q) :
  0.85 <= fst (boost_and_tier true title_score artist_score duration_score).
Proof.
  unfold boost_and_tier.
  set (c := title_score * 0.5 + artist_score * 0.3 + duration_score * 0.2).
  destruct (gt title_score 0.95 && gt artist_score 0.9 && gt duration_score 0.9).
  - simpl. eapply Qle_trans; [| apply max_Q_left]. apply max_Q_right.
  - destruct (gt title_score 0.85 && gt artist_score 0.8); [apply max_Q_right |].
    destruct (gt title_score 0.75); apply max_Q_right.
Qed.

Lemma nonempty_length (x : string) : x <> EmptyString -> Nat.ltb 0 (String.length x) = true.
Proof. destruct x; [intros H; now elim H | reflexivity]. Qed.

Lemma titles_equal_flag (a b : string) :
  a = b -> a <> EmptyString -> String.eqb a b && Nat.ltb 0 (String.length a) = true.
Proof.
  intros <- Hne. rewrite String.eqb_refl. exact (nonempty_length a Hne).
Qed.

(** C7: when the cleaned titles are identical and not empty, the confidence
    is at least 0.85, whatever the artist and duration scores. *)
Theorem exact_title_boost
    (table : ascii -> string) (ratio : string -> string -> Q)
    (s : SpotifyTrack) (p : PlexTrackInfo) :
  clean_title table (name s) = clean_title table (title p) ->
  clean_title table (name s) <> EmptyString ->
  0.85 <= fst (calculate_match_confidence table ratio s p).
Proof.
  intros Heq Hne. rewrite confidence_unfold.
  rewrite (titles_equal_flag _ _ Heq Hne). apply boosted_at_least.
Qed.

Lemma exact_title_boost_witness :
  clean_title Library.latin1_sample (name queen_remastered)
    = clean_title Library.latin1_sample (title queen_plex)
  /\ clean_title Library.latin1_sample (name queen_remastered) <> EmptyString
  /\ 0.85 <= fst (calculate_match_confidence Library.latin1_sample Library.ratio
                    queen_remastered queen_plex).
Proof.
  assert (H1 : clean_title Library.latin1_sample (name queen_remastered)
               = clean_title Library.latin1_sample (title queen_plex))
    by (vm_compute; reflexivity).
  assert (H2 : clean_title Library.latin1_sample (name queen_remastered) <> EmptyString)
    by (vm_compute; discriminate).
  split; [exact H1 | split; [exact H2 |]].
  exact (exact_title_boost Library.latin1_sample Library.ratio queen_remastered queen_plex H1 H2).
Defined.

(** ** [find_best_match] *)

(** The loop of [find_best_match] over an arbitrary scoring of the
    candidates. *)
Section RunningBest.

Variable conf : PlexTrackInfo -> Q.
Variable tier : PlexTrackInfo -> MatchType.

Definition keep_best (st : best_state) (x : PlexTrackInfo) : best_state :=
  if gt (conf x) (snd (fst st)) then (Some x, conf x, tier x) else st.

(** Either nothing in the list scores above the bound, or something does. *)
Lemma above_or_not (l : list PlexTrackInfo) (bound : Q) :
  (forall x, In x l -> conf x <= bound) \/ (exists x, In x l /\ bound < conf x).
Proof.
  induction l as [|y l [IH | [x [Hin Hx]]]].
  - left. intros x [].
  - destruct (Qlt_le_dec bound (conf y)) as [Hy | Hy].
    + right. exists y. split; [left; reflexivity | exact Hy].
    + left. intros x [<- | Hin]; [exact Hy | exact (IH x Hin)].
  - right. exists x. split; [right; exact Hin | exact Hx].
Qed.

(** No candidate beats the running best: the state is left as it is. *)
Lemma fold_none_better (l : list PlexTrackInfo) (st : best_state) :
  (forall x, In x l -> conf x <= snd (fst st)) ->
  fold_left keep_best l st = st.
Proof.
  revert st. induction l as [|x l IH]; intros st H; simpl; [reflexivity |].
  unfold keep_best at 2.
  rewrite (proj2 (gt_false _ _) (H x (or_introl eq_refl))).
  apply IH. intros y Hy. apply H. right. exact Hy.
Qed.

(** Some candidate beats the running best: the state ends on the first
    candidate of greatest confidence. *)
Lemma fold_some_better (l : list PlexTrackInfo) (st : best_state) :
  (exists x, In x l /\ snd (fst st) < conf x) ->
  exists pre c post,
    l = pre ++ c :: post
    /\ fold_left keep_best l st = (Some c, conf c, tier c)
    /\ snd (fst st) < conf c
    /\ (forall x, In x pre -> conf x < conf c)
    /\ (forall x, In x post -> conf x <= conf c).
Proof.
  revert st. induction l as [|y l IH]; intros st [x [Hin Hx]]; [destruct Hin |].
  simpl. unfold keep_best at 2.
  destruct (gt (conf y) (snd (fst st))) eqn:Hy.
  - (* [y] becomes the running best *)
    apply gt_true in Hy.
    destruct (above_or_not l (conf y)) as [Hall | Hex].
    + exists [], y, l.
      split; [reflexivity |].
      split; [exact (fold_none_better l (Some y, conf y, tier y) Hall) |].
      split; [exact Hy |].
      split; [intros z [] | exact Hall].
    + destruct (IH (Some y, conf y, tier y) Hex) as (pre & c & post & -> & Hf & Hc & Hpre & Hpost).
      exists (y :: pre), c, post.
      split; [reflexivity |].
      split; [exact Hf |].
      split; [exact (Qlt_trans _ _ _ Hy Hc) |].
      split; [| exact Hpost].
      intros z [<- | Hz]; [exact Hc | exact (Hpre z Hz)].
  - (* [y] does not beat the running best *)
    apply gt_false in Hy.
    destruct Hin as [-> | Hin]; [exfalso; exact (Qlt_not_le _ _ Hx Hy) |].
    destruct (IH st (ex_intro _ x (conj Hin Hx))) as (pre & c & post & -> & Hf & Hc & Hpre & Hpost).
    exists (y :: pre), c, post.
    split; [reflexivity |].
    split; [exact Hf |].
    split; [exact Hc |].
    split; [| exact Hpost].
    intros z [<- | Hz]; [exact (Qle_lt_trans _ _ _ Hy Hc) | exact (Hpre z Hz)].
Qed.

End RunningBest.

Lemma fold_left_ext (A B : Type) (f g : A -> B -> A) (l : list B) (a : A) :
  (forall a b, f a b = g a b) -> fold_left f l a = fold_left g l a.
Proof.
  intros H. revert a. induction l as [|b l IH]; intros a; simpl; [reflexivity |].
  rewrite H. apply IH.
Qed.

Lemma consider_step
    (table : ascii -> string) (ratio : string -> string -> Q) (s : SpotifyTrack)
    (st : best_state) (x : PlexTrackInfo) :
  consider table ratio s st x =
  keep_best (fun x => fst (calculate_match_confidence table ratio s x))
            (fun x => snd (calculate_match_confidence table ratio s x)) st x.
Proof.
  unfold consider, keep_best. destruct st as [[bm bc] bt].
  generalize (calculate_match_confidence table ratio s x). intros [c t]. reflexivity.
Qed.

(** ** The order of binary64 *)

Ltac order_cases :=
  repeat match goal with
  | H : context [Z.compare ?a ?b] |- _ =>
      destruct (Z.compare_spec a b); subst; rewrite ?Z.compare_refl in *
  | |- context [Z.compare ?a ?b] =>
      destruct (Z.compare_spec a b); subst; rewrite ?Z.compare_refl in *
  | H : context [Pos.compare ?a ?b] |- _ =>
      destruct (Pos.compare_spec a b); subst; rewrite ?Pos.compare_refl in *
  | |- context [Pos.compare ?a ?b] =>
      destruct (Pos.compare_spec a b); subst; rewrite ?Pos.compare_refl in *
  end;
  cbn in *; try discriminate; try reflexivity; try lia.

Lemma SF_lt_le_trans (a b c : spec_float) :
  SFltb a b = true -> SFleb b c = true -> SFltb a c = true.
Proof.
  unfold SFltb, SFleb, SFcompare.
  change (Pos.compare_cont Eq) with Pos.compare.
  destruct a as [sa | sa | | sa ma ea], b as [sb | sb | | sb mb eb], c as [sc | sc | | sc mc ec];
    try destruct sa; try destruct sb; try destruct sc; cbn; try discriminate; try reflexivity;
    intros H1 H2; order_cases.
Qed.

Lemma SF_lt_not_ge (a b : spec_float) : SFltb a b = true -> SFleb b a = false.
Proof.
  unfold SFltb, SFleb, SFcompare.
  change (Pos.compare_cont Eq) with Pos.compare.
  destruct a as [sa | sa | | sa ma ea], b as [sb | sb | | sb mb eb];
    try destruct sa; try destruct sb; cbn; try discriminate; try reflexivity;
    intros H1; order_cases.
Qed.

Lemma SF_not_ge_lt (a b : spec_float) :
  SFeqb a a = true -> SFeqb b b = true -> SFleb b a = false -> SFltb a b = true.
Proof.
  unfold SFltb, SFleb, SFeqb, SFcompare.
  change (Pos.compare_cont Eq) with Pos.compare.
  destruct a as [sa | sa | | sa ma ea], b as [sb | sb | | sb mb eb];
    try destruct sa; try destruct sb; cbn; try discriminate; try reflexivity;
    intros _ _ H1; order_cases.
Qed.

Lemma float_lt_le_trans (a b c : float) :
  (a <? b)%float = true -> (b <=? c)%float = true -> (a <? c)%float = true.
Proof. rewrite !ltb_spec, leb_spec. apply SF_lt_le_trans. Qed.

Lemma float_lt_not_ge (a b : float) : (a <? b)%float = true -> (b <=? a)%float = false.
Proof. rewrite ltb_spec, leb_spec. apply SF_lt_not_ge. Qed.

Lemma float_lt_le (a b : float) : (a <? b)%float = true -> (a <=? b)%float = true.
Proof.
  rewrite ltb_spec, leb_spec. unfold SFltb, SFleb.
  destruct (SFcompare (Prim2SF a) (Prim2SF b)) as [[| |] |]; try discriminate; reflexivity.
Qed.

(** Between two numbers, "not as much" is "less". *)
Lemma float_not_ge_lt (a b : float) :
  is_nan a = false -> is_nan b = false -> (b <=? a)%float = false -> (a <? b)%float = true.
Proof.
  unfold is_nan. rewrite !negb_false_iff, !eqb_spec, ltb_spec, leb_spec. apply SF_not_ge_lt.
Qed.

(** ** The loop of [find_best_match] on binary64 *)

Section RunningBestBinary64.

Variable conf : PlexTrackInfo -> float.
Variable tier : PlexTrackInfo -> MatchType.

Definition keep_best_binary64 (st : Binary64.best_state) (x : PlexTrackInfo) : Binary64.best_state :=
  if (snd (fst st) <? conf x)%float then (Some x, conf x, tier x) else st.

(** What the loop has when it has seen the candidates [seen]: nothing, and
    none of them scores above 0.0; or one of them, which scores above 0.0,
    which no earlier one equals or beats and which no later one beats. *)
Definition best_of (seen : list PlexTrackInfo) (st : Binary64.best_state) : Prop :=
  (st = (None, 0.0%float, no_match)
   /\ forall x, In x seen -> (0.0 <? conf x)%float = false)
  \/ (exists pre c post,
        seen = pre ++ c :: post
        /\ st = (Some c, conf c, tier c)
        /\ (0.0 <? conf c)%float = true
        /\ (forall x, In x pre -> (conf c <=? conf x)%float = false)
        /\ (forall x, In x post -> (conf c <? conf x)%float = false)).

Lemma beaten (b c x : float) :
  (b <? c)%float = true ->
  (b <=? x)%float = false \/ (b <? x)%float = false ->
  (c <=? x)%float = false.
Proof.
  intros Hbc Hx. destruct (c <=? x)%float eqn:E; [| reflexivity].
  pose proof (float_lt_le_trans b c x Hbc E) as Hlt.
  destruct Hx as [Hx | Hx]; [rewrite (float_lt_le _ _ Hlt) in Hx | rewrite Hlt in Hx]; discriminate.
Qed.

Lemma keep_best_binary64_of (seen : list PlexTrackInfo) (st : Binary64.best_state) (y : PlexTrackInfo) :
  best_of seen st -> best_of (seen ++ [y]) (keep_best_binary64 st y).
Proof.
  intros [[-> Hnone] | (pre & c & post & -> & -> & Hc & Hpre & Hpost)]; unfold keep_best_binary64; cbn [fst snd].
  - destruct (0.0 <? conf y)%float eqn:Hy.
    + right. exists seen, y, []. split; [reflexivity |]. split; [reflexivity |].
      split; [exact Hy |]. split; [| intros x []].
      intros x Hx. apply (beaten 0.0%float); [exact Hy | right; exact (Hnone x Hx)].
    + left. split; [reflexivity |].
      intros x Hx. apply in_app_or in Hx as [Hx | [<- | []]]; [exact (Hnone x Hx) | exact Hy].
  - destruct (conf c <? conf y)%float eqn:Hy.
    + right. exists (pre ++ c :: post), y, []. split; [reflexivity |].
      split; [reflexivity |].
      split; [exact (float_lt_le_trans _ _ _ Hc (float_lt_le _ _ Hy)) |].
      split; [| intros x []].
      intros x Hx. apply in_app_or in Hx as [Hx | [<- | Hx]].
      * apply (beaten (conf c)); [exact Hy | left; exact (Hpre x Hx)].
      * exact (float_lt_not_ge _ _ Hy).
      * apply (beaten (conf c)); [exact Hy | right; exact (Hpost x Hx)].
    + right. exists pre, c, (post ++ [y]). split; [now rewrite <- app_assoc |].
      split; [reflexivity |]. split; [exact Hc |]. split; [exact Hpre |].
      intros x Hx. apply in_app_or in Hx as [Hx | [<- | []]]; [exact (Hpost x Hx) | exact Hy].
Qed.

Lemma fold_best_of (l : list PlexTrackInfo) :
  forall seen st, best_of seen st -> best_of (seen ++ l) (fold_left keep_best_binary64 l st).
Proof.
  induction l as [|y l IH]; intros seen st H; simpl.
  - now rewrite app_nil_r.
  - replace (seen ++ y :: l) with ((seen ++ [y]) ++ l) by now rewrite <- app_assoc.
    apply IH. apply keep_best_binary64_of. exact H.
Qed.

End RunningBestBinary64.

Lemma consider_binary64_step
    (table : ascii -> string) (ratio : string -> string -> float) (s : SpotifyTrack)
    (st : Binary64.best_state) (x : PlexTrackInfo) :
  Binary64.consider table ratio s st x =
  keep_best_binary64 (fun x => fst (Binary64.calculate_match_confidence table ratio s x))
            (fun x => snd (Binary64.calculate_match_confidence table ratio s x)) st x.
Proof.
  unfold Binary64.consider, keep_best_binary64. destruct st as [[bm bc] bt].
  generalize (Binary64.calculate_match_confidence table ratio s x). intros [c t]. reflexivity.
Qed.

(** C8, as amended: on an empty list [find_best_match] returns no candidate,
    confidence 0.0 and tier "no_candidates".  On a non-empty list it scores
    every candidate; when some candidate scores above 0.0 it returns the first
    candidate of greatest confidence (no earlier one scores as much, which
    between numbers is to say that every earlier one scores strictly less;
    no later one scores more) with that candidate's confidence and tier; when
    no candidate scores above 0.0 it returns no candidate, confidence 0.0 and
    tier "no_match".  The confidences are the binary64 floats of the program,
    for every transliteration table and every similarity ratio. *)
Theorem find_best_match_spec
    (table : ascii -> string) (ratio : string -> string -> float)
    (s : SpotifyTrack) (l : list PlexTrackInfo) :
  let conf := fun x => fst (Binary64.calculate_match_confidence table ratio s x) in
  let r := Binary64.find_best_match table ratio s l in
  (l = [] ->
   Binary64.plex_track r = None /\ Binary64.confidence r = 0.0%float
   /\ Binary64.match_type r = no_candidates)
  /\ (l <> [] -> (forall x, In x l -> (0.0 <? conf x)%float = false) ->
      Binary64.plex_track r = None /\ Binary64.confidence r = 0.0%float
      /\ Binary64.match_type r = no_match)
  /\ ((exists x, In x l /\ (0.0 <? conf x)%float = true) ->
      exists pre c post,
        l = pre ++ c :: post
        /\ Binary64.plex_track r = Some c
        /\ (Binary64.confidence r, Binary64.match_type r)
           = Binary64.calculate_match_confidence table ratio s c
        /\ (0.0 <? conf c)%float = true
        /\ (forall x, In x pre -> (conf c <=? conf x)%float = false)
        /\ (forall x, In x pre -> is_nan (conf x) = false -> (conf x <? conf c)%float = true)
        /\ (forall x, In x post -> (conf c <? conf x)%float = false)).
Proof.
  cbv zeta.
  set (conf := fun x => fst (Binary64.calculate_match_confidence table ratio s x)).
  set (tier := fun x => snd (Binary64.calculate_match_confidence table ratio s x)).
  assert (Hfold : forall st,
             fold_left (Binary64.consider table ratio s) l st
             = fold_left (keep_best_binary64 conf tier) l st).
  { intros st. apply fold_left_ext. intros a b. apply consider_binary64_step. }
  assert (Hbest : best_of conf tier l (fold_left (keep_best_binary64 conf tier) l (None, 0.0%float, no_match))).
  { apply (fold_best_of conf tier l [] (None, 0.0%float, no_match)).
    left. split; [reflexivity | intros x []]. }
  split; [| split].
  - intros ->. cbn. split; [reflexivity | split; reflexivity].
  - intros Hne Hall. destruct l as [|y l']; [now elim Hne |].
    unfold Binary64.find_best_match. rewrite Hfold.
    destruct Hbest as [[-> _] | (pre & c & post & E & _ & Hc & _)].
    + cbn. split; [reflexivity | split; reflexivity].
    + rewrite (Hall c) in Hc; [discriminate |]. rewrite E. apply in_or_app. right. left.
      reflexivity.
  - intros (x & Hin & Hx).
    destruct Hbest as [[_ Hnone] | (pre & c & post & E & Hst & Hc & Hpre & Hpost)].
    + rewrite (Hnone x Hin) in Hx. discriminate.
    + exists pre, c, post. split; [exact E |].
      assert (Hr : Binary64.find_best_match table ratio s l
                   = Binary64.mkMatchResult s (Some c) (conf c) (tier c)).
      { unfold Binary64.find_best_match. rewrite Hfold, Hst.
        destruct l; [destruct pre; discriminate E | reflexivity]. }
      rewrite Hr. cbn [Binary64.plex_track Binary64.confidence Binary64.match_type].
      split; [reflexivity |].
      split; [unfold conf, tier;
              generalize (Binary64.calculate_match_confidence table ratio s c);
              intros [cc tt]; reflexivity |].
      split; [exact Hc |]. split; [exact Hpre |]. split; [| exact Hpost].
      intros y Hy Hnan. apply float_not_ge_lt; [exact Hnan | | exact (Hpre y Hy)].
      unfold is_nan. apply negb_false_iff. rewrite eqb_spec.
      rewrite ltb_spec in Hc. revert Hc. unfold SFltb, SFeqb, SFcompare.
      change (Pos.compare_cont Eq) with Pos.compare.
      destruct (Prim2SF (conf c)) as [sc | sc | | sc mc ec]; cbn; try discriminate;
        try reflexivity; intros _; destruct sc; cbn;
        rewrite ?Z.compare_refl, ?Pos.compare_refl; reflexivity.
Qed.

(** Rounding decides between [close_first] and [close_second].  Both
    weighted sums are 4/5 as rationals; on binary64 the first is
    0.7999999999999999 and the second 0.8, so that the second replaces the
    first, and the first alone is not a match. *)
Lemma rounding_decides_the_match :
  map (Binary64.calculate_match_confidence Library.latin1_sample Library.ratio_binary64
         close_source) [close_first; close_second]
  = [(0.79999999999999993%float, medium_confidence);
     (0.80000000000000004%float, low_confidence)]
  /\ Binary64.plex_track
       (Binary64.find_best_match Library.latin1_sample Library.ratio_binary64
          close_source [close_first; close_second]) = Some close_second
  /\ Binary64.is_match
       (Binary64.find_best_match Library.latin1_sample Library.ratio_binary64
          close_source [close_first]) = false.
Proof. split; [| split]; vm_compute; reflexivity. Qed.

(** C8, as stated, fails: the only candidate scores 0.0 (its tier would be
    "low_confidence"), and what is returned is no candidate with tier
    "no_match". *)
Lemma find_best_match_returns_no_match :
  Binary64.find_best_match Library.latin1_sample Library.ratio_binary64
    unrelated_source [unrelated_candidate]
    = Binary64.mkMatchResult unrelated_source None 0.0 no_match
  /\ Binary64.calculate_match_confidence Library.latin1_sample Library.ratio_binary64
       unrelated_source unrelated_candidate
     = (0.0%float, low_confidence).
Proof.
  split; vm_compute; reflexivity.
Qed.

(** ** [clean_artist] *)

(** C10: the strip patterns of [clean_artist] are not anchored at word
    boundaries.  In "Band of Horses" the pattern [\s*and.*] matches from the
    second character to the end of the text, so that only "B" is left, and
    [clean_artist] returns "b". *)
Theorem clean_artist_band_of_horses (table : ascii -> string) :
  In and_pattern artist_patterns
  /\ search_from true and_pattern 0 "Band of Horses" = Some (1%nat, (14%nat, []))
  /\ strip_patterns artist_patterns "Band of Horses" = "B"%string
  /\ clean_artist table "Band of Horses" = "b"%string.
Proof.
  split; [| split; [| split]].
  - unfold artist_patterns, and_pattern. do 4 right. left. reflexivity.
  - vm_compute. reflexivity.
  - vm_compute. reflexivity.
  - vm_compute. reflexivity.
Qed.

(** ** [duration_similarity] *)

(** The duration score is never negative; it is 0.5 when a duration is
    missing, 1.0 when both are known and within five seconds of each other,
    and at most 1 whenever neither duration is negative. *)
Theorem duration_similarity_range (duration1 duration2 : Z) :
  0 <= duration_similarity duration1 duration2
  /\ ((0 <= duration1)%Z -> (0 <= duration2)%Z ->
      duration_similarity duration1 duration2 <= 1)
  /\ ((duration1 = 0)%Z \/ (duration2 = 0)%Z ->
      duration_similarity duration1 duration2 = 0.5)
  /\ (duration1 <> 0%Z -> duration2 <> 0%Z ->
      (Z.abs (duration1 - duration2) <= 5000)%Z ->
      duration_similarity duration1 duration2 = 1.0).
Proof.
  unfold duration_similarity.
  destruct ((duration1 =? 0)%Z || (duration2 =? 0)%Z) eqn:E0.
  - split; [discriminate |]. split; [intros _ _; discriminate |].
    split; [reflexivity |]. intros H1 H2 _. exfalso.
    apply orb_true_iff in E0 as [E|E]; apply Z.eqb_eq in E; contradiction.
  - apply orb_false_iff in E0 as [E1 E2].
    apply Z.eqb_neq in E1. apply Z.eqb_neq in E2.
    destruct (Z.abs (duration1 - duration2) <=? 5000)%Z eqn:E5.
    + split; [discriminate |]. split; [intros _ _; discriminate |].
      split; [intros [H|H]; contradiction |]. reflexivity.
    + apply Z.leb_gt in E5. cbv zeta.
      set (r := inject_Z (Z.abs (duration1 - duration2))
                / inject_Z (Z.max duration1 duration2)).
      split; [| split; [| split]].
      * destruct (gt (1.0 - r * 5) 0) eqn:G; [| apply Qle_refl].
        apply gt_true in G. apply Qlt_le_weak. exact G.
      * intros H1 H2.
        assert (Hr : 0 <= r).
        { unfold r. apply Qle_shift_div_l.
          - change 0 with (inject_Z 0). rewrite <- Zlt_Qlt. lia.
          - rewrite Qmult_0_l. change 0 with (inject_Z 0). rewrite <- Zle_Qle. lia. }
        destruct (gt (1.0 - r * 5) 0); [lra | discriminate].
      * intros [H|H]; contradiction.
      * intros _ _ H. lia.
Qed.

(** ** Bounds of [duration_similarity] *)

Lemma duration_nonneg (duration1 duration2 : Z) :
  0 <= duration_similarity duration1 duration2.
Proof.
  unfold duration_similarity.
  destruct ((duration1 =? 0)%Z || (duration2 =? 0)%Z); [discriminate |].
  destruct (Z.abs (duration1 - duration2) <=? 5000)%Z; [discriminate |].
  cbv zeta.
  match goal with |- 0 <= (if gt ?x 0 then _ else _) => destruct (gt x 0) eqn:G end;
    [| apply Qle_refl].
  apply gt_true in G. apply Qlt_le_weak. exact G.
Qed.

Lemma duration_at_most_one (duration1 duration2 : Z) :
  (0 <= duration1)%Z -> (0 <= duration2)%Z ->
  duration_similarity duration1 duration2 <= 1.
Proof.
  intros H1 H2. unfold duration_similarity.
  destruct ((duration1 =? 0)%Z || (duration2 =? 0)%Z) eqn:E0; [discriminate |].
  apply orb_false_iff in E0 as [E1 E2].
  apply Z.eqb_neq in E1. apply Z.eqb_neq in E2.
  destruct (Z.abs (duration1 - duration2) <=? 5000)%Z; [discriminate |].
  cbv zeta.
  set (r := inject_Z (Z.abs (duration1 - duration2))
            / inject_Z (Z.max duration1 duration2)).
  assert (Hr : 0 <= r).
  { unfold r. apply Qle_shift_div_l.
    - change 0 with (inject_Z 0). rewrite <- Zlt_Qlt. lia.
    - rewrite Qmult_0_l. change 0 with (inject_Z 0). rewrite <- Zle_Qle. lia. }
  destruct (gt (1.0 - r * 5) 0); [lra | discriminate].
Qed.

(** ** Scores between 0 and 1 *)

(** What follows from a similarity [ratio] that stays between 0 and 1, as that
    of [difflib] does. *)
Section Bounded.

Variable table : ascii -> string.
Variable ratio : string -> string -> Q.
Hypothesis ratio_range : forall a b, 0 <= ratio a b <= 1.

Lemma similarity_range (a b : string) : 0 <= similarity_score ratio a b <= 1.
Proof.
  unfold similarity_score.
  destruct (String.eqb a "" || String.eqb b ""); [split; discriminate | apply ratio_range].
Qed.

Lemma best_artist_range (pn pc : string) (l : list string) :
  forall best, 0 <= best <= 1 -> 0 <= best_artist ratio pn pc l best <= 1.
Proof.
  induction l as [|a l IH]; intros best Hb; [exact Hb |].
  simpl.
  set (score := if contains a pn then 1.0 else similarity_score ratio a pc).
  assert (Hs : 0 <= score <= 1).
  { unfold score. destruct (contains a pn); [split; discriminate | apply similarity_range]. }
  destruct (gt score best); [| exact (IH best Hb)].
  destruct (Qeq_bool score 1.0); [exact Hs | exact (IH score Hs)].
Qed.

Lemma best_artist_grows (pn pc : string) (l : list string) :
  forall best, best <= best_artist ratio pn pc l best.
Proof.
  induction l as [|a l IH]; intros best; [apply Qle_refl |].
  simpl.
  set (score := if contains a pn then 1.0 else similarity_score ratio a pc).
  destruct (gt score best) eqn:G; [| exact (IH best)].
  apply gt_true in G.
  destruct (Qeq_bool score 1.0); [apply Qlt_le_weak; exact G |].
  eapply Qle_trans; [apply Qlt_le_weak; exact G | exact (IH score)].
Qed.

Lemma best_artist_contained (pn pc : string) (l : list string) (a : string) :
  In a l -> contains a pn = true ->
  forall best, 0 <= best <= 1 -> best_artist ratio pn pc l best == 1.
Proof.
  intros Hin Hc. induction l as [|x l IH]; [destruct Hin |].
  intros best Hb. simpl.
  set (score := if contains x pn then 1.0 else similarity_score ratio x pc).
  assert (Hs : 0 <= score <= 1).
  { unfold score. destruct (contains x pn); [split; discriminate | apply similarity_range]. }
  destruct (gt score best) eqn:G.
  - destruct (Qeq_bool score 1.0) eqn:E1.
    + apply Qeq_bool_iff in E1. rewrite E1. reflexivity.
    + destruct Hin as [-> | Hin]; [| exact (IH Hin score Hs)].
      exfalso. unfold score in E1. rewrite Hc in E1. discriminate.
  - apply gt_false in G.
    destruct Hin as [-> | Hin]; [| exact (IH Hin best Hb)].
    unfold score in G. rewrite Hc in G.
    apply Qle_antisym.
    + exact (proj2 (best_artist_range pn pc l best Hb)).
    + eapply Qle_trans; [| apply best_artist_grows]. lra.
Qed.

Lemma boost_and_tier_range (teq : bool) (t a d : Q) :
  0 <= t <= 1 -> 0 <= a <= 1 -> 0 <= d <= 1 ->
  0 <= fst (boost_and_tier teq t a d) <= 1.
Proof.
  intros Ht Ha Hd. unfold boost_and_tier.
  set (c := t * 0.5 + a * 0.3 + d * 0.2).
  assert (Hc : 0 <= c <= 1) by (unfold c; lra).
  assert (Hm : forall x, 0 <= x <= 1 -> 0 <= Py.max_Q c x <= 1).
  { intros x Hx. unfold Py.max_Q. destruct (Qlt_le_dec c x); assumption. }
  assert (Hb : 0 <= (if teq then Py.max_Q c 0.85 else c) <= 1).
  { destruct teq; [apply Hm; lra | exact Hc]. }
  destruct (gt t 0.95 && gt a 0.9 && gt d 0.9).
  - cbn [fst]. unfold Py.max_Q.
    destruct (Qlt_le_dec (if teq then _ else c) 0.98); [lra | exact Hb].
  - destruct (gt t 0.85 && gt a 0.8); [exact Hb |].
    destruct (gt t 0.75); exact Hb.
Qed.

End Bounded.

Lemma same_or_not_range (a b : string) : 0 <= same_or_not a b <= 1.
Proof. unfold same_or_not. destruct (String.eqb a b); split; discriminate. Qed.

(** With a similarity between 0 and 1 and durations that are not negative,
    the confidence of every pair lies between 0 and 1, boosts included. *)
Theorem confidence_in_unit_interval
    (table : ascii -> string) (ratio : string -> string -> Q)
    (s : SpotifyTrack) (p : PlexTrackInfo) :
  (forall a b, 0 <= ratio a b <= 1) ->
  (0 <= duration_ms s)%Z ->
  (forall d, duration p = Some d -> (0 <= d)%Z) ->
  0 <= fst (calculate_match_confidence table ratio s p) <= 1.
Proof.
  intros Hr Hs Hp. rewrite confidence_unfold.
  apply boost_and_tier_range.
  - unfold title_score_of. apply similarity_range. exact Hr.
  - unfold artist_score_of. apply best_artist_range; [exact Hr | split; discriminate].
  - unfold duration_score_of. split; [apply duration_nonneg |].
    apply duration_at_most_one; [exact Hs |].
    destruct (Py.truthy_int (duration p)); [| discriminate].
    destruct (duration p) as [d |]; [exact (Hp d eq_refl) | discriminate].
Qed.

(** The Queen example under the similarity [same_or_not]. *)
Lemma confidence_in_unit_interval_witness :
  0 <= fst (calculate_match_confidence Library.latin1_sample same_or_not
              queen_remastered queen_plex) <= 1.
Proof.
  apply confidence_in_unit_interval.
  - exact same_or_not_range.
  - simpl. lia.
  - intros d H. injection H as <-. lia.
Defined.

(** When the cleaned name of one of the Spotify artists occurs inside the
    normalized name of the Plex artist, the artist score is 1, whatever the
    other artists are.  An artist whose cleaned name is empty occurs inside
    every text: it scores 1 against every Plex artist. *)
Theorem contained_artist_scores_one
    (table : ascii -> string) (ratio : string -> string -> Q)
    (s : SpotifyTrack) (p : PlexTrackInfo) (a : string) :
  (forall a b, 0 <= ratio a b <= 1) ->
  In a (artists s) ->
  a <> EmptyString ->
  contains (clean_artist table a) (normalize_string table (Some (artist p))) = true ->
  artist_score_of table ratio s p == 1.
Proof.
  intros Hr Hin Hne Hc. unfold artist_score_of.
  apply (best_artist_contained ratio Hr _ _ _ (clean_artist table a)).
  - apply in_map. apply filter_In. split; [exact Hin |].
    destruct (String.eqb_spec a ""); [contradiction | reflexivity].
  - exact Hc.
  - split; discriminate.
Qed.

(** [clean_artist] strips "Andrea Bocelli" from its first letters on (the
    pattern [\s*and.*], case ignored), and the empty text that is left is
    found inside "metallica". *)
Lemma contained_artist_scores_one_witness :
  clean_artist Library.latin1_sample "Andrea Bocelli" = ""%string
  /\ normalize_string Library.latin1_sample (Some (artist metallica)) = "metallica"%string
  /\ artist_score_of Library.latin1_sample same_or_not andrea metallica == 1.
Proof.
  split; [vm_compute; reflexivity | split; [vm_compute; reflexivity |]].
  apply (contained_artist_scores_one Library.latin1_sample same_or_not andrea metallica
           "Andrea Bocelli").
  - exact same_or_not_range.
  - left. reflexivity.
  - discriminate.
  - vm_compute. reflexivity.
Defined.

(** [find_best_match] over a list that holds a candidate whose cleaned title
    is that of the Spotify track, and is not empty: some candidate of the
    list is returned, with a confidence of at least 0.85, and the result
    counts as a match. *)
Theorem exact_title_is_matched
    (table : ascii -> string) (ratio : string -> string -> Q)
    (s : SpotifyTrack) (l : list PlexTrackInfo) (p : PlexTrackInfo) :
  In p l ->
  clean_title table (name s) = clean_title table (title p) ->
  clean_title table (name s) <> EmptyString ->
  let r := find_best_match table ratio s l in
  is_match r = true
  /\ 0.85 <= confidence r
  /\ exists c, plex_track r = Some c /\ In c l.
Proof.
  intros Hin Heq Hne. cbv zeta.
  set (conf := fun x => fst (calculate_match_confidence table ratio s x)).
  set (tier := fun x => snd (calculate_match_confidence table ratio s x)).
  assert (Hp : 0.85 <= conf p).
  { unfold conf. rewrite confidence_unfold.
    rewrite (titles_equal_flag _ _ Heq Hne). apply boosted_at_least. }
  assert (Hex : exists x, In x l /\ snd (fst (None : option PlexTrackInfo, 0.0, no_match)) < conf x).
  { exists p. split; [exact Hin |]. cbn [fst snd]. lra. }
  destruct (fold_some_better conf tier l (None, 0.0, no_match) Hex)
    as (pre & c & post & E & Hf & _ & Hpre & Hpost).
  assert (Hr : find_best_match table ratio s l = mkMatchResult s (Some c) (conf c) (tier c)).
  { unfold find_best_match.
    rewrite (fold_left_ext _ _ (consider table ratio s) (keep_best conf tier) l _
               (consider_step table ratio s)).
    rewrite Hf. destruct l; [destruct pre; discriminate E | reflexivity]. }
  assert (Hc : 0.85 <= conf c).
  { rewrite E in Hin. apply in_app_or in Hin as [Hin | [<- | Hin]].
    - apply Qlt_le_weak. eapply Qle_lt_trans; [exact Hp | exact (Hpre p Hin)].
    - exact Hp.
    - eapply Qle_trans; [exact Hp | exact (Hpost p Hin)]. }
  rewrite Hr. cbn [plex_track confidence]. unfold is_match. cbn [plex_track confidence].
  split; [| split; [exact Hc |]].
  - apply Qle_bool_iff. lra.
  - exists c. split; [reflexivity |]. rewrite E. apply in_or_app. right. left. reflexivity.
Qed.

(** The Queen example, with an unrelated candidate listed first. *)
Lemma exact_title_is_matched_witness :
  is_match (find_best_match Library.latin1_sample same_or_not queen_remastered
              [metallica; queen_plex]) = true.
Proof.
  assert (H1 : clean_title Library.latin1_sample (name queen_remastered)
               = clean_title Library.latin1_sample (title queen_plex))
    by (vm_compute; reflexivity).
  assert (H2 : clean_title Library.latin1_sample (name queen_remastered) <> EmptyString)
    by (vm_compute; discriminate).
  exact (proj1 (exact_title_is_matched Library.latin1_sample same_or_not queen_remastered
                  [metallica; queen_plex] queen_plex (or_intror (or_introl eq_refl)) H1 H2)).
Defined.

End MatchingFacts.

(* ================================================================== *)
(** * Facts: [normalize_string] *)
(* ================================================================== *)

Module NormalizeFacts.
Import Text Re MatchingEngine.

(** What the spec allows in a normalized text: lowercase letters, digits,
    the hyphen and whitespace. *)
Definition allowed_by_spec (c : ascii) : bool :=
  is_ascii_lower c || is_digit c || Ascii.eqb c "-" || is_space c.

(** What [normalize_string] leaves: the same with the underscore, and with
    the space as the only whitespace. *)
Definition allowed (c : ascii) : bool :=
  is_ascii_lower c || is_digit c || Ascii.eqb c "_" || Ascii.eqb c "-" || Ascii.eqb c " ".

(** No two whitespace characters side by side. *)
Fixpoint single_spaced (s : string) : bool :=
  match s with
  | String a ((String b _) as s') => negb (is_space a && is_space b) && single_spaced s'
  | _ => true
  end.

(** What [[^\w\s-]] does not match. *)
Definition kept (c : ascii) : bool := negb (cmatch false (NoneOf [Word; Space; Chr "-"]) c).

(** The longest run of characters of a class at the head of a text, and
    what follows it. *)
Fixpoint span (p : ascii -> bool) (s : string) : nat :=
  match s with
  | String a s' => if p a then S (span p s') else 0
  | EmptyString => 0
  end.

Fixpoint dropwhile (p : ascii -> bool) (s : string) : string :=
  match s with
  | String a s' => if p a then dropwhile p s' else s
  | EmptyString => EmptyString
  end.

(** Every run of whitespace replaced by one space; [run] tells that the
    characters just before were whitespace. *)
Fixpoint collapse (run : bool) (s : string) : string :=
  match s with
  | EmptyString => EmptyString
  | String a s' =>
      if is_space a then
        if run then collapse true s' else String " " (collapse true s')
      else String a (collapse false s')
  end.

Definition starts_space (s : string) : bool :=
  match s with
  | String a _ => is_space a
  | EmptyString => false
  end.

(** ** Characters, case by case *)

Lemma lower_char_ascii (c : ascii) :
  is_ascii c = true ->
  is_ascii (lower_char c) = true /\ is_ascii_upper (lower_char c) = false.
Proof.
  destruct c as [[] [] [] [] [] [] [] []]; intros H;
    first [discriminate H | split; vm_compute; reflexivity].
Qed.

Lemma kept_ascii_allowed (c : ascii) :
  is_ascii c = true -> is_ascii_upper c = false -> kept c = true -> is_space c = false ->
  allowed c = true.
Proof.
  destruct c as [[] [] [] [] [] [] [] []]; intros H1 H2 H3 H4;
    first [discriminate H1 | discriminate H2 | discriminate H3 | discriminate H4
          | vm_compute; reflexivity].
Qed.

Lemma allowed_space_is_space (c : ascii) :
  allowed c = true -> is_space c = true -> c = " "%char.
Proof.
  destruct c as [[] [] [] [] [] [] [] []]; intros H1 H2;
    first [discriminate H1 | discriminate H2 | reflexivity].
Qed.

(** ** [all_chars] *)

Lemma all_chars_app (p : ascii -> bool) (s t : string) :
  all_chars p (s ++ t) = all_chars p s && all_chars p t.
Proof.
  induction s as [|a s IH]; simpl; [reflexivity |].
  rewrite IH. apply andb_assoc.
Qed.

Lemma all_chars_impl (p q : ascii -> bool) (s : string) :
  (forall c, p c = true -> q c = true) -> all_chars p s = true -> all_chars q s = true.
Proof.
  intros H. induction s as [|a s IH]; simpl; [reflexivity |].
  intros E. apply andb_true_iff in E as [Ea Es].
  rewrite (H a Ea), (IH Es). reflexivity.
Qed.

Lemma unidecode_ascii (table : ascii -> string) (s : string) :
  (forall c, all_chars is_ascii (table c) = true) ->
  all_chars is_ascii (unidecode table s) = true.
Proof.
  intros H. induction s as [|a s IH]; simpl; [reflexivity |].
  rewrite all_chars_app, IH, andb_true_r.
  destruct (is_ascii a) eqn:E; [simpl; now rewrite E | apply H].
Qed.

Lemma lower_ascii (s : string) :
  all_chars is_ascii s = true ->
  all_chars (fun c => is_ascii c && negb (is_ascii_upper c)) (lower s) = true.
Proof.
  induction s as [|a s IH]; simpl; [reflexivity |].
  intros E. apply andb_true_iff in E as [Ea Es].
  destruct (lower_char_ascii a Ea) as [H1 H2].
  rewrite H1, H2, (IH Es). reflexivity.
Qed.

(** ** The two substitutions *)

Lemma sub_from_step (fuel : nat) (icase : bool) (r : regex) (repl : string)
                    (pos : nat) (s : string) :
  sub_from (S fuel) icase r repl pos s =
  let step :=
    match s with
    | String a s' => String a (sub_from fuel icase r repl (S pos) s')
    | EmptyString => EmptyString
    end in
  match match_at icase r pos s with
  | Some (e, _) =>
      if Nat.ltb pos e
      then (repl ++ sub_from fuel icase r repl e (drop (e - pos) s))%string
      else (repl ++ step)%string
  | None => step
  end.
Proof. reflexivity. Qed.

Lemma match_punctuation (pos : nat) (a : ascii) (s : string) :
  match_at false punctuation pos (String a s) =
  if kept a then None else Some (S pos, []).
Proof.
  unfold match_at, punctuation, kept. cbn [compile quantified one].
  destruct (cmatch false (NoneOf [Word; Space; Chr "-"]) a); reflexivity.
Qed.

Lemma drop_past (pos n : nat) (a : ascii) (s : string) :
  drop (S pos + n - pos) (String a s) = drop n s.
Proof. replace (S pos + n - pos)%nat with (S n) by lia. reflexivity. Qed.

Lemma ltb_past (pos n : nat) : Nat.ltb pos (S pos + n) = true.
Proof. apply Nat.ltb_lt. lia. Qed.

(** Removing the punctuation leaves characters of the text that are not
    punctuation. *)
Lemma sub_punctuation_chars (p : ascii -> bool) (fuel : nat) :
  forall (s : string) (pos : nat),
    String.length s < fuel -> all_chars p s = true ->
    all_chars (fun c => p c && kept c) (sub_from fuel false punctuation "" pos s) = true.
Proof.
  induction fuel as [|fuel IH]; intros s pos Hlen Hp; [lia |].
  rewrite sub_from_step. destruct s as [|a s]; [reflexivity |].
  simpl in Hlen. simpl in Hp. apply andb_true_iff in Hp as [Ha Hs].
  rewrite match_punctuation. cbv zeta. destruct (kept a) eqn:Ek.
  - simpl. rewrite Ha, Ek. simpl. apply IH; [lia | exact Hs].
  - pose proof (ltb_past pos 0) as L. rewrite Nat.add_0_r in L. rewrite L.
    pose proof (drop_past pos 0 a s) as D. rewrite Nat.add_0_r in D. rewrite D.
    simpl. apply IH; [lia | exact Hs].
Qed.

Lemma star_to_the_end (p : ascii -> bool) (caps : list (nat * nat)) (s : string) :
  forall pos, star_greedy p (fun pos _ => Some (pos, caps)) pos s = Some (pos + span p s, caps)%nat.
Proof.
  induction s as [|a s IH]; intros pos; simpl.
  - now rewrite Nat.add_0_r.
  - destruct (p a); [| now rewrite Nat.add_0_r].
    rewrite IH. now rewrite Nat.add_succ_r.
Qed.

Lemma match_spaces (pos : nat) (a : ascii) (s : string) :
  match_at false spaces pos (String a s) =
  if is_space a then Some (S pos + span is_space s, [])%nat else None.
Proof.
  unfold match_at, spaces, sp1. cbn [compile quantified plus_greedy one cmatch].
  destruct (is_space a); [| reflexivity].
  exact (star_to_the_end (cmatch false Space) [] s (S pos)).
Qed.

Lemma drop_span (p : ascii -> bool) (s : string) : drop (span p s) s = dropwhile p s.
Proof.
  induction s as [|a s IH]; simpl; [reflexivity |].
  destruct (p a); [exact IH | reflexivity].
Qed.

Lemma dropwhile_length (p : ascii -> bool) (s : string) :
  String.length (dropwhile p s) <= String.length s.
Proof.
  induction s as [|a s IH]; simpl; [lia |].
  destruct (p a); simpl; lia.
Qed.

Lemma collapse_run (s : string) : collapse true s = collapse false (dropwhile is_space s).
Proof.
  induction s as [|a s IH]; simpl; [reflexivity |].
  destruct (is_space a) eqn:E; [exact IH |]. simpl. now rewrite E.
Qed.

(** Replacing [\s+] by a space is [collapse]. *)
Lemma sub_spaces_collapse (fuel : nat) :
  forall (s : string) (pos : nat),
    String.length s < fuel -> sub_from fuel false spaces " " pos s = collapse false s.
Proof.
  induction fuel as [|fuel IH]; intros s pos Hlen; [lia |].
  rewrite sub_from_step. destruct s as [|a s]; [reflexivity |].
  simpl in Hlen. rewrite match_spaces. cbv zeta. simpl (collapse false _).
  destruct (is_space a).
  - rewrite ltb_past, drop_past, drop_span, collapse_run.
    rewrite IH; [reflexivity |]. pose proof (dropwhile_length is_space s). lia.
  - rewrite IH; [reflexivity | lia].
Qed.

Lemma sub_spaces (s : string) : sub false spaces " " s = collapse false s.
Proof. unfold sub. apply sub_spaces_collapse. apply Nat.lt_succ_diag_r. Qed.

(** ** [collapse] and [strip] *)

Lemma single_spaced_cons (a : ascii) (s : string) :
  single_spaced (String a s) = negb (is_space a && starts_space s) && single_spaced s.
Proof. destruct s; simpl; [now rewrite andb_false_r | reflexivity]. Qed.

Lemma collapse_chars (p : ascii -> bool) (s : string) :
  all_chars p s = true ->
  forall run,
    all_chars (fun c => Ascii.eqb c " " || (p c && negb (is_space c))) (collapse run s) = true.
Proof.
  induction s as [|a s IH]; intros Hp run; [reflexivity |].
  simpl in Hp. apply andb_true_iff in Hp as [Ha Hs]. simpl.
  destruct (is_space a) eqn:E.
  - destruct run; [apply IH; exact Hs |]. simpl. apply IH; exact Hs.
  - simpl. rewrite Ha, E. simpl. rewrite orb_true_r. apply IH; exact Hs.
Qed.

Lemma collapse_run_head (s : string) : starts_space (collapse true s) = false.
Proof.
  induction s as [|a s IH]; simpl; [reflexivity |].
  destruct (is_space a) eqn:E; [exact IH | simpl; exact E].
Qed.

Lemma collapse_single_spaced (s : string) : forall run, single_spaced (collapse run s) = true.
Proof.
  induction s as [|a s IH]; intros run; [reflexivity |].
  simpl. destruct (is_space a) eqn:E.
  - destruct run; [apply IH |].
    rewrite single_spaced_cons, collapse_run_head, IH, andb_false_r. reflexivity.
  - rewrite single_spaced_cons, E, IH. reflexivity.
Qed.

Lemma lstrip_chars (p : ascii -> bool) (s : string) :
  all_chars p s = true -> all_chars p (lstrip s) = true.
Proof.
  induction s as [|a s IH]; simpl; [reflexivity |].
  intros E. destruct (is_space a); [| exact E].
  apply andb_true_iff in E as [_ Es]. exact (IH Es).
Qed.

Lemma rstrip_chars (p : ascii -> bool) (s : string) :
  all_chars p s = true -> all_chars p (rstrip s) = true.
Proof.
  induction s as [|a s IH]; simpl; [reflexivity |].
  intros E. apply andb_true_iff in E as [Ea Es]. specialize (IH Es).
  destruct (rstrip s) as [|b r].
  - destruct (is_space a); [reflexivity | simpl; now rewrite Ea].
  - change (all_chars p (String a (String b r))) with (p a && all_chars p (String b r)).
    now rewrite Ea, IH.
Qed.

Lemma lstrip_single_spaced (s : string) :
  single_spaced s = true -> single_spaced (lstrip s) = true.
Proof.
  induction s as [|a s IH]; [reflexivity |].
  intros E. simpl. destruct (is_space a); [| exact E].
  rewrite single_spaced_cons in E. apply andb_true_iff in E as [_ Es]. exact (IH Es).
Qed.

(** A text that is not empty after [rstrip] starts as before. *)
Lemma rstrip_head (s : string) (d : ascii) (r : string) :
  rstrip s = String d r -> exists t, s = String d t.
Proof.
  destruct s as [|a s]; simpl; [discriminate |].
  destruct (rstrip s) as [|b r'].
  - destruct (is_space a); [discriminate |]. intros H. injection H as -> _. now exists s.
  - intros H. injection H as -> _. now exists s.
Qed.

Lemma rstrip_starts (s : string) : starts_space s = false -> starts_space (rstrip s) = false.
Proof.
  intros H. destruct (rstrip s) as [|d r] eqn:E; [reflexivity |].
  destruct (rstrip_head s d r E) as [t ->]. exact H.
Qed.

Lemma rstrip_single_spaced (s : string) :
  single_spaced s = true -> single_spaced (rstrip s) = true.
Proof.
  induction s as [|a s IH]; [reflexivity |].
  intros E. rewrite single_spaced_cons in E. apply andb_true_iff in E as [Ea Es].
  specialize (IH Es). simpl.
  destruct (rstrip s) as [|d r] eqn:Er.
  - destruct (is_space a); reflexivity.
  - destruct (rstrip_head s d r Er) as [t ->].
    rewrite single_spaced_cons, IH, andb_true_r. exact Ea.
Qed.

Lemma lstrip_starts (s : string) : starts_space (lstrip s) = false.
Proof.
  induction s as [|a s IH]; simpl; [reflexivity |].
  destruct (is_space a) eqn:E; [exact IH | simpl; exact E].
Qed.

Lemma lstrip_fixed (s : string) : starts_space s = false -> lstrip s = s.
Proof. destruct s as [|a s]; simpl; [reflexivity |]. now intros ->. Qed.

Lemma rstrip_idempotent (s : string) : rstrip (rstrip s) = rstrip s.
Proof.
  induction s as [|a s IH]; [reflexivity |].
  simpl. destruct (rstrip s) as [|d r] eqn:Er.
  - destruct (is_space a) eqn:E; [reflexivity | simpl; now rewrite E].
  - change (rstrip (String a (String d r)))
      with (match rstrip (String d r) with
            | EmptyString => if is_space a then EmptyString else String a EmptyString
            | r' => String a r'
            end).
    rewrite IH. reflexivity.
Qed.

(** [strip] leaves nothing to strip. *)
Lemma strip_idempotent (s : string) : strip (strip s) = strip s.
Proof.
  unfold strip.
  rewrite (lstrip_fixed (rstrip (lstrip s)) (rstrip_starts _ (lstrip_starts s))).
  apply rstrip_idempotent.
Qed.

(** ** The shape of a normalized text *)

Lemma sample_table_ascii (c : ascii) : all_chars is_ascii (Library.latin1_sample c) = true.
Proof. destruct c as [[] [] [] [] [] [] [] []]; vm_compute; reflexivity. Qed.

Lemma normalized_chars (table : ascii -> string) (text : string) :
  (forall c, all_chars is_ascii (table c) = true) ->
  all_chars allowed
    (collapse false (sub false punctuation "" (lower (unidecode table text)))) = true.
Proof.
  intros Htable.
  pose proof (lower_ascii _ (unidecode_ascii table text Htable)) as H1.
  pose proof (sub_punctuation_chars _ (S (String.length (lower (unidecode table text))))
                (lower (unidecode table text)) 0 (Nat.lt_succ_diag_r _) H1) as H2.
  pose proof (collapse_chars _ _ H2 false) as H3.
  refine (all_chars_impl _ _ _ _ H3). intros c Hc.
  apply orb_true_iff in Hc as [Hc | Hc].
  - apply Ascii.eqb_eq in Hc. subst c. reflexivity.
  - apply andb_true_iff in Hc as [Hc Hsp]. apply andb_true_iff in Hc as [Hc Hk].
    apply andb_true_iff in Hc as [Ha Hu].
    apply kept_ascii_allowed; [exact Ha | | exact Hk |].
    + now destruct (is_ascii_upper c).
    + now destruct (is_space c).
Qed.

(** C9, as amended: a normalized text holds only lowercase letters, digits,
    underscores, hyphens and spaces; no two whitespace characters stand side
    by side; the text has no whitespace at either end; an empty or absent
    input gives the empty text.  The table of [unidecode] is taken to hold
    ASCII texts only. *)
Theorem normalize_string_shape (table : ascii -> string) (text : option string) :
  (forall c, all_chars is_ascii (table c) = true) ->
  all_chars allowed (normalize_string table text) = true
  /\ single_spaced (normalize_string table text) = true
  /\ strip (normalize_string table text) = normalize_string table text
  /\ normalize_string table None = EmptyString
  /\ normalize_string table (Some EmptyString) = EmptyString.
Proof.
  intros Htable.
  assert (Hshape :
            all_chars allowed (normalize_string table text) = true
            /\ single_spaced (normalize_string table text) = true
            /\ strip (normalize_string table text) = normalize_string table text).
  { destruct text as [text |]; [| repeat split].
    unfold normalize_string. destruct (String.eqb text ""); [repeat split |].
    rewrite sub_spaces.
    split; [| split].
    - apply rstrip_chars, lstrip_chars, normalized_chars, Htable.
    - apply rstrip_single_spaced, lstrip_single_spaced, collapse_single_spaced.
    - apply strip_idempotent. }
  destruct Hshape as (H1 & H2 & H3).
  repeat split; assumption.
Qed.

Lemma normalize_string_shape_witness :
  (forall c, all_chars is_ascii (Library.latin1_sample c) = true)
  /\ normalize_string Library.latin1_sample (Some "  Hello,   W_orld!! -- x "%string)
     = "hello w_orld -- x"%string
  /\ all_chars allowed
       (normalize_string Library.latin1_sample (Some "  Hello,   W_orld!! -- x "%string)) = true.
Proof.
  split; [exact sample_table_ascii | split; [vm_compute; reflexivity |]].
  exact (proj1 (normalize_string_shape Library.latin1_sample
                  (Some "  Hello,   W_orld!! -- x "%string) sample_table_ascii)).
Defined.

(** C9, as stated, fails: the underscore is none of the characters the spec
    lists, and it stays. *)
Lemma normalize_string_keeps_underscore :
  normalize_string Library.latin1_sample (Some "a_b"%string) = "a_b"%string
  /\ all_chars allowed_by_spec (normalize_string Library.latin1_sample (Some "a_b"%string)) = false.
Proof. split; vm_compute; reflexivity. Qed.

(** ** A normalized text is left as it is *)

Lemma allowed_fixed (c : ascii) :
  allowed c = true -> is_ascii c = true /\ lower_char c = c /\ kept c = true.
Proof.
  destruct c as [[] [] [] [] [] [] [] []]; intros H;
    first [discriminate H | repeat split; vm_compute; reflexivity].
Qed.

Lemma unidecode_fixed (table : ascii -> string) (s : string) :
  all_chars allowed s = true -> unidecode table s = s.
Proof.
  induction s as [|a s IH]; simpl; [reflexivity |].
  intros E. apply andb_true_iff in E as [Ea Es].
  destruct (allowed_fixed a Ea) as (H1 & _ & _). rewrite H1, (IH Es). reflexivity.
Qed.

Lemma lower_fixed (s : string) : all_chars allowed s = true -> lower s = s.
Proof.
  induction s as [|a s IH]; simpl; [reflexivity |].
  intros E. apply andb_true_iff in E as [Ea Es].
  destruct (allowed_fixed a Ea) as (_ & H2 & _). rewrite H2, (IH Es). reflexivity.
Qed.

Lemma sub_punctuation_fixed (fuel : nat) :
  forall (s : string) (pos : nat),
    String.length s < fuel -> all_chars allowed s = true ->
    sub_from fuel false punctuation "" pos s = s.
Proof.
  induction fuel as [|fuel IH]; intros s pos Hlen Hp; [lia |].
  rewrite sub_from_step. destruct s as [|a s]; [reflexivity |].
  simpl in Hlen. simpl in Hp. apply andb_true_iff in Hp as [Ha Hs].
  rewrite match_punctuation. cbv zeta.
  destruct (allowed_fixed a Ha) as (_ & _ & Hk). rewrite Hk.
  rewrite IH; [reflexivity | lia | exact Hs].
Qed.

Lemma dropwhile_fixed (s : string) : starts_space s = false -> dropwhile is_space s = s.
Proof. destruct s as [|a s]; simpl; [reflexivity |]. now intros ->. Qed.

Lemma collapse_fixed (s : string) :
  all_chars allowed s = true -> single_spaced s = true -> collapse false s = s.
Proof.
  induction s as [|a s IH]; [reflexivity |].
  intros Hp Hs. simpl in Hp. apply andb_true_iff in Hp as [Ha Hp].
  rewrite single_spaced_cons in Hs. apply andb_true_iff in Hs as [Hh Hs].
  simpl. destruct (is_space a) eqn:E.
  - rewrite (allowed_space_is_space a Ha E). simpl in Hh.
    apply negb_true_iff in Hh.
    rewrite collapse_run, (dropwhile_fixed s Hh), (IH Hp Hs). reflexivity.
  - rewrite (IH Hp Hs). reflexivity.
Qed.

Lemma normalized_shape (table : ascii -> string) (text : option string) :
  (forall c, all_chars is_ascii (table c) = true) ->
  all_chars allowed (normalize_string table text) = true
  /\ single_spaced (normalize_string table text) = true
  /\ strip (normalize_string table text) = normalize_string table text.
Proof.
  intros Htable. destruct text as [text |]; [| repeat split].
  unfold normalize_string. destruct (String.eqb text ""); [repeat split |].
  rewrite sub_spaces.
  split; [| split].
  - apply rstrip_chars, lstrip_chars, normalized_chars, Htable.
  - apply rstrip_single_spaced, lstrip_single_spaced, collapse_single_spaced.
  - apply strip_idempotent.
Qed.

(** Normalizing a normalized text changes nothing.  The table of
    [unidecode] is taken to hold ASCII texts only. *)
Theorem normalize_string_idempotent (table : ascii -> string) (text : option string) :
  (forall c, all_chars is_ascii (table c) = true) ->
  normalize_string table (Some (normalize_string table text)) = normalize_string table text.
Proof.
  intros Htable.
  destruct (normalized_shape table text Htable) as (Ha & Hs & Hst).
  set (n := normalize_string table text) in *.
  unfold normalize_string at 1.
  destruct (String.eqb_spec n ""); [symmetry; assumption |].
  rewrite (unidecode_fixed table n Ha), (lower_fixed n Ha).
  unfold sub at 2. rewrite (sub_punctuation_fixed _ n 0 (Nat.lt_succ_diag_r _) Ha).
  rewrite sub_spaces, (collapse_fixed n Ha Hs). exact Hst.
Qed.

(** A text and its normal form, normalized again. *)
Lemma normalize_string_idempotent_witness :
  normalize_string Library.latin1_sample (Some "  Hello,   W_orld!! -- x "%string)
    = "hello w_orld -- x"%string
  /\ normalize_string Library.latin1_sample (Some "hello w_orld -- x"%string)
     = "hello w_orld -- x"%string.
Proof.
  assert (E : normalize_string Library.latin1_sample (Some "  Hello,   W_orld!! -- x "%string)
              = "hello w_orld -- x"%string) by (vm_compute; reflexivity).
  split; [exact E |].
  pose proof (normalize_string_idempotent Library.latin1_sample
                (Some "  Hello,   W_orld!! -- x "%string) sample_table_ascii) as H.
  rewrite E in H. exact H.
Defined.

End NormalizeFacts.

(* ================================================================== *)
(** * Facts: the progressive search *)
(* ================================================================== *)

Module SearchFacts.
Import SoulseekClient.

(** Non-increasing order of a list by a float key. *)
Definition descending {A : Type} (key : A -> float) (l : list A) : Prop :=
  Sorted (fun x y => (key y <=? key x)%float = true) l.

(** What holds of a session while the loop is still turning. *)
Definition turning (st : Session) : Prop :=
  List.length (all_responses st) < 30 /\ (forall n, In n (polled st) -> n < 30).

(** What holds of the invocations of the callback. *)
Definition calls_sorted (st : Session) : Prop :=
  forall c, In c (calls st) ->
    descending SearchResult.quality_score (call_tracks c)
    /\ descending AlbumResult.quality_score (call_albums c).

(** What holds of the reports made to the callback: each reports more
    responses than the one before, the latest as many as the session holds,
    and none more. *)
Definition reports_grow (st : Session) : Prop :=
  StronglySorted (fun later earlier => call_count earlier < call_count later) (calls st)
  /\ (forall c, In c (calls st) -> 1 <= call_count c <= List.length (all_responses st))
  /\ List.length (calls st) <= List.length (polled st).

(** The two lists of a session are in non-increasing order of score. *)
Definition results_sorted (st : Session) : Prop :=
  descending SearchResult.quality_score (all_tracks st)
  /\ descending AlbumResult.quality_score (all_albums st).

(** ** The sort *)

Section SortDesc.

Variable A : Type.
Variable key : A -> float.
Hypothesis key_ordered : forall x y, QualityFacts.ordered (key x) (key y) = true.

Let after (x y : A) : bool := (key x <? key y)%float.
Let desc (x y : A) : Prop := (key y <=? key x)%float = true.

Lemma insert_head (x : A) (l : list A) (y : A) :
  HdRel desc y l -> desc y x -> HdRel desc y (insert after x l).
Proof.
  intros Hl Hx. destruct l as [|z l]; simpl; [constructor; exact Hx |].
  destruct (after x z); constructor; [| exact Hx].
  inversion Hl; assumption.
Qed.

Lemma insert_sorted (x : A) (l : list A) :
  Sorted desc l -> Sorted desc (insert after x l).
Proof.
  induction l as [|y l IH]; intros Hs; simpl.
  - constructor; constructor.
  - inversion Hs as [|? ? Hs' Hhd]; subst.
    pose proof (key_ordered x y) as O. unfold QualityFacts.ordered in O.
    unfold after at 1. destruct (key x <? key y)%float.
    + constructor; [exact (IH Hs') |]. apply insert_head; [exact Hhd | exact O].
    + constructor; [exact Hs |]. constructor. exact O.
Qed.

Lemma sort_desc_sorted (l : list A) : descending key (sort_desc key l).
Proof.
  unfold descending, sort_desc, stable_sort.
  induction l as [|x l IH]; simpl; [constructor |].
  apply insert_sorted. exact IH.
Qed.

End SortDesc.

(** ** The loop *)

Section Loop.

Variable backend : Backend.
Variable progress_callback : option callback.

Lemma poll_polled (poll_count : nat) (st : Session) :
  exists count, polled (fst (poll backend progress_callback poll_count st)) = count :: polled st.
Proof.
  unfold poll.
  destruct (responses backend poll_count) as [responses_data |]; [| eexists; reflexivity].
  destruct (Nat.ltb _ _); [| eexists; reflexivity].
  destruct (_process_search_responses _) as [new_tracks new_albums].
  destruct progress_callback as [f |]; [| eexists; reflexivity].
  destruct (f _ _ _) as [t a]. eexists; reflexivity.
Qed.

Lemma poll_loop_polls (remaining : nat) :
  forall poll_count st,
    List.length (polled (poll_loop backend progress_callback remaining poll_count st))
    <= remaining + List.length (polled st).
Proof.
  induction remaining as [|remaining IH]; intros poll_count st; simpl; [lia |].
  destruct (poll_polled poll_count st) as [count E].
  destruct (poll backend progress_callback poll_count st) as [st' stop]. simpl in E.
  destruct stop.
  - rewrite E. simpl. lia.
  - specialize (IH (S poll_count) st'). rewrite E in IH. simpl in IH. lia.
Qed.

(** One turn: either it ends the loop, or the session is still [turning];
    in both cases the polls before it were below 30. *)
Lemma poll_turning (poll_count : nat) (st : Session) :
  turning st ->
  let '(st', stop) := poll backend progress_callback poll_count st in
  (forall n, In n (tl (polled st')) -> n < 30)
  /\ (stop = false -> turning st').
Proof.
  intros [Hlen Hpolled]. unfold poll.
  assert (Hidle : forall n, In n (List.length (all_responses st) :: polled st) -> n < 30).
  { intros n [<- | Hn]; [exact Hlen | exact (Hpolled n Hn)]. }
  destruct (responses backend poll_count) as [responses_data |];
    [| split; [exact Hpolled | intros _; split; [exact Hlen | exact Hidle]]].
  destruct (Nat.ltb _ _);
    [| split; [exact Hpolled | intros _; split; [exact Hlen | exact Hidle]]].
  destruct (_process_search_responses _) as [new_tracks new_albums].
  assert (Hstop : Nat.leb 30 (List.length responses_data) = false ->
                  forall n, In n (List.length responses_data :: polled st) -> n < 30).
  { intros E n [<- | Hn]; [apply Nat.leb_gt in E; exact E | exact (Hpolled n Hn)]. }
  destruct progress_callback as [f |].
  - destruct (f _ _ _) as [t a]. split; [exact Hpolled |].
    intros E. split; [apply Nat.leb_gt in E; exact E | exact (Hstop E)].
  - split; [exact Hpolled |].
    intros E. split; [apply Nat.leb_gt in E; exact E | exact (Hstop E)].
Qed.

Lemma poll_loop_stops (remaining : nat) :
  forall poll_count st,
    turning st ->
    forall n, In n (tl (polled (poll_loop backend progress_callback remaining poll_count st))) ->
              n < 30.
Proof.
  induction remaining as [|remaining IH]; intros poll_count st Hst; simpl.
  - intros n Hn. destruct Hst as [_ Hp]. apply Hp.
    destruct (polled st); [destruct Hn | right; exact Hn].
  - pose proof (poll_turning poll_count st Hst) as H.
    destruct (poll backend progress_callback poll_count st) as [st' stop].
    destruct H as [Hbefore Hnext]. destruct stop; [exact Hbefore |].
    apply IH. apply Hnext. reflexivity.
Qed.

Lemma poll_calls (poll_count : nat) (st : Session) :
  calls_sorted st -> calls_sorted (fst (poll backend progress_callback poll_count st)).
Proof.
  intros Hst. unfold poll.
  destruct (responses backend poll_count) as [responses_data |]; [| exact Hst].
  destruct (Nat.ltb _ _); [| exact Hst].
  destruct (_process_search_responses _) as [new_tracks new_albums].
  destruct progress_callback as [f |]; [| exact Hst].
  destruct (f _ _ _) as [t a]. intros c [<- | Hc]; [| exact (Hst c Hc)].
  split.
  - apply sort_desc_sorted. exact QualityFacts.track_score_ordered.
  - apply sort_desc_sorted. exact QualityFacts.album_score_ordered.
Qed.

Lemma poll_loop_calls (remaining : nat) :
  forall poll_count st,
    calls_sorted st ->
    calls_sorted (poll_loop backend progress_callback remaining poll_count st).
Proof.
  induction remaining as [|remaining IH]; intros poll_count st Hst; simpl; [exact Hst |].
  pose proof (poll_calls poll_count st Hst) as H.
  destruct (poll backend progress_callback poll_count st) as [st' stop]. simpl in H.
  destruct stop; [exact H | exact (IH _ _ H)].
Qed.

End Loop.

Lemma new_session_turning : turning new_session.
Proof. split; [simpl; lia | intros n []]. Qed.

Lemma max_polls_floor (timeout : Z) :
  Z.to_nat (max_polls timeout) <= Z.to_nat (2 * timeout / 3).
Proof.
  unfold max_polls. destruct (Z_lt_le_dec timeout 0) as [Hneg | Hpos].
  - assert (Z.quot (2 * timeout) 3 <= 0)%Z by (apply Z.quot_le_upper_bound; lia).
    lia.
  - rewrite Z.quot_div_nonneg by lia. lia.
Qed.

(** C5: in every execution of the progressive search, at most
    [floor(timeout / 1.5)] polls are issued; a poll after which the cumulative
    response count is 30 or more is the last one; and at every invocation of
    the progress callback the cumulative track list and the cumulative album
    list are each sorted in non-increasing [quality_score] order. *)
Theorem progressive_search_loop
    (backend : Backend) (timeout : Z) (progress_callback : option callback) :
  let st := search_session backend timeout progress_callback in
  List.length (polled st) <= Z.to_nat (2 * timeout / 3)
  /\ (forall n, In n (tl (polled st)) -> n < 30)
  /\ (forall c, In c (calls st) ->
        descending SearchResult.quality_score (call_tracks c)
        /\ descending AlbumResult.quality_score (call_albums c)).
Proof.
  cbv zeta. unfold search_session.
  destruct (Py.truthy_str (base_url backend) && Py.truthy_str (search_id backend)).
  - split; [| split].
    + pose proof (poll_loop_polls backend progress_callback
                    (Z.to_nat (max_polls timeout)) 0 new_session) as H.
      pose proof (max_polls_floor timeout). simpl in H. lia.
    + apply poll_loop_stops. exact new_session_turning.
    + apply poll_loop_calls. intros c [].
  - split; [simpl; lia | split; [intros n [] | intros c []]].
Qed.

(** ** The reports and the returned lists *)

Section LoopReports.

Variable backend : Backend.
Variable progress_callback : option callback.

Lemma poll_reports (poll_count : nat) (st : Session) :
  reports_grow st -> reports_grow (fst (poll backend progress_callback poll_count st)).
Proof.
  intros (Hs & Hc & Hl). unfold poll.
  assert (Hidle : reports_grow
                    (mkSession (all_responses st) (all_tracks st) (all_albums st)
                               (List.length (all_responses st) :: polled st) (calls st))).
  { split; [exact Hs | split; [exact Hc | simpl; lia]]. }
  destruct (responses backend poll_count) as [responses_data |]; [| exact Hidle].
  destruct (Nat.ltb _ _) eqn:E; [| exact Hidle]. apply Nat.ltb_lt in E.
  destruct (_process_search_responses _) as [new_tracks new_albums].
  destruct progress_callback as [f |].
  - destruct (f _ _ _) as [t a]. cbn [fst]. split; [| split].
    + cbn [calls]. constructor; [exact Hs |].
      apply Forall_forall. intros c Hin. cbn [call_count].
      specialize (Hc c Hin). lia.
    + cbn [calls all_responses]. intros c [<- | Hin]; [cbn [call_count]; lia |].
      specialize (Hc c Hin). lia.
    + cbn [calls polled]. simpl. lia.
  - cbn [fst]. split; [exact Hs | split].
    + cbn [calls all_responses]. intros c Hin. specialize (Hc c Hin). lia.
    + cbn [calls polled]. simpl. lia.
Qed.

Lemma poll_loop_reports (remaining : nat) :
  forall poll_count st,
    reports_grow st -> reports_grow (poll_loop backend progress_callback remaining poll_count st).
Proof.
  induction remaining as [|remaining IH]; intros poll_count st Hst; simpl; [exact Hst |].
  pose proof (poll_reports poll_count st Hst) as H.
  destruct (poll backend progress_callback poll_count st) as [st' stop]. simpl in H.
  destruct stop; [exact H | exact (IH _ _ H)].
Qed.

End LoopReports.

Lemma poll_sorted (backend : Backend) (poll_count : nat) (st : Session) :
  results_sorted st -> results_sorted (fst (poll backend None poll_count st)).
Proof.
  intros Hst. unfold poll.
  destruct (responses backend poll_count) as [responses_data |]; [| exact Hst].
  destruct (Nat.ltb _ _); [| exact Hst].
  destruct (_process_search_responses _) as [new_tracks new_albums]. cbn [fst]. split.
  - apply sort_desc_sorted. exact QualityFacts.track_score_ordered.
  - apply sort_desc_sorted. exact QualityFacts.album_score_ordered.
Qed.

Lemma poll_loop_sorted (backend : Backend) (remaining : nat) :
  forall poll_count st,
    results_sorted st -> results_sorted (poll_loop backend None remaining poll_count st).
Proof.
  induction remaining as [|remaining IH]; intros poll_count st Hst; simpl; [exact Hst |].
  pose proof (poll_sorted backend poll_count st Hst) as H.
  destruct (poll backend None poll_count st) as [st' stop]. simpl in H.
  destruct stop; [exact H | exact (IH _ _ H)].
Qed.

(** The reports made to the progress callback of [search]: each reports
    strictly more responses than the one before it; every one reports at
    least one response and no more than the search holds at its end; there is
    at most one report per poll; and when the client is not configured or the
    search could not be submitted, nothing is polled or reported and the
    search returns two empty lists. *)
Theorem progress_reports_grow
    (backend : Backend) (timeout : Z) (progress_callback : option callback) :
  let st := search_session backend timeout progress_callback in
  StronglySorted (fun later earlier => call_count earlier < call_count later) (calls st)
  /\ (forall c, In c (calls st) -> 1 <= call_count c <= List.length (all_responses st))
  /\ List.length (calls st) <= List.length (polled st)
  /\ (Py.truthy_str (base_url backend) = false \/ Py.truthy_str (search_id backend) = false ->
      st = new_session /\ search backend timeout progress_callback = ([], [])).
Proof.
  cbv zeta.
  assert (H0 : reports_grow new_session).
  { split; [constructor | split; [intros c [] | simpl; lia]]. }
  assert (H : reports_grow (search_session backend timeout progress_callback)).
  { unfold search_session.
    destruct (Py.truthy_str (base_url backend) && Py.truthy_str (search_id backend));
      [apply poll_loop_reports; exact H0 | exact H0]. }
  destruct H as (H1 & H2 & H3).
  split; [exact H1 | split; [exact H2 | split; [exact H3 |]]].
  intros Hno. unfold search, search_session.
  assert (E : Py.truthy_str (base_url backend) && Py.truthy_str (search_id backend) = false).
  { destruct Hno as [-> | ->]; [reflexivity | apply andb_false_r]. }
  rewrite E. split; reflexivity.
Qed.

(** Without a progress callback, the two lists that [search] returns are
    each in non-increasing order of [quality_score], whatever the service
    answers and however many polls are made. *)
Theorem search_results_are_sorted (backend : Backend) (timeout : Z) :
  descending SearchResult.quality_score (fst (search backend timeout None))
  /\ descending AlbumResult.quality_score (snd (search backend timeout None)).
Proof.
  assert (H0 : results_sorted new_session) by (split; constructor).
  unfold search, search_session. cbn [fst snd].
  destruct (Py.truthy_str (base_url backend) && Py.truthy_str (search_id backend));
    [apply poll_loop_sorted; exact H0 | exact H0].
Qed.

End SearchFacts.

(* ================================================================== *)
(** * Facts: album aggregation *)
(* ================================================================== *)

Module AggregationFacts.
Import SoulseekClient.

(** Two peers share a file under the same path; the first peer has a second
    file in that directory, the second peer has not. *)
Definition shared_file : FileData :=
  mkFileData "Music/Album/01 - Song.mp3" 1000 (Some 320%Z) (Some 200%Z).

Definition other_file : FileData :=
  mkFileData "Music/Album/02 - Other.mp3" 1000 (Some 320%Z) (Some 200%Z).

Definition alice : ResponseData := mkResponseData "alice" [shared_file; other_file] 1 50 0.
Definition bob : ResponseData := mkResponseData "bob" [shared_file] 1 50 0.

(** The track parsed from the only file of the second peer. *)
Definition bob_track : TrackResult :=
  mkTrackResult "bob" "Music/Album/01 - Song.mp3" 1000 (Some 320%Z) (Some 200%Z) "mp3" 1 50 0
    None (Some "Song"%string) (Some "Album"%string) (Some 1%Z).

(** A track as [_process_search_responses] builds it, before the metadata is
    read off its file name. *)
Definition unparsed (filename : string) : TrackResult :=
  mkTrackResult "peer" filename 0 None None "mp3" 0 0 0 None None None None.

(** What [__post_init__] reads off a file name: track number, artist, title
    and album. *)
Definition metadata (filename : string)
  : option Z * option string * option string * option string :=
  let t := __post_init__ (unparsed filename) in
  (track_number t, artist t, title t, album t).

(** The whole of what the two outputs hold. *)
Definition emitted (out : list TrackResult * list AlbumResult) : list TrackResult :=
  fst out ++ flat_map tracks (snd out).

(** A track belongs under a key of [albums_by_path]: same peer, and the key's
    path is the directory of its file. *)
Definition belongs (key : album_key) (t : TrackResult) : Prop :=
  username t = fst key /\ _extract_album_path (filename t) = Some (snd key).

(** The sum of the sizes of a list of tracks. *)
Definition total (ts : list TrackResult) : Z :=
  fold_right (fun t acc => (size t + acc)%Z) 0%Z ts.

(** How often an item occurs in a list. *)
Definition occurrences (x : string) (items : list string) : nat :=
  count_occ string_dec items x.

(** The count a [Counter] holds for an item. *)
Fixpoint held (c : list (string * nat)) (x : string) : nat :=
  match c with
  | [] => 0
  | (y, n) :: c' => if String.eqb y x then n else held c' x
  end.

(** Four decimal digits. *)
Definition year_text (y : string) : Prop :=
  exists d1 d2 d3 d4,
    y = String d1 (String d2 (String d3 (String d4 EmptyString)))
    /\ Text.is_digit d1 = true /\ Text.is_digit d2 = true /\ Text.is_digit d3 = true /\ Text.is_digit d4 = true.

(** A match of one of the year patterns has one group, which spans four
    digits of the text. *)
Definition spans_digits (p : nat) (s : string) (m : Re.result) : Prop :=
  exists off rest y,
    snd m = [(p + off, p + off + 4)]
    /\ Text.drop off s = (y ++ rest)%string
    /\ year_text y.

(** ** The groups *)

Lemma key_eqb_eq (k1 k2 : album_key) : key_eqb k1 k2 = true -> k1 = k2.
Proof.
  destruct k1 as [u1 p1], k2 as [u2 p2]. unfold key_eqb. simpl.
  intros H. apply andb_true_iff in H as [Hu Hp].
  apply String.eqb_eq in Hu, Hp. now subst.
Qed.

Lemma group_add_belongs (key : album_key) (track : TrackResult)
                        (d : list (album_key * list TrackResult)) :
  belongs key track ->
  (forall k ts, In (k, ts) d -> forall t, In t ts -> belongs k t) ->
  forall k ts, In (k, ts) (group_add key track d) -> forall t, In t ts -> belongs k t.
Proof.
  intros Hnew. induction d as [|[k0 ts0] d IH]; intros Hd k ts Hin t Ht; simpl in Hin.
  - destruct Hin as [E | []]. injection E as <- <-.
    destruct Ht as [<- | []]. exact Hnew.
  - destruct (key_eqb k0 key) eqn:Ek.
    + destruct Hin as [E | Hin].
      * injection E as <- <-. apply key_eqb_eq in Ek. subst k0.
        apply in_app_or in Ht as [Ht | [<- | []]];
          [exact (Hd key ts0 (or_introl eq_refl) t Ht) | exact Hnew].
      * exact (Hd k ts (or_intror Hin) t Ht).
    + destruct Hin as [E | Hin].
      * injection E as <- <-. exact (Hd k0 ts0 (or_introl eq_refl) t Ht).
      * apply (IH (fun k' ts' H' => Hd k' ts' (or_intror H')) k ts Hin t Ht).
Qed.

Lemma fold_groups_belong (all_tracks : list TrackResult) :
  forall d,
    (forall k ts, In (k, ts) d -> forall t, In t ts -> belongs k t) ->
    forall k ts,
      In (k, ts)
         (fold_left (fun d track =>
                       match _extract_album_path (filename track) with
                       | Some album_path =>
                           if String.eqb album_path ""
                           then d
                           else group_add (username track, album_path) track d
                       | None => d
                       end) all_tracks d) ->
      forall t, In t ts -> belongs k t.
Proof.
  induction all_tracks as [|track l IH]; intros d Hd; simpl; [exact Hd |].
  apply IH.
  destruct (_extract_album_path (filename track)) as [album_path |] eqn:E; [| exact Hd].
  destruct (String.eqb album_path ""); [exact Hd |].
  apply group_add_belongs; [| exact Hd]. split; [reflexivity | exact E].
Qed.

Lemma group_tracks_belong (all_tracks : list TrackResult) (k : album_key)
                          (ts : list TrackResult) :
  In (k, ts) (group_tracks all_tracks) -> forall t, In t ts -> belongs k t.
Proof.
  unfold group_tracks. apply fold_groups_belong. intros k' ts' [].
Qed.

(** ** The sort keeps the members *)

Lemma insert_in (A : Type) (after : A -> A -> bool) (x y : A) (l : list A) :
  In y (insert after x l) <-> y = x \/ In y l.
Proof.
  induction l as [|z l IH]; simpl; [intuition congruence |].
  destruct (after x z); simpl; rewrite ?IH; intuition congruence.
Qed.

Lemma stable_sort_in (A : Type) (after : A -> A -> bool) (y : A) (l : list A) :
  In y (stable_sort after l) <-> In y l.
Proof.
  unfold stable_sort. induction l as [|x l IH]; simpl; [reflexivity |].
  rewrite insert_in, IH. intuition congruence.
Qed.

Lemma insert_length (A : Type) (after : A -> A -> bool) (x : A) (l : list A) :
  List.length (insert after x l) = S (List.length l).
Proof.
  induction l as [|z l IH]; simpl; [reflexivity |].
  destruct (after x z); simpl; [now rewrite IH | reflexivity].
Qed.

Lemma stable_sort_length (A : Type) (after : A -> A -> bool) (l : list A) :
  List.length (stable_sort after l) = List.length l.
Proof.
  unfold stable_sort. induction l as [|x l IH]; simpl; [reflexivity |].
  now rewrite insert_length, IH.
Qed.

(** ** What does hold of the two outputs *)

(** Every emitted album has at least two member tracks, as many as its
    [track_count] says, and each of them comes from the album's peer and lies
    in the album's directory. *)
Theorem albums_have_two_members (responses_data : list ResponseData) :
  Forall (fun a =>
            2 <= List.length (tracks a)
            /\ track_count a = Z.of_nat (List.length (tracks a))
            /\ (forall t, In t (tracks a) ->
                  username t = album_username a
                  /\ _extract_album_path (filename t) = Some (album_path a)))
         (snd (_process_search_responses responses_data)).
Proof.
  apply Forall_forall. intros a.
  unfold _process_search_responses. cbn [snd]. unfold _create_album_results.
  intros Hin. apply in_flat_map in Hin as [[k ts] [Hg Ha]]. cbn [fst snd] in Ha.
  destruct (Nat.ltb (List.length ts) 2) eqn:El; [destruct Ha |].
  destruct Ha as [<- | []]. apply Nat.ltb_ge in El.
  unfold make_album. cbn [tracks track_count album_username album_path].
  unfold sorted_by_number. rewrite stable_sort_length.
  split; [exact El | split; [reflexivity |]].
  intros t Ht. apply stable_sort_in in Ht.
  exact (group_tracks_belong _ k ts Hg t Ht).
Qed.

(** No file is both an individual track and a member of an album: the
    filename of an individual track is the filename of no album member. *)
Theorem individual_tracks_unclaimed (responses_data : list ResponseData) :
  Forall (fun t =>
            In t (parsed_tracks responses_data)
            /\ Forall (fun a => Forall (fun m => filename m <> filename t) (tracks a))
                      (snd (_process_search_responses responses_data)))
         (fst (_process_search_responses responses_data)).
Proof.
  apply Forall_forall. intros t.
  unfold _process_search_responses. cbn [fst snd]. intros Hin.
  apply filter_In in Hin as [Hin Hmem]. split; [exact Hin |].
  apply Forall_forall. intros a Ha. apply Forall_forall. intros m Hm E.
  apply negb_true_iff in Hmem.
  assert (Hc : mem (filename t)
                 (album_track_filenames (_create_album_results
                    (group_tracks (parsed_tracks responses_data)))) = true).
  { unfold mem. apply existsb_exists. exists (filename m). split.
    - unfold album_track_filenames. apply in_flat_map. exists a. split; [exact Ha |].
      apply in_map. exact Hm.
    - rewrite E. apply String.eqb_refl. }
  rewrite Hc in Hmem. discriminate.
Qed.

(** C2 fails on the code.  On the input above the track of the second peer
    is parsed, its directory yields no album (one file only), and it is in
    neither output: the filter on individual tracks goes by filename alone,
    and the first peer's album claims that filename. *)
Lemma shared_filename_track_is_dropped :
  In bob_track (parsed_tracks [alice; bob])
  /\ fst (_process_search_responses [alice; bob]) = []
  /\ map album_username (snd (_process_search_responses [alice; bob])) = ["alice"%string]
  /\ ~ In bob_track (emitted (_process_search_responses [alice; bob])).
Proof.
  split; [| split; [| split]].
  - vm_compute. right. right. left. reflexivity.
  - vm_compute. reflexivity.
  - vm_compute. reflexivity.
  - vm_compute. intros [H | [H | []]]; discriminate H.
Qed.

(** ** File names *)

(** The metadata read off six file names: number, artist and title from
    a numbered name with two dashes; number and title from a name with a dot
    or with one dash after the number; artist and title from a name with one
    dash and no number, also when the dash is a hyphen inside the title; the
    bare name otherwise.  The album is the nearest directory whose name, less
    a leading number, is longer than three characters. *)
Theorem filename_metadata_examples :
  metadata "Music/Queen/1975 - A Night at the Opera/01 - Queen - Bohemian Rhapsody.flac"
    = (Some 1%Z, Some "Queen", Some "Bohemian Rhapsody", Some "A Night at the Opera")%string
  /\ metadata "Music/Queen/A Night at the Opera/11. Bohemian Rhapsody.flac"
    = (Some 11%Z, None, Some "Bohemian Rhapsody", Some "A Night at the Opera")%string
  /\ metadata "Music/Mix/07 - Bohemian Rhapsody.mp3"
    = (Some 7%Z, None, Some "Bohemian Rhapsody", Some "Music")%string
  /\ metadata "Queen - Bohemian Rhapsody.mp3"
    = (None, Some "Queen", Some "Bohemian Rhapsody", None)%string
  /\ metadata "Music/Mix/Semi-Charmed Life.mp3"
    = (None, Some "Semi", Some "Charmed Life", Some "Music")%string
  /\ metadata "Music/ABC/@eaDir/track.mp3"
    = (None, None, Some "track", Some "Music")%string.
Proof. vm_compute. repeat split. Qed.

Import Text Re.

(** ** Splitting and joining *)

Lemma split_nonempty (sep : ascii) (s : string) : split sep s <> [].
Proof.
  induction s as [|c s IH]; simpl; [discriminate |].
  destruct (Ascii.eqb c sep); [discriminate |].
  destruct (split sep s); [exact (fun H => IH eq_refl) | discriminate].
Qed.

Lemma join_cons (sep p : string) (ps : list string) :
  ps <> [] -> join sep (p :: ps) = (p ++ sep ++ join sep ps)%string.
Proof. destruct ps; [intros H; now elim H | reflexivity]. Qed.

Lemma join_split (sep : ascii) (s : string) :
  join (String sep EmptyString) (split sep s) = s.
Proof.
  induction s as [|c s IH]; [reflexivity |].
  simpl split. destruct (Ascii.eqb_spec c sep) as [-> | Hne].
  - rewrite join_cons by apply split_nonempty. rewrite IH. reflexivity.
  - pose proof (split_nonempty sep s) as Hs.
    destruct (split sep s) as [|p ps]; [now elim Hs |].
    destruct ps as [|q ps].
    + simpl in *. now rewrite IH.
    + change (join (String sep "") (String c p :: q :: ps))
        with (String c (join (String sep "") (p :: q :: ps))).
      now rewrite IH.
Qed.

Lemma split_parts_clean (sep : ascii) (s : string) :
  Forall (fun p => all_chars (fun c => negb (Ascii.eqb c sep)) p = true) (split sep s).
Proof.
  induction s as [|c s IH]; simpl; [repeat constructor |].
  destruct (Ascii.eqb c sep) eqn:E; [constructor; [reflexivity | exact IH] |].
  destruct (split sep s) as [|p ps]; [repeat constructor; simpl; now rewrite E |].
  inversion IH as [|? ? Hp Hps]; subst. constructor; [simpl; now rewrite E, Hp | exact Hps].
Qed.

Lemma split_clean (sep : ascii) (p : string) :
  all_chars (fun c => negb (Ascii.eqb c sep)) p = true -> split sep p = [p].
Proof.
  induction p as [|c p IH]; simpl; [reflexivity |].
  intros H. apply andb_true_iff in H as [Hc Hp]. apply negb_true_iff in Hc.
  rewrite Hc, (IH Hp). reflexivity.
Qed.

Lemma split_app_sep (sep : ascii) (p rest : string) :
  all_chars (fun c => negb (Ascii.eqb c sep)) p = true ->
  split sep (p ++ String sep rest) = p :: split sep rest.
Proof.
  induction p as [|c p IH]; simpl.
  - intros _. now rewrite Ascii.eqb_refl.
  - intros H. apply andb_true_iff in H as [Hc Hp]. apply negb_true_iff in Hc.
    rewrite Hc, (IH Hp). reflexivity.
Qed.

Lemma split_join (sep : ascii) (parts : list string) :
  parts <> [] ->
  Forall (fun p => all_chars (fun c => negb (Ascii.eqb c sep)) p = true) parts ->
  split sep (join (String sep EmptyString) parts) = parts.
Proof.
  induction parts as [|p ps IH]; [intros H; now elim H |].
  intros _ Hall. inversion Hall as [|? ? Hp Hps]; subst.
  destruct ps as [|q ps]; [exact (split_clean sep p Hp) |].
  rewrite join_cons by discriminate.
  change (String sep "" ++ join (String sep "") (q :: ps))%string
    with (String sep (join (String sep "") (q :: ps))).
  rewrite (split_app_sep sep p _ Hp). rewrite IH; [reflexivity | discriminate | exact Hps].
Qed.

Lemma append_assoc (a b c : string) : ((a ++ b) ++ c = a ++ (b ++ c))%string.
Proof. induction a as [|x a IH]; simpl; [reflexivity | now rewrite IH]. Qed.

Lemma join_removelast (sep : string) (parts : list string) :
  2 <= List.length parts ->
  join sep parts = (join sep (removelast parts) ++ sep ++ last parts EmptyString)%string.
Proof.
  induction parts as [|p ps IH]; simpl List.length; [lia |].
  intros Hlen. destruct ps as [|q ps]; [simpl in Hlen; lia |].
  destruct ps as [|r ps]; [reflexivity |].
  rewrite join_cons by discriminate.
  rewrite IH by (simpl; lia).
  change (removelast (p :: q :: r :: ps)) with (p :: removelast (q :: r :: ps)).
  change (last (p :: q :: r :: ps) EmptyString) with (last (q :: r :: ps) EmptyString).
  rewrite join_cons.
  - rewrite !append_assoc. reflexivity.
  - destruct ps; discriminate.
Qed.

Lemma Forall_removelast (A : Type) (P : A -> Prop) (l : list A) :
  Forall P l -> Forall P (removelast l).
Proof.
  induction l as [|x l IH]; intros H; [constructor |].
  inversion H as [|? ? Hx Hl]; subst. simpl.
  destruct l; [constructor | constructor; [exact Hx | exact (IH Hl)]].
Qed.

Lemma replace_char_clean (a b : ascii) (s : string) :
  a <> b -> all_chars (fun c => negb (Ascii.eqb c a)) (replace_char a b s) = true.
Proof.
  intros Hab. induction s as [|c s IH]; simpl; [reflexivity |].
  rewrite IH, andb_true_r. destruct (Ascii.eqb_spec c a) as [-> | Hc].
  - apply negb_true_iff. apply Ascii.eqb_neq. intros E. apply Hab. now symmetry.
  - apply negb_true_iff. now apply Ascii.eqb_neq.
Qed.

Lemma all_chars_prefix (p : ascii -> bool) (s t : string) :
  all_chars p (s ++ t) = true -> all_chars p s = true.
Proof.
  induction s as [|c s IH]; simpl; [reflexivity |].
  intros H. apply andb_true_iff in H as [Hc Hs]. now rewrite Hc, (IH Hs).
Qed.

(** [_extract_album_path] returns the directory of the file.  A name with no
    separator has none.  When a path is returned, the file name, backslashes
    turned into slashes, is that path, a slash and the last component; the
    path holds no backslash; and its last directory has two characters or
    more and does not start with "@". *)
Theorem album_path_is_directory (filename : string) :
  let normalized_path := replace_char "\" "/" filename in
  (contains "/" filename = false -> contains "\" filename = false ->
   _extract_album_path filename = None)
  /\ (forall album_path, _extract_album_path filename = Some album_path ->
        normalized_path = (album_path ++ "/" ++ basename normalized_path)%string
        /\ all_chars (fun c => negb (Ascii.eqb c "\")) album_path = true
        /\ 2 <= String.length (basename album_path)
        /\ startswith "@" (basename album_path) = false).
Proof.
  cbv zeta. split.
  - intros H1 H2. unfold _extract_album_path. now rewrite H1, H2.
  - intros album_path. unfold _extract_album_path.
    destruct (negb (contains "/" filename) && negb (contains "\" filename)); [discriminate |].
    set (n := replace_char "\" "/" filename).
    destruct (Nat.ltb (List.length (split "/" n)) 2) eqn:Elen; [discriminate |].
    apply Nat.ltb_ge in Elen.
    destruct (startswith "@" (last (removelast (split "/" n)) EmptyString)
              || Nat.ltb (String.length (last (removelast (split "/" n)) EmptyString)) 2) eqn:Edir;
      [discriminate |].
    intros H. injection H as <-.
    apply orb_false_iff in Edir as [E1 E2]. apply Nat.ltb_ge in E2.
    assert (Hparts : removelast (split "/" n) <> []).
    { destruct (split "/" n) as [|p [|q ps]]; simpl in Elen; try lia. simpl.
      destruct ps; discriminate. }
    assert (Hbase : basename (join "/" (removelast (split "/" n)))
                    = last (removelast (split "/" n)) EmptyString).
    { unfold basename. rewrite split_join; [reflexivity | exact Hparts |].
      apply Forall_removelast, split_parts_clean. }
    assert (Hjoin : n = (join "/" (removelast (split "/" n)) ++ "/" ++ basename n)%string).
    { unfold basename. rewrite <- (join_removelast "/" _ Elen). symmetry. apply join_split. }
    split; [exact Hjoin |].
    split.
    + apply (all_chars_prefix _ _ ("/" ++ basename n)). rewrite <- Hjoin.
      apply replace_char_clean. discriminate.
    + rewrite Hbase. split; [exact E2 | exact E1].
Qed.

(** ** Filename metadata *)

Lemma or_else_given (a : option string) (b : string) :
  Py.truthy_str a = true -> or_else a b = a.
Proof. unfold or_else. now intros ->. Qed.

Lemma apply_groups_keeps (self : TrackResult) (groups : list string) :
  let '(number, artist', title') := apply_groups self groups in
  (Py.truthy_str (artist self) = true -> artist' = artist self)
  /\ (Py.truthy_str (title self) = true -> title' = title self).
Proof.
  unfold apply_groups.
  destruct groups as [|g0 [|g1 [|g2 [|g3 gs]]]]; try (split; reflexivity).
  - destruct (isdigit g0).
    + destruct (int_of g0); split; try reflexivity. apply or_else_given.
    + split; apply or_else_given.
  - destruct (int_of g0); split; apply or_else_given.
Qed.

(** [__post_init__] only fills what is missing.  The fields of the search
    result are left as they are; an artist, a title and an album that were
    given are kept; and the track always ends with a title, which is not
    empty unless the file name has an empty stem. *)
Theorem parsed_metadata_keeps_given_fields (self : TrackResult) :
  let parsed := __post_init__ self in
  username parsed = username self
  /\ filename parsed = filename self
  /\ size parsed = size self
  /\ bitrate parsed = bitrate self
  /\ duration parsed = duration self
  /\ quality parsed = quality self
  /\ free_upload_slots parsed = free_upload_slots self
  /\ upload_speed parsed = upload_speed self
  /\ queue_length parsed = queue_length self
  /\ (Py.truthy_str (artist self) = true -> artist parsed = artist self)
  /\ (Py.truthy_str (title self) = true -> title parsed = title self)
  /\ (Py.truthy_str (album self) = true -> album parsed = album self)
  /\ title parsed <> None
  /\ (splitext_root (basename (filename self)) <> EmptyString ->
      Py.truthy_str (title parsed) = true).
Proof.
  cbv zeta. unfold __post_init__.
  destruct (negb (Py.truthy_str (title self)) || negb (Py.truthy_str (artist self))) eqn:E.
  - unfold _parse_filename_metadata.
    set (base_name := splitext_root (basename (filename self))).
    assert (G : let '(number, artist', title') :=
                  match first_match track_patterns base_name with
                  | Some groups => apply_groups self groups
                  | None => (track_number self, artist self, title self)
                  end in
                (Py.truthy_str (artist self) = true -> artist' = artist self)
                /\ (Py.truthy_str (title self) = true -> title' = title self)).
    { destruct (first_match track_patterns base_name) as [groups |];
        [apply apply_groups_keeps | split; reflexivity]. }
    destruct (match first_match track_patterns base_name with
              | Some groups => apply_groups self groups
              | None => (track_number self, artist self, title self)
              end) as [[number artist'] title'].
    destruct G as [Ga Gt]. cbn [username filename size bitrate duration quality
      free_upload_slots upload_speed queue_length artist title album].
    do 9 (split; [reflexivity |]).
    split; [exact Ga |].
    split; [intros H; rewrite (Gt H), H; reflexivity |].
    split; [intros H; rewrite H; reflexivity |].
    split.
    + destruct (Py.truthy_str title') eqn:Et; [| discriminate].
      destruct title'; [discriminate | discriminate Et].
    + intros Hne. destruct (Py.truthy_str title') eqn:Et; [exact Et |].
      simpl. destruct (String.eqb_spec base_name ""); [contradiction | reflexivity].
  - apply orb_false_iff in E as [Et Ea]. apply negb_false_iff in Et.
    do 9 (split; [reflexivity |]).
    split; [reflexivity |]. split; [reflexivity |]. split; [reflexivity |].
    split; [| intros _; exact Et].
    destruct (title self); [discriminate | discriminate Et].
Qed.

(** ** The sort of an album *)

Section Insertion.

Variable A : Type.
Variable key : A -> Z.

Let after (x y : A) : bool := (key y <? key x)%Z.
Let le (x y : A) : Prop := (key x <= key y)%Z.

Lemma insert_permutation (x : A) (l : list A) : Permutation (x :: l) (insert after x l).
Proof.
  induction l as [|y l IH]; simpl; [apply Permutation_refl |].
  destruct (after x y); [| apply Permutation_refl].
  eapply Permutation_trans; [apply perm_swap |]. apply perm_skip. exact IH.
Qed.

Lemma stable_sort_permutation (l : list A) : Permutation l (stable_sort after l).
Proof.
  induction l as [|x l IH]; simpl; [apply Permutation_refl |].
  eapply Permutation_trans; [apply perm_skip; exact IH |]. apply insert_permutation.
Qed.

Lemma insert_ascending (x : A) (l : list A) :
  StronglySorted le l -> StronglySorted le (insert after x l).
Proof.
  induction l as [|y l IH]; intros Hs; simpl.
  - constructor; [constructor | constructor].
  - inversion Hs as [|? ? Hl Hy]; subst.
    destruct (after x y) eqn:E.
    + constructor; [exact (IH Hl) |].
      apply (Permutation_Forall (insert_permutation x l)).
      constructor; [| exact Hy]. unfold le, after in *. apply Z.ltb_lt in E. lia.
    + constructor; [exact Hs |].
      unfold le, after in *. apply Z.ltb_ge in E.
      constructor; [exact E |].
      refine (Forall_impl _ _ Hy). intros z Hz. lia.
Qed.

Lemma stable_sort_ascending (l : list A) : StronglySorted le (stable_sort after l).
Proof.
  induction l as [|x l IH]; simpl; [constructor | exact (insert_ascending x _ IH)].
Qed.

End Insertion.

Lemma sum_sizes_from (ts : list TrackResult) :
  forall acc, fold_left (fun acc t => (acc + size t)%Z) ts acc = (acc + total ts)%Z.
Proof.
  induction ts as [|t ts IH]; intros acc; simpl; [lia |]. rewrite IH. lia.
Qed.

Lemma sum_sizes_total (ts : list TrackResult) : sum_sizes ts = total ts.
Proof. unfold sum_sizes. rewrite sum_sizes_from. lia. Qed.

Lemma total_permutation (l l' : list TrackResult) : Permutation l l' -> total l = total l'.
Proof.
  induction 1; simpl; try lia.
Qed.

(** Every album of [_create_album_results] comes from one group of two
    tracks or more: its tracks are those of the group, in ascending order of
    track number (a missing number counts as 0), and its total size is the
    sum of their sizes. *)
Theorem album_tracks_are_sorted (albums_by_path : list (album_key * list TrackResult)) :
  Forall (fun a =>
            StronglySorted (fun x y => (number_key x <= number_key y)%Z) (tracks a)
            /\ total_size a = total (tracks a)
            /\ exists ts, In ((album_username a, album_path a), ts) albums_by_path
                          /\ Permutation ts (tracks a)
                          /\ 2 <= List.length ts)
         (_create_album_results albums_by_path).
Proof.
  apply Forall_forall. intros a Hin. unfold _create_album_results in Hin.
  apply in_flat_map in Hin as [[key ts] [Hd Ha]]. cbn [fst snd] in Ha.
  destruct (Nat.ltb (List.length ts) 2) eqn:E; [destruct Ha |].
  destruct Ha as [<- | []]. apply Nat.ltb_ge in E.
  unfold make_album. cbn [tracks total_size album_username album_path].
  pose proof (stable_sort_permutation TrackResult number_key ts) as Hp.
  split; [exact (stable_sort_ascending TrackResult number_key ts) |].
  split; [rewrite sum_sizes_total; exact (total_permutation _ _ Hp) |].
  exists ts. split; [destruct key; exact Hd | split; [exact Hp | exact E]].
Qed.

(** ** [Counter.most_common] *)

Lemma held_count_add (x y : string) (c : list (string * nat)) :
  held (count_add x c) y = (if String.eqb x y then 1 else 0) + held c y.
Proof.
  induction c as [|[z n] c IH]; simpl.
  - destruct (String.eqb x y); reflexivity.
  - destruct (String.eqb_spec z x) as [-> | Hzx]; simpl.
    + destruct (String.eqb x y); reflexivity.
    + destruct (String.eqb_spec z y) as [-> | Hzy].
      * destruct (String.eqb_spec x y) as [-> | _]; [now elim Hzx | reflexivity].
      * exact IH.
Qed.

Lemma held_counter_from (items : list string) (y : string) :
  forall c, held (fold_left (fun c x => count_add x c) items c) y
            = occurrences y items + held c y.
Proof.
  induction items as [|x items IH]; intros c; simpl; [reflexivity |].
  rewrite IH, held_count_add. unfold occurrences. simpl.
  destruct (string_dec x y) as [-> | Hne].
  - rewrite String.eqb_refl. lia.
  - destruct (String.eqb_spec x y); [contradiction | lia].
Qed.

Lemma held_counter (items : list string) (y : string) :
  held (counter items) y = occurrences y items.
Proof. unfold counter. rewrite held_counter_from. simpl. lia. Qed.

Lemma count_add_keys (x : string) (c : list (string * nat)) :
  NoDup (map fst c) -> NoDup (map fst (count_add x c))
  /\ (forall y, In y (map fst (count_add x c)) -> y = x \/ In y (map fst c)).
Proof.
  induction c as [|[z n] c IH]; simpl; intros Hn.
  - split; [constructor; [intros [] | constructor] |]. intros y [<- | []]. now left.
  - inversion Hn as [|? ? Hz Hc]; subst.
    destruct (String.eqb_spec z x) as [-> | Hzx]; simpl.
    + split; [exact Hn |]. intros y [<- | H]; [now left | right; now right].
    + destruct (IH Hc) as [I1 I2]. split.
      * constructor; [| exact I1]. intros H. destruct (I2 z H) as [-> | H']; [now elim Hzx | contradiction].
      * intros y [<- | H]; [right; now left |].
        destruct (I2 y H) as [-> | H']; [now left | right; now right].
Qed.

Lemma counter_keys_from (items : list string) :
  forall c, NoDup (map fst c) ->
            NoDup (map fst (fold_left (fun c x => count_add x c) items c)).
Proof.
  induction items as [|x items IH]; intros c Hn; simpl; [exact Hn |].
  apply IH. exact (proj1 (count_add_keys x c Hn)).
Qed.

Lemma held_entry (c : list (string * nat)) (y : string) (n : nat) :
  NoDup (map fst c) -> In (y, n) c -> held c y = n.
Proof.
  induction c as [|[z m] c IH]; simpl; intros Hn Hin; [destruct Hin |].
  inversion Hn as [|? ? Hz Hc]; subst.
  destruct Hin as [E | Hin].
  - injection E as -> ->. now rewrite String.eqb_refl.
  - destruct (String.eqb_spec z y) as [-> | _]; [| exact (IH Hc Hin)].
    exfalso. apply Hz. apply in_map_iff. exists (y, n). split; [reflexivity | exact Hin].
Qed.

Lemma held_positive (c : list (string * nat)) (y : string) :
  0 < held c y -> In (y, held c y) c.
Proof.
  induction c as [|[z m] c IH]; simpl; intros H; [lia |].
  destruct (String.eqb_spec z y) as [-> | _]; [now left | right; exact (IH H)].
Qed.

Lemma max_count_greatest (c : list (string * nat)) :
  forall best, In (max_count best c) (best :: c)
               /\ forall item, In item (best :: c) -> snd item <= snd (max_count best c).
Proof.
  induction c as [|x c IH]; intros best; simpl.
  - split; [now left |]. intros item [<- | []]. lia.
  - destruct (Nat.ltb (snd best) (snd x)) eqn:E.
    + destruct (IH x) as [I1 I2]. split; [right; exact I1 |].
      apply Nat.ltb_lt in E.
      intros item [<- | Hin]; [specialize (I2 x (or_introl eq_refl)); lia | exact (I2 item Hin)].
    + destruct (IH best) as [I1 I2]. split.
      * destruct I1 as [I1 | I1]; [now left | right; now right].
      * apply Nat.ltb_ge in E.
        intros item [<- | [<- | Hin]];
          [exact (I2 _ (or_introl eq_refl))
          | specialize (I2 best (or_introl eq_refl)); lia
          | exact (I2 item (or_intror Hin))].
Qed.

Lemma most_common_spec (items : list string) :
  match most_common items with
  | Some x => In x items /\ forall y, occurrences y items <= occurrences x items
  | None => items = []
  end.
Proof.
  unfold most_common.
  pose proof (counter_keys_from items [] (NoDup_nil _)) as Hn. fold (counter items) in Hn.
  pose proof (held_counter items) as Hh.
  destruct (counter items) as [|item c] eqn:Ec.
  - destruct items as [|x items]; [reflexivity |].
    specialize (Hh x). unfold occurrences in Hh. simpl in Hh.
    destruct (string_dec x x); [discriminate | contradiction].
  - destruct (max_count_greatest c item) as [Hin Hmax].
    set (best := max_count item c) in *.
    assert (Hbest : held (item :: c) (fst best) = snd best).
    { apply held_entry; [exact Hn | destruct best; exact Hin]. }
    assert (Hpos : forall y, occurrences y items <= snd best).
    { intros y. rewrite <- Hh.
      destruct (Nat.eq_dec (held (item :: c) y) 0) as [-> | Hy]; [lia |].
      exact (Hmax _ (held_positive (item :: c) y (proj1 (Nat.neq_0_lt_0 _) Hy))). }
    rewrite Hh in Hbest. split.
    + assert (H1 : 1 <= snd best).
      { destruct items as [|x items]; [discriminate Ec |].
        specialize (Hpos x). unfold occurrences in Hpos. simpl in Hpos.
        destruct (string_dec x x); [lia | contradiction]. }
      unfold occurrences in Hbest. apply (count_occ_In string_dec). lia.
    + intros y. rewrite Hbest. exact (Hpos y).
Qed.

(** The dominant quality of an album is a quality of one of its tracks, and no
    quality occurs more often among them.  When some track has an artist,
    the artist of the album is one of the track artists, and none occurs more
    often. *)
Theorem album_majority_votes (key : album_key) (ts : list TrackResult) :
  let a := make_album key ts in
  (ts <> [] ->
   In (dominant_quality a) (map quality ts)
   /\ forall q, occurrences q (map quality ts) <= occurrences (dominant_quality a) (map quality ts))
  /\ (truthy_artists ts <> [] ->
      exists x, album_artist a = Some x
                /\ In x (truthy_artists ts)
                /\ forall y, occurrences y (truthy_artists ts) <= occurrences x (truthy_artists ts)).
Proof.
  cbv zeta. unfold make_album. cbn [dominant_quality album_artist]. split.
  - intros Hne. pose proof (most_common_spec (map quality ts)) as H.
    destruct (most_common (map quality ts)) as [q |]; [exact H |].
    destruct ts; [now elim Hne | discriminate H].
  - intros Hne. unfold _determine_album_artist.
    pose proof (most_common_spec (truthy_artists ts)) as H.
    destruct (most_common (truthy_artists ts)) as [x |]; [| contradiction].
    exists x. split; [reflexivity | exact H].
Qed.

(** ** Years *)

Lemma drop_drop (i j : nat) (s : string) : drop (i + j) s = drop j (drop i s).
Proof.
  revert s. induction i as [|i IH]; intros s; [reflexivity |].
  destruct s as [|c s]; simpl; [destruct j; reflexivity | apply IH].
Qed.

Lemma search_from_found (icase : bool) (r : regex) (s : string) :
  forall pos p m,
    search_from icase r pos s = Some (p, m) ->
    exists k, p = pos + k /\ match_at icase r p (drop k s) = Some m.
Proof.
  induction s as [|c s IH]; intros pos p m; simpl.
  - destruct (match_at icase r pos "") as [m' |] eqn:E; [| discriminate].
    intros H. injection H as <- <-. exists 0. rewrite Nat.add_0_r. split; [reflexivity | exact E].
  - destruct (match_at icase r pos (String c s)) as [m' |] eqn:E.
    + intros H. injection H as <- <-. exists 0. rewrite Nat.add_0_r. split; [reflexivity | exact E].
    + intros H. destruct (IH _ _ _ H) as (k & -> & Hm).
      exists (S k). split; [lia | exact Hm].
Qed.

(** One [Atom One] of a pattern read against the text. *)
Ltac read_char s :=
  let c := fresh "c" in
  let E := fresh "E" in
  unfold one at 1;
  destruct s as [|c s]; [discriminate |];
  match goal with
  | |- (if ?b then _ else _) = _ -> _ => destruct b eqn:E; [| discriminate]
  end.

Ltac at_end s :=
  let E := fresh "E" in
  match goal with
  | |- (if ?b then _ else _) = _ -> _ => destruct b eqn:E; [| discriminate]
  end.

Lemma year_pattern_spans (r : regex) (p : nat) (s : string) (m : result) :
  In r year_patterns -> match_at false r p s = Some m -> spans_digits p s m.
Proof.
  unfold year_patterns. intros [<- | [<- | [<- | [<- | [<- | []]]]]];
    unfold match_at, digit4, group; cbn [lit app compile quantified cmatch].
  - read_char s. read_char s. read_char s. read_char s. read_char s. read_char s.
    intros H. injection H as <-.
    exists 1, (String c4 s), (String c0 (String c1 (String c2 (String c3 "")))).
    split; [simpl; do 2 f_equal; lia |]. split; [reflexivity |].
    exists c0, c1, c2, c3. repeat split; assumption.
  - read_char s. read_char s. read_char s. read_char s. read_char s. read_char s.
    intros H. injection H as <-.
    exists 1, (String c4 s), (String c0 (String c1 (String c2 (String c3 "")))).
    split; [simpl; do 2 f_equal; lia |]. split; [reflexivity |].
    exists c0, c1, c2, c3. repeat split; assumption.
  - read_char s. read_char s. read_char s. read_char s. read_char s. read_char s.
    at_end s.
    intros H. injection H as <-.
    exists 2, s, (String c1 (String c2 (String c3 (String c4 "")))).
    split; [simpl; do 2 f_equal; lia |]. split; [reflexivity |].
    exists c1, c2, c3, c4. repeat split; assumption.
  - read_char s. read_char s. read_char s. read_char s. read_char s. read_char s.
    intros H. injection H as <-.
    exists 1, (String c4 s), (String c0 (String c1 (String c2 (String c3 "")))).
    split; [simpl; do 2 f_equal; lia |]. split; [reflexivity |].
    exists c0, c1, c2, c3. repeat split; assumption.
  - read_char s. read_char s. read_char s. read_char s. read_char s.
    at_end s.
    intros H. injection H as <-.
    exists 1, s, (String c0 (String c1 (String c2 (String c3 "")))).
    split; [simpl; do 2 f_equal; lia |]. split; [reflexivity |].
    exists c0, c1, c2, c3. repeat split; assumption.
Qed.

Lemma take_app (y rest : string) : take (String.length y) (y ++ rest) = y.
Proof. induction y as [|c y IH]; simpl; [destruct rest; reflexivity | now rewrite IH]. Qed.

Lemma int_digits_some (s : string) :
  all_chars is_digit s = true -> forall acc, exists n, int_digits acc s = Some n.
Proof.
  induction s as [|c s IH]; simpl; intros H acc; [now exists acc |].
  apply andb_true_iff in H as [Hc Hs]. rewrite Hc. apply IH. exact Hs.
Qed.

Lemma first_year_valid (patterns : list regex) (text y : string) :
  (forall r, In r patterns -> In r year_patterns) ->
  first_year patterns text = Some y ->
  year_text y /\ exists n, int_of y = Some n /\ (1900 <= n <= 2030)%Z.
Proof.
  induction patterns as [|r patterns IH]; intros Hsub; simpl; [discriminate |].
  assert (Hrest : forall r', In r' patterns -> In r' year_patterns)
    by (intros r' H; apply Hsub; now right).
  unfold search_groups.
  destruct (search_from false r 0 text) as [[p m] |] eqn:Es; simpl; [| exact (IH Hrest)].
  destruct (search_from_found false r text 0 p m Es) as (k & -> & Hm).
  destruct (year_pattern_spans r _ _ m (Hsub r (or_introl eq_refl)) Hm)
    as (off & rest & y' & Hcaps & Hdrop & Hy).
  unfold groups_of. rewrite Hcaps. simpl map.
  assert (Ey : slice (0 + k + off) (0 + k + off + 4) text = y').
  { unfold slice. replace (0 + k + off + 4 - (0 + k + off)) with 4 by lia.
    simpl (0 + k). rewrite drop_drop, Hdrop.
    destruct Hy as (d1 & d2 & d3 & d4 & -> & _). reflexivity. }
  simpl (0 + k) in Ey. cbn [fst snd]. rewrite Ey.
  destruct (int_of y') as [n |] eqn:En; [| exact (IH Hrest)].
  destruct ((1900 <=? n)%Z && (n <=? 2030)%Z) eqn:Er; [| exact (IH Hrest)].
  intros H. injection H as <-. split; [exact Hy |].
  exists n. split; [exact En |].
  apply andb_true_iff in Er as [E1 E2]. apply Z.leb_le in E1. apply Z.leb_le in E2. lia.
Qed.

(** A year that [_extract_year] returns is a text of four decimal digits that
    reads as a number from 1900 to 2030. *)
Theorem extracted_year_is_valid (album_path album_title y : string) :
  _extract_year album_path album_title = Some y ->
  String.length y = 4
  /\ all_chars is_digit y = true
  /\ exists n, int_of y = Some n /\ (1900 <= n <= 2030)%Z.
Proof.
  intros H. unfold _extract_year in H.
  destruct (first_year_valid year_patterns _ y (fun r Hr => Hr) H) as (Hy & Hn).
  destruct Hy as (d1 & d2 & d3 & d4 & -> & H1 & H2 & H3 & H4).
  split; [reflexivity |]. split; [simpl; now rewrite H1, H2, H3, H4 | exact Hn].
Qed.

(** A directory named after artist, album and year. *)
Lemma extracted_year_is_valid_witness :
  _extract_year "Music/Queen - A Night at the Opera (1975)"
                (_extract_album_title "Music/Queen - A Night at the Opera (1975)")
    = Some "1975"%string
  /\ String.length "1975" = 4.
Proof.
  assert (E : _extract_year "Music/Queen - A Night at the Opera (1975)"
                (_extract_album_title "Music/Queen - A Night at the Opera (1975)")
              = Some "1975"%string)
    by (vm_compute; reflexivity).
  split; [exact E |].
  exact (proj1 (extracted_year_is_valid _ _ _ E)).
Defined.

End AggregationFacts.

(* ================================================================== *)
(** * Facts: downloads *)
(* ================================================================== *)

Module DownloadFacts.
Import Text SoulseekClient.

(** What a request brings [download]: the id read off its response, or nothing
    when there is no response or reading the id raises. *)
Definition answer (service : Service) (filename : string) (n : nat) (request : Request)
  : option json :=
  match service n request with
  | JNull => None
  | response =>
      match download_id filename response with
      | Returned id => Some id
      | Raised => None
      end
  end.

(** A download as slskd lists it, with the keys that are always there and
    the optional [progress]. *)
Record FileEntry : Type := mkFileEntry {
  entry_id : string;
  entry_filename : string;
  entry_state : string;
  entry_progress : option float;
  entry_size : Z
}.

(** A peer with its directories. *)
Definition UserEntry : Type := (string * list (list FileEntry))%type.

Definition encode_file (f : FileEntry) : json :=
  JDict ([("id", JStr (entry_id f)); ("filename", JStr (entry_filename f));
          ("state", JStr (entry_state f)); ("size", JInt (entry_size f))]%string
         ++ match entry_progress f with
            | Some p => [("progress"%string, JFloat p)]
            | None => []
            end).

Definition encode_directory (files : list FileEntry) : json :=
  JDict [("files"%string, JList (map encode_file files))].

Definition encode_user (u : UserEntry) : json :=
  JDict [("username", JStr (fst u));
         ("directories", JList (map encode_directory (snd u)))]%string.

(** The status [get_all_downloads] is expected to give for a file. *)
Definition expected_status (username : string) (f : FileEntry) : DownloadStatus :=
  mkDownloadStatus (JStr (entry_id f)) (JStr (entry_filename f)) (JStr username)
    (JStr (entry_state f))
    (if startswith "completed" (lower (entry_state f)) then 100.0%float
     else match entry_progress f with Some p => p | None => 0.0%float end)
    (JInt (entry_size f)) (JInt 0) (JInt 0) JNull.

Definition expected_statuses (users : list UserEntry) : list DownloadStatus :=
  flat_map (fun u => flat_map (map (expected_status (fst u))) (snd u)) users.

(** A service that accepts every request with an empty JSON object, as slskd
    does when it answers 201 with no content. *)
Definition accepting : Service := fun _ _ => JDict [].

(** A reading of float literals that accepts none. *)
Definition no_literal (s : string) : option float := None.

(** Two peers: the first with two directories, the second with none. *)
Definition sample_users : list UserEntry :=
  [ ("alice"%string,
     [ [ mkFileEntry "1" "a/01.flac" "Completed, Succeeded" (Some 37.5%float) 100;
         mkFileEntry "2" "a/02.flac" "InProgress" (Some 37.5%float) 200 ];
       [ mkFileEntry "3" "b/01.mp3" "Queued, Remotely" None 300 ] ]);
    ("bob"%string, []) ].

(** A file whose state is [null]. *)
Definition stateless_file : json :=
  JDict [("id", JStr "4"); ("state", JNull)]%string.

Definition broken_user : json :=
  JDict [("username", JStr "carol");
         ("directories", JList [JDict [("files", JList [stateless_file])]])]%string.

Lemma try_endpoints_step (service : Service) (filename : string) (request : Request)
                         (others : list Request) (n : nat) (made : list Request) :
  try_endpoints service filename (request :: others) n made =
  match answer service filename n request with
  | Some id => (id, request :: made)
  | None => try_endpoints service filename others (S n) (request :: made)
  end.
Proof.
  cbn [try_endpoints]. unfold answer.
  destruct (service n request) as [| b | z | x | t | l | d]; [reflexivity | | | | | |];
    match goal with
    | |- context [download_id filename ?r] => destruct (download_id filename r); reflexivity
    end.
Qed.

Lemma try_endpoints_spec (service : Service) (filename : string) (requests : list Request) :
  forall n made,
    let '(result, made') := try_endpoints service filename requests n made in
    exists k,
      made' = rev (firstn k requests) ++ made
      /\ k <= List.length requests
      /\ (forall i request, i + 1 < k -> nth_error requests i = Some request ->
                            answer service filename (n + i) request = None)
      /\ ((k = List.length requests /\ result = JNull
           /\ forall i request, nth_error requests i = Some request ->
                                answer service filename (n + i) request = None)
          \/ (exists request, nth_error requests (k - 1) = Some request /\ 1 <= k
                              /\ answer service filename (n + (k - 1)) request = Some result)).
Proof.
  induction requests as [|request others IH]; intros n made.
  - simpl. exists 0. split; [reflexivity | split; [lia | split]].
    + intros i r Hi. lia.
    + left. split; [reflexivity | split; [reflexivity |]]. intros [|i] r H; discriminate H.
  - rewrite try_endpoints_step. destruct (answer service filename n request) as [id |] eqn:Ea.
    + exists 1. split; [reflexivity | split; [simpl; lia | split]].
      * intros i r Hi. lia.
      * right. exists request. split; [reflexivity | split; [lia |]].
        rewrite Nat.add_0_r. exact Ea.
    + specialize (IH (S n) (request :: made)).
      destruct (try_endpoints service filename others (S n) (request :: made)) as [result made'].
      destruct IH as (k & Hm & Hk & Hbefore & Hend).
      exists (S k). split; [| split; [simpl; lia | split]].
      * rewrite Hm. simpl. rewrite <- app_assoc. reflexivity.
      * intros [|i] r Hi Hr.
        -- injection Hr as <-. rewrite Nat.add_0_r. exact Ea.
        -- replace (n + S i) with (S n + i) by lia. apply Hbefore; [lia | exact Hr].
      * destruct Hend as [(E1 & E2 & Hall) | (r & Hr & H1 & Ha)].
        -- left. split; [simpl; lia | split; [exact E2 |]].
           intros [|i] r Hr.
           ++ injection Hr as <-. rewrite Nat.add_0_r. exact Ea.
           ++ replace (n + S i) with (S n + i) by lia. exact (Hall i r Hr).
        -- right. exists r. split; [| split; [lia |]].
           ++ destruct k as [|k]; [lia |].
              replace (S (S k) - 1) with (S (S k - 1)) by lia. exact Hr.
           ++ replace (n + (S k - 1)) with (S n + (k - 1)) by lia. exact Ha.
Qed.

(** ** [download] *)

(** [download] posts to at most seven endpoints, always in the same order, and
    stops at the first that answers: the requests made are the first [k] of
    the seven; none before the last one made brought an id; and either the
    last one did, and that id is returned, or all seven were made, none
    brought an id, and [None] is returned.  A client that is not configured
    makes no request. *)
Theorem download_stops_at_first_answer
    (base_url : option string) (download_path : string) (service : Service)
    (username filename : string) (file_size : Z) :
  let requests := download_requests username filename file_size download_path in
  let result := fst (download base_url download_path service username filename file_size) in
  let made := rev (snd (download base_url download_path service username filename file_size)) in
  List.length requests = 7
  /\ (Py.truthy_str base_url = false -> result = JNull /\ made = [])
  /\ (Py.truthy_str base_url = true ->
      exists k,
        made = firstn k requests
        /\ 1 <= k <= 7
        /\ (forall i request, i + 1 < k -> nth_error requests i = Some request ->
                              answer service filename i request = None)
        /\ ((k = 7 /\ result = JNull
             /\ forall i request, nth_error requests i = Some request ->
                                  answer service filename i request = None)
            \/ (exists request, nth_error requests (k - 1) = Some request
                                /\ answer service filename (k - 1) request = Some result))).
Proof.
  cbv zeta. split; [reflexivity |]. unfold download. split.
  - intros ->. split; reflexivity.
  - intros ->. cbn [negb].
    pose proof (try_endpoints_spec service filename
                  (download_requests username filename file_size download_path) 0 []) as H.
    destruct (try_endpoints service filename
                (download_requests username filename file_size download_path) 0 [])
      as [result made].
    destruct H as (k & Hm & Hk & Hbefore & Hend). cbn [fst snd].
    assert (Hlen : List.length (download_requests username filename file_size download_path) = 7)
      by reflexivity.
    exists k. rewrite Hm, app_nil_r, rev_involutive.
    split; [reflexivity |].
    split.
    + split; [| lia]. destruct Hend as [(E & _) | (r & _ & H1 & _)]; lia.
    + split; [exact Hbefore |].
      destruct Hend as [(E1 & E2 & Hall) | (r & Hr & H1 & Ha)].
      * left. split; [lia | split; [exact E2 | exact Hall]].
      * right. exists r. split; [exact Hr | exact Ha].
Qed.

(** When the first endpoint answers with a JSON object that has no [id], as
    it does when slskd accepts the download with an empty reply, [download]
    returns the file name in place of an id and makes no other request. *)
Theorem download_falls_back_to_filename
    (base_url : string) (download_path : string) (service : Service)
    (username filename : string) (file_size : Z) (d : list (string * json)) :
  base_url <> EmptyString ->
  service 0 (post ("transfers/downloads/" ++ username)
                  (download_data filename file_size download_path)) = JDict d ->
  lookup "id" d = None ->
  download (Some base_url) download_path service username filename file_size
  = (JStr filename,
     [post ("transfers/downloads/" ++ username) (download_data filename file_size download_path)]).
Proof.
  intros Hb Hs Hd. unfold download. unfold Py.truthy_str.
  destruct (String.eqb_spec base_url ""); [contradiction |]. cbn [negb].
  unfold download_requests. rewrite try_endpoints_step. unfold answer.
  rewrite Hs. cbn [download_id]. rewrite Hd. reflexivity.
Qed.

(** The accepting service: one request, and the file name comes back. *)
Lemma download_falls_back_to_filename_witness :
  download (Some "http://localhost:5030"%string) "./downloads" accepting
           "alice" "a/01.flac" 100
  = (JStr "a/01.flac",
     [post "transfers/downloads/alice" (download_data "a/01.flac" 100 "./downloads")]).
Proof.
  apply (download_falls_back_to_filename "http://localhost:5030" "./downloads" accepting
           "alice" "a/01.flac" 100 []).
  - discriminate.
  - reflexivity.
  - reflexivity.
Defined.


(** ** [get_all_downloads] *)

Section Statuses.

Variable float_of_text : string -> option float.

Lemma file_status_encoded (username : string) (f : FileEntry) :
  file_status float_of_text (JStr username) (encode_file f)
  = Returned (expected_status username f).
Proof.
  unfold file_status, encode_file, expected_status. destruct f as [i n s p z].
  cbn [entry_id entry_filename entry_state entry_progress entry_size].
  cbn [get lookup app String.eqb Ascii.eqb Bool.eqb bind].
  destruct (startswith "completed" (lower s)); destruct p as [p |]; reflexivity.
Qed.

Lemma for_each_map {A B C : Type} (body : A -> outcome (list B)) (enc : C -> A)
                   (dec : C -> list B) (items : list C) :
  (forall x, body (enc x) = Returned (dec x)) ->
  for_each body (map enc items) = Returned (flat_map dec items).
Proof.
  intros H. induction items as [|x items IH]; simpl; [reflexivity |].
  rewrite H, IH. reflexivity.
Qed.

Lemma for_each_raises {A B : Type} (body : A -> outcome (list B)) (items : list A) (x : A) :
  In x items -> body x = Raised -> for_each body items = Raised.
Proof.
  intros Hin Hx. induction items as [|y items IH]; [destruct Hin |].
  simpl. destruct Hin as [-> | Hin].
  - rewrite Hx. reflexivity.
  - rewrite (IH Hin). destruct (body y); reflexivity.
Qed.

Lemma flat_map_singleton {A B : Type} (g : A -> B) (l : list A) :
  flat_map (fun x => [g x]) l = map g l.
Proof. induction l as [|x l IH]; simpl; [reflexivity | now rewrite IH]. Qed.

Lemma directory_statuses_encoded (username : string) (files : list FileEntry) :
  directory_statuses float_of_text (JStr username) (encode_directory files)
  = Returned (map (expected_status username) files).
Proof.
  unfold directory_statuses, encode_directory.
  cbn [get lookup String.eqb Ascii.eqb Bool.eqb bind iterate].
  rewrite (for_each_map _ encode_file (fun f => [expected_status username f])).
  - now rewrite flat_map_singleton.
  - intros f. rewrite file_status_encoded. reflexivity.
Qed.

Lemma user_statuses_encoded (u : UserEntry) :
  user_statuses float_of_text (encode_user u)
  = Returned (flat_map (map (expected_status (fst u))) (snd u)).
Proof.
  unfold user_statuses, encode_user.
  cbn [get lookup String.eqb Ascii.eqb Bool.eqb bind iterate].
  apply for_each_map. intros files. apply directory_statuses_encoded.
Qed.

(** [get_all_downloads] on the list slskd sends, peers with their
    directories with their files: one status for each file, in the order of
    the list, under the name of its peer.  A file whose state starts with
    "completed", in any case, is at 100.0 whatever its [progress] says;
    another file is at its [progress], or at 0.0 without one.  The number of
    statuses is the number of files. *)
Theorem get_all_downloads_flattens (base_url : string) (users : list UserEntry) :
  base_url <> EmptyString ->
  get_all_downloads float_of_text (Some base_url) (JList (map encode_user users))
  = expected_statuses users
  /\ List.length (expected_statuses users)
     = list_sum (map (fun u => list_sum (map (@List.length FileEntry) (snd u))) users).
Proof.
  intros Hb. split.
  - unfold get_all_downloads, Py.truthy_str.
    destruct (String.eqb_spec base_url ""); [contradiction |]. cbn [negb].
    destruct users as [|u users]; [reflexivity |].
    cbn [map truthy negb iterate bind].
    change (encode_user u :: map encode_user users) with (map encode_user (u :: users)).
    rewrite (for_each_map _ encode_user
               (fun u => flat_map (map (expected_status (fst u))) (snd u))
               (u :: users) user_statuses_encoded).
    reflexivity.
  - unfold expected_statuses. induction users as [|u users IH]; [reflexivity |].
    simpl. rewrite length_app, IH. f_equal.
    generalize (snd u). intros dirs. induction dirs as [|d dirs IHd]; [reflexivity |].
    simpl. rewrite length_app, length_map, IHd. reflexivity.
Qed.

(** One entry that cannot be read empties the whole result: when reading any
    peer of the list raises, [get_all_downloads] returns the empty list. *)
Theorem get_all_downloads_all_or_nothing
    (base_url : option string) (response : list json) (user_data : json) :
  In user_data response ->
  user_statuses float_of_text user_data = Raised ->
  get_all_downloads float_of_text base_url (JList response) = [].
Proof.
  intros Hin Hr. unfold get_all_downloads.
  destruct (negb (Py.truthy_str base_url)); [reflexivity |].
  destruct (negb (truthy (JList response))); [reflexivity |].
  cbn [iterate bind]. rewrite (for_each_raises _ _ _ Hin Hr). reflexivity.
Qed.

End Statuses.

(** Three files of two peers: the first is complete and at 100.0 although its
    [progress] says 37.5. *)
Lemma get_all_downloads_flattens_witness :
  map (fun s => (status_username s, status_id s, status_progress s))
      (get_all_downloads no_literal (Some "http://localhost:5030"%string)
         (JList (map encode_user sample_users)))
  = [ (JStr "alice", JStr "1", 100.0%float);
      (JStr "alice", JStr "2", 37.5%float);
      (JStr "alice", JStr "3", 0.0%float) ].
Proof.
  assert (Hb : "http://localhost:5030"%string <> EmptyString) by discriminate.
  rewrite (proj1 (get_all_downloads_flattens no_literal "http://localhost:5030"
                    sample_users Hb)).
  reflexivity.
Defined.

(** The three files again, followed by a peer with a file whose state is
    [null]: nothing is returned. *)
Lemma get_all_downloads_all_or_nothing_witness :
  get_all_downloads no_literal (Some "http://localhost:5030"%string)
    (JList (map encode_user sample_users ++ [broken_user])) = [].
Proof.
  apply (get_all_downloads_all_or_nothing no_literal _ _ broken_user).
  - apply in_or_app. right. left. reflexivity.
  - reflexivity.
Defined.


(** ** [search_and_download_best] *)

(** [search_and_download_best] never returns.  [search] returns the pair of
    its two lists; the pair is never empty, and the first thing read off its
    first member, a list, is the attribute [quality], which a list has not.
    The search has run by then; no download is requested. *)
Theorem search_and_download_best_raises
    (backend : Backend) (download_path : string) (service : Service)
    (query preferred_quality : string) :
  search_and_download_best backend download_path service query preferred_quality
  = (Raised, search_session backend 30 None, []).
Proof. reflexivity. Qed.

End DownloadFacts.

(* ================================================================== *)
(** * Facts: the scan manager *)
(* ================================================================== *)

Module ScanFacts.
Import PlexScanManager.

(** The manager is idle or pending: no scan is in progress, and the only
    live timer, if any, is the debounce timer the manager holds. *)
Definition idle_or_pending (w : World) : Prop :=
  _scan_in_progress (mgr w) = false
  /\ wedged w = false
  /\ ((timers w = [] /\ _timer (mgr w) = None)
      \/ (exists t, timers w = [t] /\ runs t = ExecuteScan /\ _timer (mgr w) = Some (timer_id t))).

(** A scan is in progress and is being monitored: the only live timer is the
    next poll [p], and the scan will not have timed out when [p] fires. *)
Definition monitored (w : World) (p : Timer) : Prop :=
  _scan_in_progress (mgr w) = true
  /\ wedged w = false
  /\ _timer (mgr w) = None
  /\ timers w = [p]
  /\ runs p = PollScanStatus
  /\ match _scan_start_time (mgr w) with
     | Some t => (Z.max (now w) (due p) - t <= _max_scan_time (mgr w))%Z
     | None => True
     end.

(** No debounce timer is live and no follow-up is asked for: nothing can
    start a scan but a new request. *)
Definition quiet (w : World) : Prop :=
  (forall t, In t (timers w) -> runs t = PollScanStatus)
  /\ _downloads_during_scan (mgr w) = false.

(** A Plex server that accepts every scan and reports it finished at the
    first poll. *)
Definition prompt_plex : Plex := mkPlex (fun _ => Yes) (fun _ => No).

(** A manager with the default delay, created at time 0, whose first scan
    has started at time 60: the poll is due at time 75. *)
Definition scanning_world : World :=
  fire_next prompt_plex (request_scan (init 60 0)).

Definition first_poll : Timer := mkTimer 1 75 PollScanStatus.

(** A Plex server that accepts every scan and never reports it finished. *)
Definition busy_plex : Plex := mkPlex (fun _ => Yes) (fun _ => Yes).

(** A scan is in progress and one poll of its status is scheduled. *)
Definition scanning (w : World) : Prop :=
  _scan_in_progress (mgr w) = true
  /\ wedged w = false
  /\ _timer (mgr w) = None
  /\ exists p, timers w = [p] /\ runs p = PollScanStatus.

(** A poll found the scan too old and waits for [_lock] for ever. *)
Definition blocked (w : World) : Prop :=
  wedged w = true /\ _scan_in_progress (mgr w) = true /\ timers w = [].

(** What can happen to a manager whose methods run one at a time: a call of
    one of its public methods, the next timer firing with its thread run on
    its own, or time passing. *)
Inductive event : Type :=
| Request
| Force
| Shutdown
| AddCallback (c : nat)
| RemoveCallback (c : nat)
| Fire
| Wait (t : Z).

Definition step (plex_client : Plex) (w : World) (e : event) : World :=
  match e with
  | Request => request_scan w
  | Force => force_scan plex_client w
  | Shutdown => shutdown w
  | AddCallback c => add_scan_completion_callback c w
  | RemoveCallback c => remove_scan_completion_callback c w
  | Fire => fire_next plex_client w
  | Wait t => wait_until t w
  end.

Definition run (plex_client : Plex) (events : list event) (w : World) : World :=
  fold_left (step plex_client) events w.

(** Requests that arrive at the given times, one after the other. *)
Definition burst (times : list Z) (w : World) : World :=
  fold_left (fun w t => request_scan (wait_until t w)) times w.

(** Each time is no earlier than the one before and less than [d] after it. *)
Fixpoint paced (d : Z) (t0 : Z) (times : list Z) : Prop :=
  match times with
  | [] => True
  | t :: times' => (t0 <= t < t0 + d)%Z /\ paced d t times'
  end.

(** A thread that holds the scan in progress: it stands between the section
    that set [_scan_in_progress] and the one that clears it. *)
Definition holds_scan (pos : position) : bool :=
  match pos with
  | at_trigger_library_scan | at_reset_scan_state | at_poll_scan_status
  | at_is_library_scanning | at_scan_completed | at_deadlock => true
  | _ => false
  end.

(** The timers are told apart by their ids, and the timer that [_timer]
    names, if it is still live, is a debounce timer. *)
Definition tidy (w : World) : Prop :=
  NoDup (map timer_id (timers w))
  /\ (forall t, In t (timers w) -> timer_id t < next_id w)
  /\ (forall id, _timer (mgr w) = Some id ->
        id < next_id w
        /\ forall t, In t (timers w) -> timer_id t = id -> runs t = ExecuteScan).

(** The threads that hold a scan. *)
Definition holding (l : list position) : nat := List.length (filter holds_scan l).

(** The polls that are scheduled. *)
Definition polls (w : World) : nat := List.length (live PollScanStatus w).

Definition weight (next : option position) : nat :=
  match next with
  | Some pos => if holds_scan pos then 1 else 0
  | None => 0
  end.

Definition progress (w : World) : nat := if _scan_in_progress (mgr w) then 1 else 0.

(** One thread or one poll holds the scan while [_scan_in_progress] is set,
    and none does while it is not. *)
Definition exclusive (s : System) : Prop :=
  tidy (world s)
  /\ holding (threads s) + polls (world s) = progress (world s).

(** A timer that runs a poll. *)
Definition polling (t : Timer) : bool :=
  match runs t with
  | PollScanStatus => true
  | ExecuteScan => false
  end.

Definition other_than (id : nat) (t : Timer) : bool := negb (Nat.eqb (timer_id t) id).

(** [tidy] on the parts of a world it speaks of. *)
Definition tidy_timers (ts : list Timer) (ni : nat) (tm : option nat) : Prop :=
  NoDup (map timer_id ts)
  /\ (forall t, In t ts -> timer_id t < ni)
  /\ (forall id, tm = Some id ->
        id < ni /\ forall t, In t ts -> timer_id t = id -> runs t = ExecuteScan).

(** A section that neither starts nor ends a scan nor touches a poll. *)
Definition steady (w w' : World) : Prop :=
  tidy w' /\ polls w' = polls w /\ progress w' = progress w.

(** [k] calls of [request_scan], one after the other. *)
Definition requests (k : nat) : list action := repeat call_request_scan k.


Ltac open_system w :=
  let m := fresh "m" in
  destruct w as [m ?nw ?ts ?ni ?tr ?sc ?cl ?wd]; destruct m as [?d ?tm ?ip ?dd ?cbs ?st ?mx].

(** ** The methods run on their own *)

(** A method that no other thread interrupts does under one hold of [_lock]
    what its sections do one after the other. *)
Lemma _execute_scan_alone (plex_client : Plex) (w : World) :
  _execute_scan plex_client w =
  locked (fun w =>
    if _scan_in_progress (mgr w) then w
    else
      let m := set_start_time
                 (set_timer (set_downloads (set_in_progress (mgr w) true) false) None)
                 (Some (now w)) in
      let w' := mkWorld m (now w) (timers w) (next_id w) (S (triggers w))
                        (status_checks w) (called w) (wedged w) in
      match trigger_library_scan plex_client (triggers w) with
      | Yes => _start_scan_monitoring w'
      | No | Raises => _reset_scan_state w'
      end) w.
Proof.
  destruct w as [m nw ts ni tr sc cl wd]. destruct m as [d tm ip dd cbs st mx].
  destruct wd; [reflexivity |]. destruct ip; [reflexivity |].
  unfold _execute_scan, alone, locked. cbn.
  destruct (trigger_library_scan plex_client tr); reflexivity.
Qed.

Lemma _scan_completed_alone (plex_client : Plex) (w : World) :
  _scan_completed plex_client w =
  locked (fun w =>
    let was_in_progress := _scan_in_progress (mgr w) in
    let downloads_during_scan := _downloads_during_scan (mgr w) in
    let w := with_mgr w (set_in_progress (mgr w) false) in
    if negb was_in_progress then w
    else
      let w := _call_completion_callbacks w in
      if downloads_during_scan then request_scan w else w) w.
Proof.
  destruct w as [m nw ts ni tr sc cl wd]. destruct m as [d tm ip dd cbs st mx].
  destruct wd; [reflexivity |]. destruct ip; [| reflexivity].
  destruct dd; reflexivity.
Qed.

Lemma _poll_scan_status_alone (plex_client : Plex) (w : World) :
  _poll_scan_status plex_client w =
  locked (fun w =>
    if negb (_scan_in_progress (mgr w)) then w
    else if timed_out w then wedge w
    else
      let w' := mkWorld (mgr w) (now w) (timers w) (next_id w) (triggers w)
                        (S (status_checks w)) (called w) (wedged w) in
      match is_library_scanning plex_client (status_checks w) with
      | Yes => start_timer 30 PollScanStatus w'
      | No | Raises => _scan_completed plex_client w'
      end) w.
Proof.
  destruct w as [m nw ts ni tr sc cl wd]. destruct m as [d tm ip dd cbs st mx].
  destruct wd; [reflexivity |]. destruct ip; [| reflexivity].
  cbv beta iota zeta delta [_poll_scan_status _scan_completed alone locked sections complete
                            advance with_lock wedged mgr _scan_in_progress negb
                            status_checks].
  destruct (timed_out _); [reflexivity |].
  destruct (is_library_scanning plex_client sc); reflexivity.
Qed.

Lemma force_scan_alone (plex_client : Plex) (w : World) :
  force_scan plex_client w =
  locked (fun w =>
    let w := match _timer (mgr w) with
             | Some id => with_mgr (cancel id w) (set_timer (mgr w) None)
             | None => w
             end in
    if _scan_in_progress (mgr w) then w else _execute_scan plex_client w) w.
Proof.
  destruct w as [m nw ts ni tr sc cl wd]. destruct m as [d tm ip dd cbs st mx].
  destruct wd; [reflexivity |].
  destruct tm as [id |]; destruct ip; reflexivity.
Qed.

Lemma fire_next_alone (plex_client : Plex) (w : World) :
  fire_next plex_client w =
  match next_timer w with
  | None => w
  | Some t =>
      let w := cancel (timer_id t) w in
      let w := mkWorld (mgr w) (Z.max (now w) (due t)) (timers w) (next_id w) (triggers w)
                       (status_checks w) (called w) (wedged w) in
      match runs t with
      | ExecuteScan => _execute_scan plex_client w
      | PollScanStatus => _poll_scan_status plex_client w
      end
  end.
Proof.
  unfold fire_next, fire. destruct (next_timer w) as [t |]; [| reflexivity].
  destruct (runs t); reflexivity.
Qed.

(** ** Enough sections *)

Lemma advance_progress (plex_client : Plex) (pos pos' : position) (w w' : World) :
  advance plex_client pos w = (w', Some pos') ->
  sections pos' < sections pos \/ (pos' = pos /\ w' = w).
Proof.
  destruct pos; unfold advance, with_lock; cbv beta; intros H;
    repeat match type of H with
           | context [if ?b then _ else _] => destruct b
           | context [match ?x with _ => _ end] => destruct x
           end;
    inversion H; subst; try (left; simpl; lia); right; split; reflexivity.
Qed.

Lemma complete_waiting (plex_client : Plex) (pos : position) (w : World) (n : nat) :
  advance plex_client pos w = (w, Some pos) -> complete plex_client n pos w = w.
Proof.
  intros H. induction n as [|n IH]; [reflexivity |]. simpl. rewrite H. exact IH.
Qed.

(** More sections than [sections] counts change nothing: by then the
    method has returned, or the thread waits for a lock it cannot have. *)
Lemma complete_enough (plex_client : Plex) (m : nat) :
  forall pos, sections pos <= m ->
  forall n w, m <= n -> complete plex_client n pos w = complete plex_client m pos w.
Proof.
  induction m as [|m IH]; intros pos Hs n w Hn.
  - destruct pos; simpl in Hs; try lia.
    apply complete_waiting. reflexivity.
  - destruct n as [|n]; [lia |]. simpl.
    destruct (advance plex_client pos w) as [w' [pos' |]] eqn:E; [| reflexivity].
    destruct (advance_progress plex_client pos pos' w w' E) as [Hlt | [-> ->]].
    + apply IH; lia.
    + rewrite !(complete_waiting plex_client pos w _ E). reflexivity.
Qed.

Lemma alone_enough (plex_client : Plex) (pos : position) (w : World) (n : nat) :
  sections pos <= n -> complete plex_client n pos w = alone plex_client pos w.
Proof. intros H. exact (complete_enough plex_client (sections pos) pos (le_n _) n w H). Qed.

(** ** Timers *)

Lemma earliest_in (l : list Timer) : forall best, In (earliest best l) (best :: l).
Proof.
  induction l as [|t l IH]; intros best; simpl; [left; reflexivity |].
  destruct (due t <? due best)%Z.
  - right. exact (IH t).
  - destruct (IH best) as [H | H]; [left; exact H | right; right; exact H].
Qed.

Lemma next_timer_in (w : World) (t : Timer) : next_timer w = Some t -> In t (timers w).
Proof.
  unfold next_timer. destruct (timers w) as [|t0 l]; [discriminate |].
  intros H. injection H as <-. apply earliest_in.
Qed.

Lemma cancel_subset (id : nat) (w : World) (t : Timer) :
  In t (timers (cancel id w)) -> In t (timers w).
Proof. simpl. intros H. apply filter_In in H. exact (proj1 H). Qed.

(** ** Nothing starts a scan in a quiet world *)

Lemma poll_quiet (plex_client : Plex) (w : World) :
  quiet w ->
  quiet (_poll_scan_status plex_client w)
  /\ triggers (_poll_scan_status plex_client w) = triggers w.
Proof.
  intros [Ht Hd]. rewrite _poll_scan_status_alone; unfold locked.
  destruct (wedged w) eqn:Ew; [split; [split; assumption | reflexivity] |].
  destruct (_scan_in_progress (mgr w)) eqn:Ep; simpl;
    [| split; [split; assumption | reflexivity]].
  destruct (timed_out w); [split; [split; assumption | reflexivity] |].
  destruct (is_library_scanning plex_client (status_checks w)).
  - split; [| reflexivity]. split; [| exact Hd].
    simpl. intros t Hin. apply in_app_or in Hin as [Hin | [<- | []]];
      [exact (Ht t Hin) | reflexivity].
  - rewrite _scan_completed_alone; unfold locked. simpl. rewrite Ep, Hd. simpl.
    unfold _call_completion_callbacks, locked. simpl.
    split; [split; assumption | reflexivity].
  - rewrite _scan_completed_alone; unfold locked. simpl. rewrite Ep, Hd. simpl.
    unfold _call_completion_callbacks, locked. simpl.
    split; [split; assumption | reflexivity].
Qed.

Lemma fire_next_quiet (plex_client : Plex) (w : World) :
  quiet w ->
  quiet (fire_next plex_client w)
  /\ triggers (fire_next plex_client w) = triggers w.
Proof.
  intros Hq. rewrite !fire_next_alone; cbv zeta.
  destruct (next_timer w) as [t |] eqn:E; [| split; [exact Hq | reflexivity]].
  destruct Hq as [Ht Hd].
  rewrite (Ht t (next_timer_in w t E)).
  match goal with
  | |- quiet (_poll_scan_status _ ?w') /\ _ =>
      assert (Hq' : quiet w');
      [| destruct (poll_quiet plex_client w' Hq') as [H1 H2]; split; [exact H1 | exact H2]]
  end.
  split; [| exact Hd].
  simpl. intros t' Hin. apply filter_In in Hin. exact (Ht t' (proj1 Hin)).
Qed.

Lemma fire_many_quiet (plex_client : Plex) (n : nat) :
  forall w, quiet w -> triggers (fire_many plex_client n w) = triggers w.
Proof.
  induction n as [|n IH]; intros w Hq; simpl; [reflexivity |].
  destruct (fire_next_quiet plex_client w Hq) as [Hq' Ht].
  rewrite (IH _ Hq'). exact Ht.
Qed.

(** ** A pending scan starts once *)

Lemma execute_quiet (plex_client : Plex) (w : World) :
  _scan_in_progress (mgr w) = false -> wedged w = false ->
  (forall t, In t (timers w) -> runs t = PollScanStatus) ->
  quiet (_execute_scan plex_client w)
  /\ triggers (_execute_scan plex_client w) = S (triggers w).
Proof.
  intros Ep Ew Ht. rewrite _execute_scan_alone; unfold locked. rewrite Ew, Ep.
  destruct (trigger_library_scan plex_client (triggers w)).
  - split; [| reflexivity]. split; [| reflexivity].
    simpl. intros t Hin. apply in_app_or in Hin as [Hin | [<- | []]];
      [exact (Ht t Hin) | reflexivity].
  - unfold _reset_scan_state, locked. simpl.
    split; [split; [exact Ht | reflexivity] | reflexivity].
  - unfold _reset_scan_state, locked. simpl.
    split; [split; [exact Ht | reflexivity] | reflexivity].
Qed.

(** The only live timer is a debounce timer and no scan is in progress: the
    timer fires, one scan is triggered, and the world is quiet from then
    on. *)
Lemma pending_fires_once (plex_client : Plex) (w : World) (e : Timer) :
  _scan_in_progress (mgr w) = false -> wedged w = false ->
  timers w = [e] -> runs e = ExecuteScan ->
  quiet (fire_next plex_client w)
  /\ triggers (fire_next plex_client w) = S (triggers w)
  /\ now (fire_next plex_client w) = Z.max (now w) (due e).
Proof.
  intros Ep Ew Et Er. rewrite fire_next_alone; unfold next_timer. rewrite Et. simpl earliest. cbv iota beta.
  rewrite Er.
  match goal with
  | |- quiet (_execute_scan _ ?w') /\ _ =>
      assert (H1 : _scan_in_progress (mgr w') = false) by exact Ep;
      assert (H2 : wedged w' = false) by exact Ew;
      assert (H3 : timers w' = [])
  end.
  { simpl. rewrite Et. simpl. rewrite Nat.eqb_refl. reflexivity. }
  match goal with
  | |- quiet (_execute_scan _ ?w') /\ _ =>
      destruct (execute_quiet plex_client w' H1 H2) as [Hq Htr]
  end.
  { rewrite H3. intros t []. }
  split; [exact Hq | split; [exact Htr |]].
  rewrite _execute_scan_alone; unfold locked. simpl. rewrite Ew, Ep.
  destruct (trigger_library_scan plex_client (triggers w)); reflexivity.
Qed.

Lemma pending_triggers_once (plex_client : Plex) (w : World) (e : Timer) :
  _scan_in_progress (mgr w) = false -> wedged w = false ->
  timers w = [e] -> runs e = ExecuteScan ->
  forall n, 1 <= n -> triggers (fire_many plex_client n w) = S (triggers w).
Proof.
  intros Ep Ew Et Er n Hn. destruct n as [|n]; [lia |]. simpl.
  destruct (pending_fires_once plex_client w e Ep Ew Et Er) as (Hq & Htr & _).
  rewrite (fire_many_quiet plex_client n _ Hq). exact Htr.
Qed.

(** ** Requests while idle or pending *)

Lemma request_scan_idle (w : World) :
  idle_or_pending w ->
  request_scan w =
  mkWorld (set_timer (mgr w) (Some (next_id w))) (now w)
          [mkTimer (next_id w) (now w + delay (mgr w)) ExecuteScan]
          (S (next_id w)) (triggers w) (status_checks w) (called w) false.
Proof.
  intros (Ep & Ew & Ht). unfold request_scan, locked. rewrite Ew, Ep.
  unfold cancel_current.
  destruct Ht as [[Et En] | (t & Et & Er & En)]; rewrite En.
  - unfold start_timer, with_mgr. simpl. rewrite Et, Ew. reflexivity.
  - unfold start_timer, with_mgr, cancel. simpl. rewrite Et, Ew. simpl.
    rewrite Nat.eqb_refl. reflexivity.
Qed.

Lemma request_scan_pending (w : World) :
  idle_or_pending w -> idle_or_pending (request_scan w).
Proof.
  intros H. rewrite (request_scan_idle w H). destruct H as (Ep & Ew & _).
  split; [destruct (mgr w); exact Ep | split; [reflexivity |]].
  right. eexists. split; [reflexivity | split; reflexivity].
Qed.

Lemma wait_until_pending (t : Z) (w : World) :
  idle_or_pending w -> idle_or_pending (wait_until t w).
Proof. intros H. exact H. Qed.

(** C4: two [request_scan] calls made while the manager is idle or pending,
    the second before the debounce delay of the first has elapsed, lead to
    exactly one remote scan trigger.  The second call cancels the timer the
    first one armed and arms a new one, due a full delay after the second
    call: there is one live timer, not two; nothing is triggered before it
    fires; and from the moment it fires on, one scan has been triggered,
    however long the timers go on firing. *)
Theorem debounce_restarts_countdown (plex_client : Plex) (w0 : World) (t1 : Z) :
  idle_or_pending w0 ->
  (now w0 <= t1 < now w0 + delay (mgr w0))%Z ->
  let w1 := request_scan w0 in
  let w2 := request_scan (wait_until t1 w1) in
  timers w1 = [mkTimer (next_id w0) (now w0 + delay (mgr w0)) ExecuteScan]
  /\ timers w2 = [mkTimer (S (next_id w0)) (t1 + delay (mgr w0)) ExecuteScan]
  /\ triggers w2 = triggers w0
  /\ now (fire_next plex_client w2) = (t1 + delay (mgr w0))%Z
  /\ (forall n, 1 <= n -> triggers (fire_many plex_client n w2) = S (triggers w0)).
Proof.
  intros H0 Ht1 w1 w2. subst w1 w2.
  pose proof (request_scan_idle w0 H0) as E1.
  pose proof (wait_until_pending t1 _ (request_scan_pending w0 H0)) as H1.
  set (v := wait_until t1 (request_scan w0)) in *.
  assert (Hv : delay (mgr v) = delay (mgr w0) /\ now v = t1
               /\ next_id v = S (next_id w0) /\ triggers v = triggers w0).
  { unfold v. rewrite E1. simpl. destruct (mgr w0).
    split; [reflexivity | split; [lia | split; reflexivity]]. }
  destruct Hv as (Hdelay & Hnow & Hid & Htr).
  pose proof (request_scan_idle v H1) as E2.
  rewrite Hdelay, Hnow, Hid, Htr in E2.
  destruct (request_scan_pending v H1) as (P2 & W2 & _).
  assert (T2 : timers (request_scan v)
               = [mkTimer (S (next_id w0)) (t1 + delay (mgr w0)) ExecuteScan])
    by (rewrite E2; reflexivity).
  assert (R2 : triggers (request_scan v) = triggers w0) by (rewrite E2; reflexivity).
  assert (N2 : now (request_scan v) = t1) by (rewrite E2; reflexivity).
  split; [rewrite E1; reflexivity |].
  split; [exact T2 |].
  split; [exact R2 |].
  split.
  - destruct (pending_fires_once plex_client _ _ P2 W2 T2 eq_refl) as (_ & _ & Hn).
    rewrite Hn, N2. simpl. lia.
  - intros n Hn. rewrite <- R2.
    exact (pending_triggers_once plex_client _ _ P2 W2 T2 eq_refl n Hn).
Qed.

Lemma init_idle (delay_seconds t : Z) : idle_or_pending (init delay_seconds t).
Proof. split; [reflexivity | split; [reflexivity | left; split; reflexivity]]. Qed.

(** Two requests ten seconds apart, with the default delay of sixty. *)
Lemma debounce_restarts_countdown_witness :
  let w2 := request_scan (wait_until 10 (request_scan (init 60 0))) in
  timers w2 = [mkTimer 1 70 ExecuteScan]
  /\ (forall n, 1 <= n -> triggers (fire_many prompt_plex n w2) = 1).
Proof.
  assert (Hb : (now (init 60 0) <= 10 < now (init 60 0) + delay (mgr (init 60 0)))%Z)
    by (simpl; lia).
  pose proof (debounce_restarts_countdown prompt_plex (init 60 0) 10 (init_idle 60 0) Hb) as H.
  cbv zeta in H. destruct H as (_ & H2 & _ & _ & H5).
  split; [exact H2 | exact H5].
Defined.

(** ** Requests during a scan, and its completion *)

Lemma request_during_scan (w : World) :
  _scan_in_progress (mgr w) = true -> wedged w = false ->
  request_scan w = with_mgr w (set_downloads (mgr w) true).
Proof. intros Ep Ew. unfold request_scan, locked. rewrite Ew, Ep. reflexivity. Qed.




Lemma scanning_world_monitored : monitored scanning_world first_poll.
Proof.
  repeat split; try reflexivity. vm_compute. discriminate.
Qed.



(** ** What [_execute_scan] leaves *)

Ltac open_world w :=
  let m := fresh "m" in
  destruct w as [m ? ? ? ? ? ? ?]; destruct m; simpl in *; subst.

Lemma execute_shape (plex_client : Plex) (w : World) :
  _scan_in_progress (mgr w) = false -> wedged w = false -> timers w = [] ->
  let w' := _execute_scan plex_client w in
  triggers w' = S (triggers w)
  /\ now w' = now w
  /\ match trigger_library_scan plex_client (triggers w) with
     | Yes => scanning w' /\ timers w' = [mkTimer (next_id w) (now w + 15) PollScanStatus]
              /\ _scan_start_time (mgr w') = Some (now w)
     | _ => idle_or_pending w' /\ timers w' = [] /\ _timer (mgr w') = None
     end.
Proof.
  intros Ep Ew Et. open_world w. rewrite _execute_scan_alone; unfold locked. simpl.
  destruct (trigger_library_scan plex_client _); simpl;
    (split; [reflexivity | split; [reflexivity |]]).
  - split; [| split; reflexivity].
    split; [reflexivity | split; [reflexivity | split; [reflexivity |]]].
    eexists. split; reflexivity.
  - split; [| split; reflexivity].
    split; [reflexivity | split; [reflexivity | left; split; reflexivity]].
  - split; [| split; reflexivity].
    split; [reflexivity | split; [reflexivity | left; split; reflexivity]].
Qed.

Lemma cancelled_pending (w : World) (id : nat) :
  idle_or_pending w -> _timer (mgr w) = Some id ->
  timers (with_mgr (cancel id w) (set_timer (mgr w) None)) = [].
Proof.
  intros (Ep & Ew & [[Et En] | (t & Et & Er & En)]) Hid.
  - rewrite En in Hid. discriminate.
  - rewrite En in Hid. injection Hid as <-. simpl. rewrite Et. simpl.
    rewrite Nat.eqb_refl. reflexivity.
Qed.

(** ** Scans do not overlap *)

Lemma live_polling (w : World) : live PollScanStatus w = filter polling (timers w).
Proof.
  unfold live. apply filter_ext. intros t. unfold polling. destruct (runs t); reflexivity.
Qed.

Lemma polls_filter (w : World) : polls w = List.length (filter polling (timers w)).
Proof. unfold polls. now rewrite live_polling. Qed.


Lemma tidy_open (w : World) : tidy w = tidy_timers (timers w) (next_id w) (_timer (mgr w)).
Proof. reflexivity. Qed.

Lemma NoDup_map_filter (p : Timer -> bool) (l : list Timer) :
  NoDup (map timer_id l) -> NoDup (map timer_id (filter p l)).
Proof.
  induction l as [|x l IH]; simpl; intros H; [constructor |].
  inversion H as [|? ? Hx Hl]; subst. destruct (p x); simpl; [| exact (IH Hl)].
  constructor; [| exact (IH Hl)].
  intros Hin. apply Hx. apply in_map_iff in Hin as (y & Ey & Hy).
  apply in_map_iff. exists y. split; [exact Ey |]. apply filter_In in Hy. exact (proj1 Hy).
Qed.

Lemma tidy_cancel (ts : list Timer) (ni id : nat) (tm : option nat) :
  tidy_timers ts ni tm -> tidy_timers (filter (other_than id) ts) ni tm.
Proof.
  intros (H1 & H2 & H3). split; [exact (NoDup_map_filter _ ts H1) |]. split.
  - intros t Ht. apply filter_In in Ht. exact (H2 t (proj1 Ht)).
  - intros i Hi. destruct (H3 i Hi) as [Hlt Hr]. split; [exact Hlt |].
    intros t Ht. apply filter_In in Ht. exact (Hr t (proj1 Ht)).
Qed.

Lemma tidy_forget (ts : list Timer) (ni : nat) (tm : option nat) :
  tidy_timers ts ni tm -> tidy_timers ts ni None.
Proof.
  intros (H1 & H2 & _). split; [exact H1 | split; [exact H2 | discriminate]].
Qed.

Lemma fresh_id (ts : list Timer) (ni : nat) :
  (forall t, In t ts -> timer_id t < ni) -> ~ In ni (map timer_id ts).
Proof.
  intros H Hin. apply in_map_iff in Hin as (t & Et & Ht). specialize (H t Ht). lia.
Qed.

Lemma NoDup_snoc (l : list nat) (x : nat) : NoDup l -> ~ In x l -> NoDup (l ++ [x]).
Proof.
  intros Hl Hx. induction l as [|y l IH]; simpl.
  - constructor; [intros [] | constructor].
  - inversion Hl as [|? ? Hy Hl']; subst. constructor.
    + intros Hin. apply in_app_or in Hin as [Hin | [<- | []]]; [exact (Hy Hin) |].
      apply Hx. left. reflexivity.
    + apply IH; [exact Hl' |]. intros Hin. apply Hx. right. exact Hin.
Qed.

Lemma tidy_start_poll (ts : list Timer) (ni : nat) (tm : option nat) (d : Z) :
  tidy_timers ts ni tm -> tidy_timers (ts ++ [mkTimer ni d PollScanStatus]) (S ni) tm.
Proof.
  intros (H1 & H2 & H3). split; [| split].
  - rewrite map_app. simpl. apply NoDup_snoc; [exact H1 | exact (fresh_id ts ni H2)].
  - intros t Ht. apply in_app_or in Ht as [Ht | [<- | []]]; [specialize (H2 t Ht); lia |].
    simpl. lia.
  - intros i Hi. destruct (H3 i Hi) as [Hlt Hr]. split; [lia |].
    intros t Ht Et. apply in_app_or in Ht as [Ht | [<- | []]]; [exact (Hr t Ht Et) |].
    simpl in Et. lia.
Qed.

Lemma tidy_start_debounce (ts : list Timer) (ni : nat) (tm : option nat) (d : Z) :
  tidy_timers ts ni tm -> tidy_timers (ts ++ [mkTimer ni d ExecuteScan]) (S ni) (Some ni).
Proof.
  intros (H1 & H2 & H3). split; [| split].
  - rewrite map_app. simpl. apply NoDup_snoc; [exact H1 | exact (fresh_id ts ni H2)].
  - intros t Ht. apply in_app_or in Ht as [Ht | [<- | []]]; [specialize (H2 t Ht); lia |].
    simpl. lia.
  - intros i Hi. injection Hi as <-. split; [lia |].
    intros t Ht Et. apply in_app_or in Ht as [Ht | [<- | []]]; [| reflexivity].
    specialize (H2 t Ht). lia.
Qed.

(** Cancelling the timer that [_timer] names takes no poll away. *)
Lemma cancel_keeps_polls (ts : list Timer) (ni id : nat) :
  tidy_timers ts ni (Some id) ->
  filter polling (filter (other_than id) ts) = filter polling ts.
Proof.
  intros (_ & _ & H3). destruct (H3 id eq_refl) as [_ Hr]. clear H3.
  induction ts as [|t ts IH]; [reflexivity |]. simpl.
  assert (IH' : filter polling (filter (other_than id) ts) = filter polling ts).
  { apply IH. intros x Hx. apply Hr. right. exact Hx. }
  unfold other_than at 1. destruct (Nat.eqb (timer_id t) id) eqn:E; simpl.
  - apply Nat.eqb_eq in E. unfold polling at 2. rewrite (Hr t (or_introl eq_refl) E). exact IH'.
  - destruct (polling t); [f_equal |]; exact IH'.
Qed.

(** A timer that fires is one poll less if it is a poll, and none
    otherwise. *)
Lemma fired_poll (ts : list Timer) (t : Timer) :
  NoDup (map timer_id ts) -> In t ts ->
  List.length (filter polling (filter (other_than (timer_id t)) ts))
  + (if polling t then 1 else 0)
  = List.length (filter polling ts).
Proof.
  induction ts as [|x ts IH]; intros Hn Hin; [destruct Hin |].
  simpl in Hn. inversion Hn as [|? ? Hx Hts]; subst. simpl.
  unfold other_than at 1. destruct (Nat.eqb (timer_id x) (timer_id t)) eqn:E; simpl.
  - apply Nat.eqb_eq in E.
    assert (Ext : x = t).
    { destruct Hin as [Hin | Hin]; [exact Hin |]. exfalso. apply Hx. rewrite E.
      apply in_map. exact Hin. }
    subst x.
    assert (Hrest : filter (other_than (timer_id t)) ts = ts).
    { clear IH Hn Hin E. induction ts as [|y ts IH]; [reflexivity |]. simpl.
      unfold other_than at 1. destruct (Nat.eqb (timer_id y) (timer_id t)) eqn:Ey.
      - exfalso. apply Hx. apply Nat.eqb_eq in Ey. rewrite <- Ey. left. reflexivity.
      - simpl. f_equal. apply IH.
        + intros H. apply Hx. right. exact H.
        + inversion Hts; assumption. }
    rewrite Hrest. destruct (polling t); simpl; lia.
  - destruct Hin as [-> | Hin]; [rewrite Nat.eqb_refl in E; discriminate |].
    specialize (IH Hts Hin). destruct (polling x); simpl; lia.
Qed.

Lemma polls_snoc (ts : list Timer) (t : Timer) :
  List.length (filter polling (ts ++ [t]))
  = List.length (filter polling ts) + (if polling t then 1 else 0).
Proof.
  rewrite filter_app, length_app. simpl. destruct (polling t); reflexivity.
Qed.

Lemma steady_refl (w : World) : tidy w -> steady w w.
Proof. intros H. split; [exact H | split; reflexivity]. Qed.

Lemma cancel_steady (w : World) (id : nat) :
  tidy w -> _timer (mgr w) = Some id ->
  steady w (with_mgr (cancel id w) (set_timer (mgr w) None)).
Proof.
  intros H E. open_system w. simpl in E. subst tm. rewrite tidy_open in H. simpl in H.
  split; [| split; [| reflexivity]].
  - rewrite tidy_open. simpl.
    exact (tidy_forget _ _ (Some id) (tidy_cancel ts ni id (Some id) H)).
  - rewrite !polls_filter. simpl. f_equal. exact (cancel_keeps_polls ts ni id H).
Qed.

Lemma request_steady (w : World) : tidy w -> steady w (request_scan w).
Proof.
  intros H. unfold request_scan, locked.
  destruct (wedged w); [exact (steady_refl w H) |].
  destruct (_scan_in_progress (mgr w)) eqn:Ep.
  - open_system w. simpl in Ep. subst ip. split; [exact H | split; reflexivity].
  - open_system w. simpl in Ep. subst ip. rewrite tidy_open in H. simpl in H.
    unfold cancel_current. simpl. destruct tm as [id |]; simpl.
    + split; [| split; [| reflexivity]].
      * rewrite tidy_open. simpl. apply (tidy_start_debounce _ _ (Some id)).
        exact (tidy_cancel ts ni id (Some id) H).
      * rewrite !polls_filter. simpl.
        change (fun t : Timer => negb (Nat.eqb (timer_id t) id)) with (other_than id).
        rewrite polls_snoc. simpl. rewrite (cancel_keeps_polls ts ni id H). lia.
    + split; [| split; [| reflexivity]].
      * rewrite tidy_open. simpl. apply (tidy_start_debounce _ _ None). exact H.
      * rewrite !polls_filter. simpl. rewrite polls_snoc. simpl. lia.
Qed.

Lemma shutdown_steady (w : World) : tidy w -> steady w (shutdown w).
Proof.
  intros H. unfold shutdown, locked.
  destruct (wedged w); [exact (steady_refl w H) |].
  destruct (_timer (mgr w)) as [id |] eqn:E; [| exact (steady_refl w H)].
  exact (cancel_steady w id H E).
Qed.

Lemma callbacks_steady (w : World) (l : list nat) :
  tidy w -> steady w (with_mgr w (set_callbacks (mgr w) l)).
Proof. intros H. open_system w. split; [exact H | split; reflexivity]. Qed.

Lemma add_steady (c : nat) (w : World) : tidy w -> steady w (add_scan_completion_callback c w).
Proof.
  intros H. unfold add_scan_completion_callback, locked.
  destruct (wedged w); [exact (steady_refl w H) |].
  destruct (existsb _ _); [exact (steady_refl w H) | exact (callbacks_steady w _ H)].
Qed.

Lemma remove_steady (c : nat) (w : World) :
  tidy w -> steady w (remove_scan_completion_callback c w).
Proof.
  intros H. unfold remove_scan_completion_callback, locked.
  destruct (wedged w); [exact (steady_refl w H) | exact (callbacks_steady w _ H)].
Qed.

Lemma wait_steady (t : Z) (w : World) : tidy w -> steady w (wait_until t w).
Proof. intros H. split; [exact H | split; reflexivity]. Qed.

(** The timer that fires hands its poll, if it is one, to its thread. *)
Lemma fire_counts (w : World) :
  tidy w ->
  tidy (fst (fire w))
  /\ polls (fst (fire w)) + weight (snd (fire w)) = polls w
  /\ progress (fst (fire w)) = progress w.
Proof.
  intros H. unfold fire. destruct (next_timer w) as [t |] eqn:E.
  - pose proof (next_timer_in w t E) as Hin.
    open_system w. rewrite tidy_open in H. simpl in H, Hin. cbn [fst snd].
    split; [| split; [| reflexivity]].
    + rewrite tidy_open. simpl. exact (tidy_cancel ts ni (timer_id t) tm H).
    + rewrite !polls_filter. simpl.
      change (fun t0 : Timer => negb (Nat.eqb (timer_id t0) (timer_id t)))
        with (other_than (timer_id t)).
      rewrite <- (fired_poll ts t (proj1 H) Hin). f_equal.
      unfold weight, entry, polling. destruct (runs t); reflexivity.
  - cbn [fst snd weight]. split; [exact H | split; [lia | reflexivity]].
Qed.

(** A section keeps the count: a thread that holds the scan hands it on, to
    its next position or to a poll, or clears [_scan_in_progress]; a thread
    that does not hold it takes it only where it sets
    [_scan_in_progress]. *)
Lemma advance_counts (plex_client : Plex) (pos : position) (w : World) (k : nat) :
  tidy w ->
  polls w + weight (Some pos) + k = progress w ->
  tidy (fst (advance plex_client pos w))
  /\ polls (fst (advance plex_client pos w)) + weight (snd (advance plex_client pos w)) + k
     = progress (fst (advance plex_client pos w)).
Proof.
  intros H Hc.
  destruct pos; unfold advance;
    try (unfold with_lock; destruct (wedged w) eqn:Ew; [split; [exact H | exact Hc] |]);
    cbn [weight holds_scan] in Hc.
  - (* at_force_scan *)
    destruct (_timer (mgr w)) as [id |] eqn:E.
    + destruct (cancel_steady w id H E) as (T & P & G).
      set (w' := with_mgr (cancel id w) (set_timer (mgr w) None)) in *.
      destruct (_scan_in_progress (mgr w')); cbn [fst snd weight holds_scan];
        (split; [exact T | rewrite P, G; exact Hc]).
    + destruct (_scan_in_progress (mgr w)); cbn [fst snd weight holds_scan];
        (split; [exact H | exact Hc]).
  - (* at_execute_scan *)
    destruct (_scan_in_progress (mgr w)) eqn:Ep; cbn [fst snd weight holds_scan].
    + split; [exact H | exact Hc].
    + open_system w. simpl in Ep. subst ip. rewrite tidy_open in H. simpl in H.
      unfold progress in *. simpl in *. split; [| rewrite !polls_filter in *; simpl in *; lia].
      rewrite tidy_open. simpl. exact (tidy_forget _ _ _ H).
  - (* at_trigger_library_scan *)
    open_system w. rewrite tidy_open in H. simpl in H.
    rewrite polls_filter in Hc. unfold progress in Hc. simpl in Hc.
    cbn [triggers]. destruct (trigger_library_scan plex_client tr); cbn [fst snd weight holds_scan].
    + split; [rewrite tidy_open; simpl; exact (tidy_start_poll _ _ _ _ H) |].
      rewrite polls_filter. unfold progress. simpl. rewrite polls_snoc. simpl. lia.
    + split; [exact H |]. rewrite polls_filter. unfold progress. simpl. lia.
    + split; [exact H |]. rewrite polls_filter. unfold progress. simpl. lia.
  - (* at_reset_scan_state *)
    unfold _reset_scan_state, locked. rewrite Ew.
    open_system w. rewrite polls_filter in Hc. unfold progress in Hc. simpl in Hc.
    cbn [fst snd weight]. split; [exact H |].
    rewrite polls_filter. unfold progress. simpl. destruct ip; lia.
  - (* at_poll_scan_status *)
    open_system w. rewrite polls_filter in Hc. unfold progress in Hc. simpl in Hc.
    destruct ip; [| lia]. cbn [mgr _scan_in_progress negb].
    destruct (timed_out _); cbn [fst snd weight holds_scan];
      (split; [exact H |]); rewrite polls_filter; unfold progress; simpl; lia.
  - (* at_is_library_scanning *)
    open_system w. rewrite tidy_open in H. simpl in H.
    rewrite polls_filter in Hc. unfold progress in Hc. simpl in Hc.
    cbn [status_checks]. destruct (is_library_scanning plex_client sc); cbn [fst snd weight holds_scan].
    + split; [rewrite tidy_open; simpl; exact (tidy_start_poll _ _ _ _ H) |].
      rewrite polls_filter. unfold progress. simpl. rewrite polls_snoc. simpl. lia.
    + split; [exact H |]. rewrite polls_filter. unfold progress. simpl. lia.
    + split; [exact H |]. rewrite polls_filter. unfold progress. simpl. lia.
  - (* at_scan_completed *)
    open_system w. rewrite polls_filter in Hc. unfold progress in Hc. simpl in Hc.
    destruct ip; [| lia]. cbn [fst snd weight holds_scan mgr _scan_in_progress negb].
    split; [exact H |]. rewrite polls_filter. unfold progress. simpl. lia.
  - (* at_call_completion_callbacks *)
    cbn [fst snd weight holds_scan]. split; [exact H | exact Hc].
  - (* at_callbacks *)
    open_system w. destruct downloads_during_scan; cbn [fst snd weight holds_scan];
      (split; [exact H | exact Hc]).
  - (* at_follow_up *)
    destruct (request_steady w H) as (T & P & G).
    cbn [fst snd weight]. split; [exact T | rewrite P, G; exact Hc].
  - (* at_deadlock *)
    cbn [fst snd weight holds_scan]. split; [exact H | exact Hc].
Qed.

Lemma holding_app (l1 l2 : list position) : holding (l1 ++ l2) = holding l1 + holding l2.
Proof. unfold holding. now rewrite filter_app, length_app. Qed.

Lemma holding_cons (pos : position) (l : list position) :
  holding (pos :: l) = weight (Some pos) + holding l.
Proof. unfold holding, weight. simpl. destruct (holds_scan pos); reflexivity. Qed.

Lemma holding_next (next : option position) (l1 l2 : list position) :
  holding (l1 ++ match next with Some pos => pos :: l2 | None => l2 end)
  = holding l1 + weight next + holding l2.
Proof.
  rewrite holding_app. destruct next as [pos |]; [rewrite holding_cons | simpl]; lia.
Qed.

Lemma thread_found (l : list position) (i : nat) (pos : position) :
  nth_error l i = Some pos -> l = firstn i l ++ pos :: skipn (S i) l.
Proof.
  revert i. induction l as [|x l IH]; intros [|i] H; try discriminate.
  - injection H as ->. reflexivity.
  - simpl. f_equal. exact (IH i H).
Qed.

Lemma exclusive_steady (s : System) (w' : World) :
  exclusive s -> steady (world s) w' -> exclusive (mkSystem w' (threads s)).
Proof.
  intros [_ Hc] (T & P & G). split; [exact T |]. cbn [threads world]. lia.
Qed.

Lemma act_exclusive (plex_client : Plex) (s : System) (a : action) :
  exclusive s -> exclusive (act plex_client s a).
Proof.
  intros H. pose proof H as [T Hc].
  destruct a; cbn [act].
  - exact (exclusive_steady s _ H (request_steady _ T)).
  - split; [exact T |]. cbn [threads world]. rewrite holding_app.
    change (holding [at_force_scan]) with 0. lia.
  - exact (exclusive_steady s _ H (shutdown_steady _ T)).
  - exact (exclusive_steady s _ H (add_steady _ _ T)).
  - exact (exclusive_steady s _ H (remove_steady _ _ T)).
  - destruct (fire_counts (world s) T) as (T' & P & G).
    destruct (fire (world s)) as [w' [pos |]]; cbn [fst snd] in *;
      (split; [exact T' |]); cbn [threads world].
    + rewrite holding_app, holding_cons. change (holding []) with 0. lia.
    + simpl in P. lia.
  - destruct (nth_error (threads s) i) as [pos |] eqn:E; [| exact H].
    pose proof (thread_found _ _ _ E) as Hl.
    set (l1 := firstn i (threads s)) in *. set (l2 := skipn (S i) (threads s)) in *.
    rewrite Hl, holding_app, holding_cons in Hc.
    destruct (advance_counts plex_client pos (world s) (holding l1 + holding l2) T) as (T' & Hc').
    { lia. }
    destruct (advance plex_client pos (world s)) as [w' next]; cbn [fst snd] in *.
    pose proof (holding_next next l1 l2) as Hn.
    destruct next as [pos' |]; (split; [exact T' |]); cbn [threads world]; lia.
  - exact (exclusive_steady s _ H (wait_steady _ _ T)).
Qed.

Lemma interleave_exclusive (plex_client : Plex) (actions : list action) :
  forall s, exclusive s -> exclusive (interleave plex_client actions s).
Proof.
  induction actions as [|a actions IH]; intros s H; [exact H |].
  exact (IH _ (act_exclusive plex_client s a H)).
Qed.

Lemma init_exclusive (delay_seconds t : Z) : exclusive (mkSystem (init delay_seconds t) []).
Proof.
  split; [| reflexivity].
  split; [constructor | split; [intros x [] | discriminate]].
Qed.

(** Whatever threads call the manager and however their sections fall
    between one another, the scan in progress is held by exactly one of: the
    thread that set [_scan_in_progress] and has not yet started the polling
    or reset the state, a scheduled poll, or the thread of a poll that has
    not yet recorded the completion.  While [_scan_in_progress] is not set
    there is none of them.  So two scans never overlap: at most one poll is
    scheduled, and none while no scan is in progress; and while a thread is
    about to ask Plex for a scan, no poll is scheduled and no other thread
    holds a scan. *)
Theorem scans_never_overlap
    (plex_client : Plex) (delay_seconds t : Z) (actions : list action) :
  let s := interleave plex_client actions (mkSystem (init delay_seconds t) []) in
  List.length (filter holds_scan (threads s)) + List.length (live PollScanStatus (world s))
  = (if _scan_in_progress (mgr (world s)) then 1 else 0)
  /\ List.length (live PollScanStatus (world s)) <= 1
  /\ (_scan_in_progress (mgr (world s)) = false ->
      live PollScanStatus (world s) = [] /\ filter holds_scan (threads s) = [])
  /\ (In at_trigger_library_scan (threads s) ->
      _scan_in_progress (mgr (world s)) = true
      /\ live PollScanStatus (world s) = []
      /\ filter holds_scan (threads s) = [at_trigger_library_scan]).
Proof.
  cbv zeta.
  destruct (interleave_exclusive plex_client actions _ (init_exclusive delay_seconds t))
    as [_ Hc].
  unfold holding, polls, progress in Hc. split; [exact Hc |]. split; [| split].
  - destruct (_scan_in_progress _); lia.
  - intros Ep. rewrite Ep in Hc.
    split; apply length_zero_iff_nil; lia.
  - intros Hin.
    assert (Hf : In at_trigger_library_scan
                    (filter holds_scan
                       (threads (interleave plex_client actions
                                   (mkSystem (init delay_seconds t) [])))))
      by (apply filter_In; split; [exact Hin | reflexivity]).
    destruct (filter holds_scan _) as [|pos [|pos' l]] eqn:Ef; [destruct Hf | |].
    + destruct Hf as [-> | []]. simpl in Hc.
      destruct (_scan_in_progress _); [| lia].
      split; [reflexivity |]. split; [apply length_zero_iff_nil; lia | reflexivity].
    + simpl in Hc. destruct (_scan_in_progress _); lia.
Qed.

(** ** A request between the two sections of [force_scan] *)

(** The debounce timer has no such protection.  [force_scan] gives up
    [_lock] between cancelling the timer and [_execute_scan]: a
    [request_scan] that comes in between arms a new debounce timer, which
    [_execute_scan] forgets without cancelling it.  The scan then runs with a
    debounce timer live beside its poll; when that timer fires during the
    scan its thread returns at once, and the request is not queued as a
    follow-up either. *)
Lemma forced_scan_orphans_timer (plex_client : Plex) (w : World) :
  idle_or_pending w ->
  trigger_library_scan plex_client (triggers w) = Yes ->
  let s := interleave plex_client
             [call_force_scan; thread_runs 0; call_request_scan; thread_runs 0; thread_runs 0]
             (mkSystem w []) in
  threads s = []
  /\ _scan_in_progress (mgr (world s)) = true
  /\ _timer (mgr (world s)) = None
  /\ triggers (world s) = S (triggers w)
  /\ (exists id, 
        timers (world s) = [mkTimer id (now w + delay (mgr w)) ExecuteScan;
                            mkTimer (S id) (now w + 15) PollScanStatus])
  /\ _downloads_during_scan (mgr (world s)) = false
  /\ _execute_scan plex_client (world s) = world s.
Proof.
  intros (Ep & Ew & Ht) Hyes. cbv zeta.
  open_system w. simpl in Ep, Ew, Hyes. subst ip wd.
  destruct Ht as [[Et En] | (e & Et & Er & En)]; simpl in Et, En; subst ts tm.
  - cbn. rewrite Hyes. cbn.
    split; [reflexivity |]. split; [reflexivity |]. split; [reflexivity |].
    split; [reflexivity |]. split; [eexists; reflexivity |].
    split; reflexivity.
  - destruct e as [eid edue eruns]. simpl in Er. subst eruns.
    cbn. rewrite Nat.eqb_refl. cbn. rewrite Hyes. cbn.
    split; [reflexivity |]. split; [reflexivity |]. split; [reflexivity |].
    split; [reflexivity |]. split; [eexists; reflexivity |].
    split; reflexivity.
Qed.

Lemma nothing_to_fire (plex_client : Plex) (w : World) (k : nat) :
  timers w = [] -> fire_many plex_client k w = w.
Proof.
  intros H. induction k as [|k IH]; simpl; [reflexivity |].
  rewrite fire_next_alone; unfold next_timer. rewrite H. exact IH.
Qed.

(** A request can also be lost without any timer.  While Plex is asked to
    start a scan, [_scan_in_progress] is already set: a [request_scan] that
    comes in then only sets [_downloads_during_scan].  When Plex refuses, or
    the call raises, [_reset_scan_state] clears [_scan_in_progress] and looks
    at nothing else: no scan was started, no timer is armed, and the request
    is never served. *)
Lemma request_during_failed_trigger_is_lost (plex_client : Plex) (w : World) :
  idle_or_pending w ->
  trigger_library_scan plex_client (triggers w) <> Yes ->
  let s := interleave plex_client
             [call_force_scan; thread_runs 0; thread_runs 0; call_request_scan;
              thread_runs 0; thread_runs 0]
             (mkSystem w []) in
  threads s = []
  /\ _scan_in_progress (mgr (world s)) = false
  /\ _downloads_during_scan (mgr (world s)) = true
  /\ timers (world s) = []
  /\ triggers (world s) = S (triggers w)
  /\ forall k, triggers (fire_many plex_client k (world s)) = S (triggers w).
Proof.
  intros (Ep & Ew & Ht) Hno. cbv zeta.
  open_system w. simpl in Ep, Ew, Hno. subst ip wd.
  assert (Hlast : forall x : World,
             timers x = [] -> triggers x = S tr ->
             forall k, triggers (fire_many plex_client k x) = S tr).
  { intros x Hx Htr k. rewrite (nothing_to_fire plex_client x k Hx). exact Htr. }
  destruct Ht as [[Et En] | (e & Et & Er & En)]; simpl in Et, En; subst ts tm.
  - cbn. destruct (trigger_library_scan plex_client tr); [now elim Hno | |]; cbn;
      (split; [reflexivity |]); (split; [reflexivity |]); (split; [reflexivity |]);
      (split; [reflexivity |]); (split; [reflexivity |]); apply Hlast; reflexivity.
  - destruct e as [eid edue eruns]. simpl in Er. subst eruns.
    cbn. rewrite Nat.eqb_refl. cbn.
    destruct (trigger_library_scan plex_client tr); [now elim Hno | |]; cbn;
      (split; [reflexivity |]); (split; [reflexivity |]); (split; [reflexivity |]);
      (split; [reflexivity |]); (split; [reflexivity |]); apply Hlast; reflexivity.
Qed.

(** ** [force_scan] *)

(** [force_scan] on a manager that is idle or pending triggers one scan at
    once: a pending debounce timer is cancelled and none is left.  When Plex
    accepts the scan, the scan is in progress with its first poll due 15
    seconds later, and a second [force_scan] does nothing; when Plex refuses
    or the call raises, the manager is idle again with no timer. *)
Theorem force_scan_bypasses_debounce (plex_client : Plex) (w : World) :
  idle_or_pending w ->
  let started := force_scan plex_client w in
  triggers started = S (triggers w)
  /\ now started = now w
  /\ live ExecuteScan started = []
  /\ match trigger_library_scan plex_client (triggers w) with
     | Yes => scanning started
              /\ (exists id, timers started = [mkTimer id (now w + 15) PollScanStatus])
              /\ force_scan plex_client started = started
     | _ => idle_or_pending started /\ timers started = []
     end.
Proof.
  intros H. cbv zeta. pose proof H as (Ep & Ew & Ht).
  assert (E : exists w', force_scan plex_client w = _execute_scan plex_client w'
                         /\ _scan_in_progress (mgr w') = false /\ wedged w' = false
                         /\ timers w' = [] /\ triggers w' = triggers w /\ now w' = now w).
  { rewrite force_scan_alone; unfold locked. rewrite Ew.
    destruct (_timer (mgr w)) as [id |] eqn:En.
    - pose proof (cancelled_pending w id H En) as Hc.
      exists (with_mgr (cancel id w) (set_timer (mgr w) None)).
      assert (Ep' : _scan_in_progress
                      (mgr (with_mgr (cancel id w) (set_timer (mgr w) None))) = false)
        by (destruct w as [m ? ? ? ? ? ? ?]; destruct m; exact Ep).
      rewrite Ep'. repeat split; try assumption.
    - rewrite Ep. exists w. destruct Ht as [[Et _] | (t & _ & _ & En')]; [| congruence].
      repeat split; assumption. }
  destruct E as (w' & E & Ep' & Ew' & Et' & Etr & Enow). rewrite E.
  destruct (execute_shape plex_client w' Ep' Ew' Et') as (H1 & H2 & H3).
  rewrite Etr in *. rewrite Enow in *.
  split; [exact H1 | split; [exact H2 |]].
  destruct (trigger_library_scan plex_client (triggers w)).
  - destruct H3 as (Hs & Htm & _). split; [unfold live; rewrite Htm; reflexivity |].
    split; [exact Hs |]. split; [eexists; exact Htm |].
    destruct Hs as (Ep2 & Ew2 & En2 & _). rewrite force_scan_alone; unfold locked.
    rewrite Ew2, En2, Ep2. reflexivity.
  - destruct H3 as (Hs & Htm & _). split; [unfold live; rewrite Htm; reflexivity |].
    split; [exact Hs | exact Htm].
  - destruct H3 as (Hs & Htm & _). split; [unfold live; rewrite Htm; reflexivity |].
    split; [exact Hs | exact Htm].
Qed.

(** A forced scan on a manager with a pending request. *)
Lemma force_scan_bypasses_debounce_witness :
  let started := force_scan prompt_plex (request_scan (init 60 0)) in
  triggers started = 1 /\ timers started = [mkTimer 1 15 PollScanStatus].
Proof.
  pose proof (force_scan_bypasses_debounce prompt_plex (request_scan (init 60 0))
                (request_scan_pending _ (init_idle 60 0))) as H.
  cbv zeta in H. destruct H as (H1 & _ & _ & _).
  split; [exact H1 | reflexivity].
Defined.

(** ** [shutdown] *)

(** [shutdown] cancels the pending debounce timer: no timer is left, no scan
    is triggered however long one waits, and a second [shutdown] changes
    nothing.  It does not touch a scan in progress: the polls go on, and a
    follow-up that a request has queued is still armed when the scan
    completes. *)
Theorem shutdown_cancels_pending_scan (plex_client : Plex) (w : World) :
  (idle_or_pending w ->
     timers (shutdown w) = []
     /\ idle_or_pending (shutdown w)
     /\ shutdown (shutdown w) = shutdown w
     /\ (forall n, triggers (fire_many plex_client n (shutdown w)) = triggers w))
  /\ (scanning w -> shutdown w = w)
  /\ (scanning w -> shutdown (request_scan w) = request_scan w).
Proof.
  split; [| split].
  - intros H. pose proof H as (Ep & Ew & Ht).
    assert (E : timers (shutdown w) = [] /\ _timer (mgr (shutdown w)) = None
                /\ _scan_in_progress (mgr (shutdown w)) = false
                /\ wedged (shutdown w) = false /\ triggers (shutdown w) = triggers w).
    { unfold shutdown, locked. rewrite Ew.
      destruct (_timer (mgr w)) as [id |] eqn:En.
      - pose proof (cancelled_pending w id H En) as Hc.
        split; [exact Hc |].
        destruct w as [m ? ? ? ? ? ? ?]; destruct m. repeat split; assumption.
      - destruct Ht as [[Et _] | (t & _ & _ & En')]; [| congruence].
        repeat split; assumption. }
    destruct E as (Et & En & Ep' & Ew' & Etr).
    split; [exact Et |].
    split; [split; [exact Ep' | split; [exact Ew' | left; split; assumption]] |].
    split.
    + unfold shutdown at 1. unfold locked. rewrite Ew', En. reflexivity.
    + intros n. rewrite (nothing_to_fire plex_client _ n Et). exact Etr.
  - intros (Ep & Ew & En & _). unfold shutdown, locked. rewrite Ew, En. reflexivity.
  - intros (Ep & Ew & En & _). rewrite (request_during_scan w Ep Ew).
    unfold shutdown, locked. destruct w as [m ? ? ? ? ? ? ?]; destruct m.
    simpl in *. subst. reflexivity.
Qed.

(** ** The timeout *)

Lemma blocked_step (plex_client : Plex) (w : World) (e : event) :
  blocked w ->
  blocked (step plex_client w e)
  /\ mgr (step plex_client w e) = mgr w
  /\ triggers (step plex_client w e) = triggers w
  /\ status_checks (step plex_client w e) = status_checks w
  /\ called (step plex_client w e) = called w.
Proof.
  intros (Ew & Ep & Et).
  destruct e; cbn [step];
    try (unfold request_scan, shutdown, add_scan_completion_callback,
         remove_scan_completion_callback, locked; rewrite Ew;
         repeat split; assumption).
  - rewrite force_scan_alone. unfold locked. rewrite Ew. repeat split; assumption.
  - rewrite fire_next_alone. unfold next_timer. rewrite Et. repeat split; assumption.
  - repeat split; assumption.
Qed.

Lemma blocked_run (plex_client : Plex) (events : list event) :
  forall w, blocked w ->
  mgr (run plex_client events w) = mgr w
  /\ timers (run plex_client events w) = []
  /\ triggers (run plex_client events w) = triggers w
  /\ status_checks (run plex_client events w) = status_checks w
  /\ called (run plex_client events w) = called w.
Proof.
  induction events as [|e events IH]; intros w H.
  - destruct H as (_ & _ & Et). repeat split; try reflexivity. exact Et.
  - destruct (blocked_step plex_client w e H) as (Hb & E1 & E2 & E3 & E4).
    destruct (IH _ Hb) as (I1 & I2 & I3 & I4 & I5). simpl.
    unfold run in *. rewrite I1, I3, I4, I5.
    split; [exact E1 | split; [exact I2 | split; [exact E2 | split; [exact E3 | exact E4]]]].
Qed.

(** A scan that lasts longer than [_max_scan_time] is never completed.  The
    poll that finds it too old calls [_scan_completed] while it holds
    [_lock], and [_scan_completed] asks for [_lock] again.  Plex is not asked
    for the status; whatever is called afterwards, the scan stays in
    progress, no completion callback is called, no timer is armed and no
    further scan is triggered. *)
Theorem scan_timeout_blocks_manager
  (plex_client : Plex) (w : World) (p : Timer) (started : Z) (events : list event) :
  _scan_in_progress (mgr w) = true ->
  wedged w = false ->
  timers w = [p] ->
  runs p = PollScanStatus ->
  _scan_start_time (mgr w) = Some started ->
  started <> 0%Z ->
  (Z.max (now w) (due p) - started > _max_scan_time (mgr w))%Z ->
  let stuck := fire_next plex_client w in
  let later := run plex_client events stuck in
  wedged stuck = true
  /\ status_checks stuck = status_checks w
  /\ mgr later = mgr w
  /\ timers later = []
  /\ triggers later = triggers w
  /\ called later = called w.
Proof.
  intros Ep Ew Et Er Es Hs Hlate. cbv zeta.
  assert (E : fire_next plex_client w
              = mkWorld (mgr w) (Z.max (now w) (due p)) [] (next_id w) (triggers w)
                        (status_checks w) (called w) true).
  { rewrite fire_next_alone; unfold next_timer. rewrite Et. simpl earliest. cbv iota beta.
    rewrite Er. rewrite _poll_scan_status_alone; unfold locked. simpl. rewrite Ew, Ep. simpl.
    unfold timed_out. simpl. rewrite Es.
    apply Z.eqb_neq in Hs. rewrite Hs. simpl.
    apply Z.gt_lt in Hlate. apply Z.gtb_lt in Hlate. rewrite Hlate.
    unfold wedge. simpl. rewrite Et. simpl. rewrite Nat.eqb_refl. reflexivity. }
  assert (Hb : blocked (fire_next plex_client w)).
  { rewrite E. split; [reflexivity | split; [exact Ep | reflexivity]]. }
  destruct (blocked_run plex_client events _ Hb) as (I1 & I2 & I3 & I4 & I5).
  rewrite I1, I2, I3, I5, E. repeat split.
Qed.

(** The default delay and a scan that Plex never reports finished: the poll
    at time 1845 goes through, the poll at time 1875 blocks. *)
Lemma scan_timeout_blocks_manager_witness :
  let w := fire_many busy_plex 61 (request_scan (init 60 0)) in
  let later := run busy_plex [Request; Fire; Force; Shutdown] (fire_next busy_plex w) in
  now w = 1845%Z
  /\ wedged w = false
  /\ now (fire_next busy_plex w) = 1875%Z
  /\ wedged (fire_next busy_plex w) = true
  /\ mgr later = mgr w
  /\ triggers later = 1.
Proof.
  cbv zeta.
  assert (H1 : _scan_in_progress (mgr (fire_many busy_plex 61 (request_scan (init 60 0)))) = true)
    by (vm_compute; reflexivity).
  assert (H2 : wedged (fire_many busy_plex 61 (request_scan (init 60 0))) = false)
    by (vm_compute; reflexivity).
  assert (H3 : timers (fire_many busy_plex 61 (request_scan (init 60 0)))
               = [mkTimer 61 1875 PollScanStatus])
    by (vm_compute; reflexivity).
  assert (H4 : _scan_start_time (mgr (fire_many busy_plex 61 (request_scan (init 60 0))))
               = Some 60%Z)
    by (vm_compute; reflexivity).
  assert (H5 : 60%Z <> 0%Z) by discriminate.
  assert (H6 : (Z.max (now (fire_many busy_plex 61 (request_scan (init 60 0))))
                      (due (mkTimer 61 1875 PollScanStatus)) - 60
                > _max_scan_time (mgr (fire_many busy_plex 61 (request_scan (init 60 0)))))%Z)
    by (vm_compute; reflexivity).
  pose proof (scan_timeout_blocks_manager busy_plex _ _ 60%Z [Request; Fire; Force; Shutdown]
                H1 H2 H3 eq_refl H4 H5 H6) as H.
  cbv zeta in H. destruct H as (W & _ & M & _ & T & _).
  split; [vm_compute; reflexivity |].
  split; [exact H2 |].
  split; [vm_compute; reflexivity |].
  split; [exact W |].
  split; [exact M |].
  rewrite T. vm_compute. reflexivity.
Defined.

(** ** Bursts of requests *)

Lemma last_default (l : list Z) (x d d' : Z) : last (x :: l) d = last (x :: l) d'.
Proof.
  revert x. induction l as [|y l IH]; intros x; [reflexivity |].
  change (last (y :: l) d = last (y :: l) d'). exact (IH y).
Qed.

Lemma last_cons (t d : Z) (l : list Z) : last (t :: l) d = last l t.
Proof.
  destruct l as [|x l]; [reflexivity |].
  change (last (x :: l) d = last (x :: l) t). apply last_default.
Qed.

Lemma burst_pending (times : list Z) :
  forall (w : World) (e : Timer),
  _scan_in_progress (mgr w) = false -> wedged w = false ->
  timers w = [e] -> runs e = ExecuteScan -> _timer (mgr w) = Some (timer_id e) ->
  due e = (now w + delay (mgr w))%Z ->
  next_id w = S (timer_id e) ->
  paced (delay (mgr w)) (now w) times ->
  let w' := burst times w in
  _scan_in_progress (mgr w') = false /\ wedged w' = false
  /\ timers w' = [mkTimer (timer_id e + List.length times)
                          (last times (now w) + delay (mgr w)) ExecuteScan]
  /\ next_id w' = next_id w + List.length times
  /\ now w' = last times (now w)
  /\ triggers w' = triggers w.
Proof.
  induction times as [|t times IH]; intros w e Ep Ew Et Er En Ed Hid Hp; cbv zeta.
  - simpl. rewrite Et, Nat.add_0_r, Nat.add_0_r. destruct e as [i d r]. simpl in *. subst.
    repeat split; assumption.
  - destruct Hp as (Ht & Hp). rewrite last_cons. simpl.
    assert (Hi : idle_or_pending (wait_until t w)).
    { split; [exact Ep | split; [exact Ew |]]. right. exists e. repeat split; assumption. }
    pose proof (request_scan_idle _ Hi) as E. simpl in E.
    assert (Hmax : Z.max (now w) t = t) by lia. rewrite Hmax in E.
    set (v := request_scan (wait_until t w)) in *.
    assert (Hd : delay (mgr v) = delay (mgr w)) by (rewrite E; destruct (mgr w); reflexivity).
    assert (Hn : now v = t) by (rewrite E; reflexivity).
    specialize (IH v (mkTimer (next_id w) (t + delay (mgr w)) ExecuteScan)).
    rewrite Hd, Hn in IH.
    destruct IH as (I1 & I2 & I3 & I4 & I5 & I6).
    + rewrite E. destruct (mgr w). exact Ep.
    + rewrite E. reflexivity.
    + rewrite E. reflexivity.
    + reflexivity.
    + rewrite E. destruct (mgr w). reflexivity.
    + reflexivity.
    + rewrite E. reflexivity.
    + exact Hp.
    + unfold burst in *. split; [exact I1 | split; [exact I2 |]].
      split; [| split; [| split; [exact I5 | rewrite I6, E; reflexivity]]].
      * rewrite I3. simpl. rewrite Hid. do 2 f_equal. lia.
      * rewrite I4, E. simpl. lia.
Qed.

(** A burst of [request_scan] calls, each made before the debounce timer of
    the one before has fired, leads to one scan: a single debounce timer is
    live after the burst, due a full delay after the last call, and exactly
    one scan is triggered once it has fired. *)
Theorem burst_triggers_one_scan (plex_client : Plex) (w0 : World) (times : list Z) :
  idle_or_pending w0 ->
  (0 <= delay (mgr w0))%Z ->
  paced (delay (mgr w0)) (now w0) times ->
  let w := burst times (request_scan w0) in
  timers w = [mkTimer (next_id w0 + List.length times)
                      (last times (now w0) + delay (mgr w0)) ExecuteScan]
  /\ triggers w = triggers w0
  /\ now (fire_next plex_client w) = (last times (now w0) + delay (mgr w0))%Z
  /\ (forall n, 1 <= n -> triggers (fire_many plex_client n w) = S (triggers w0)).
Proof.
  intros H0 Hd Hp. cbv zeta.
  pose proof (request_scan_idle w0 H0) as E.
  destruct H0 as (Ep & Ew & _).
  set (v := request_scan w0) in *.
  assert (Hdv : delay (mgr v) = delay (mgr w0)) by (rewrite E; destruct (mgr w0); reflexivity).
  assert (Hnv : now v = now w0) by (rewrite E; reflexivity).
  assert (Hiv : next_id v = S (next_id w0)) by (rewrite E; reflexivity).
  assert (Htv : triggers v = triggers w0) by (rewrite E; reflexivity).
  pose proof (burst_pending times v (mkTimer (next_id w0) (now w0 + delay (mgr w0)) ExecuteScan))
    as B.
  rewrite Hdv, Hnv, Htv in B. cbv zeta in B.
  destruct B as (B1 & B2 & B3 & _ & B5 & B6).
  - rewrite E. destruct (mgr w0). exact Ep.
  - rewrite E. reflexivity.
  - rewrite E. reflexivity.
  - reflexivity.
  - rewrite E. destruct (mgr w0). reflexivity.
  - reflexivity.
  - exact Hiv.
  - exact Hp.
  - simpl timer_id in B3.
    split; [exact B3 | split; [exact B6 |]].
    split.
    + destruct (pending_fires_once plex_client _ _ B1 B2 B3 eq_refl) as (_ & _ & Hn).
      rewrite Hn, B5. simpl. lia.
    + intros n Hn. rewrite <- B6.
      exact (pending_triggers_once plex_client _ _ B1 B2 B3 eq_refl n Hn).
Qed.

(** Four requests at times 0, 20, 50 and 100 with the default delay. *)
Lemma burst_triggers_one_scan_witness :
  let w := burst [20; 50; 100]%Z (request_scan (init 60 0)) in
  timers w = [mkTimer 3 160 ExecuteScan]
  /\ (forall n, 1 <= n -> triggers (fire_many prompt_plex n w) = 1).
Proof.
  assert (Hd : (0 <= delay (mgr (init 60 0)))%Z) by (simpl; lia).
  assert (Hp : paced (delay (mgr (init 60 0))) (now (init 60 0)) [20; 50; 100]%Z)
    by (simpl; lia).
  pose proof (burst_triggers_one_scan prompt_plex (init 60 0) [20; 50; 100]%Z
                (init_idle 60 0) Hd Hp) as H.
  cbv zeta in H. destruct H as (H1 & _ & _ & H4).
  split; [exact H1 | exact H4].
Defined.


(** ** Polling *)

(** What a poll does to a scan that has not timed out.  While Plex reports
    the scan as running, the next poll is scheduled 30 seconds later and no
    callback is called.  When Plex reports it finished, and also when the
    status call raises, the scan is taken as complete: every registered
    callback is called once, in the order of registration, and no timer is
    left unless a request asked for a follow-up. *)
Theorem poll_outcomes (plex_client : Plex) (w : World) (p : Timer) :
  monitored w p ->
  let polled := fire_next plex_client w in
  now polled = Z.max (now w) (due p)
  /\ triggers polled = triggers w
  /\ status_checks polled = S (status_checks w)
  /\ match is_library_scanning plex_client (status_checks w) with
     | Yes =>
         scanning polled
         /\ timers polled = [mkTimer (next_id w) (Z.max (now w) (due p) + 30) PollScanStatus]
         /\ called polled = called w
     | No | Raises =>
         _scan_in_progress (mgr polled) = false
         /\ called polled = rev (_scan_completion_callbacks (mgr w)) ++ called w
         /\ (_downloads_during_scan (mgr w) = false -> timers polled = [])
     end.
Proof.
  intros (Ep & Ew & En & Et & Er & Hs). cbv zeta.
  destruct w as [m nw ts ni tr sc cl wd]. destruct m as [d tm ip dd cbs st mx].
  simpl in Ep, Ew, En, Et, Hs |- *. subst ip wd tm ts.
  destruct p as [pid pdue pruns]. simpl in Er. subst pruns.
  rewrite fire_next_alone; unfold next_timer. simpl. rewrite Nat.eqb_refl. simpl.
  rewrite _poll_scan_status_alone; unfold locked. simpl.
  match goal with
  | |- context [timed_out ?x] => assert (Hto : timed_out x = false)
  end.
  { unfold timed_out. simpl. destruct st as [t |]; [| reflexivity].
    simpl in Hs. destruct (t =? 0)%Z; [reflexivity |]. simpl.
    rewrite Z.gtb_ltb. apply Z.ltb_ge. exact Hs. }
  rewrite Hto.
  destruct (is_library_scanning plex_client sc); simpl.
  - repeat split. eexists. split; reflexivity.
  - rewrite _scan_completed_alone; unfold locked. simpl. destruct dd; simpl.
    + unfold request_scan, locked. simpl. repeat split. discriminate.
    + repeat split.
  - rewrite _scan_completed_alone; unfold locked. simpl. destruct dd; simpl.
    + unfold request_scan, locked. simpl. repeat split. discriminate.
    + repeat split.
Qed.

(** The first poll of [scanning_world]. *)
Lemma poll_outcomes_witness :
  let polled := fire_next prompt_plex scanning_world in
  now polled = 75%Z /\ _scan_in_progress (mgr polled) = false /\ timers polled = [].
Proof.
  pose proof (poll_outcomes prompt_plex scanning_world first_poll scanning_world_monitored) as H.
  cbv zeta in H. destruct H as (H1 & _ & _ & H4).
  change (is_library_scanning prompt_plex (status_checks scanning_world)) with No in H4.
  destruct H4 as (H5 & _ & H7).
  split; [rewrite H1; reflexivity | split; [exact H5 | exact (H7 eq_refl)]].
Defined.

(** ** The callback registry *)

Lemma remove_first_absent (c : nat) (l : list nat) :
  existsb (Nat.eqb c) l = false -> remove_first c l = l.
Proof.
  induction l as [|y l IH]; simpl; [reflexivity |].
  intros H. apply orb_false_iff in H as [Hy Hl].
  rewrite Nat.eqb_sym, Hy. now rewrite (IH Hl).
Qed.

(** Adding a callback twice is adding it once; removing a callback that is
    not registered changes nothing. *)
Theorem callback_registry_idempotent (c : nat) (w : World) :
  add_scan_completion_callback c (add_scan_completion_callback c w)
    = add_scan_completion_callback c w
  /\ (existsb (Nat.eqb c) (_scan_completion_callbacks (mgr w)) = false ->
      remove_scan_completion_callback c w = w).
Proof.
  destruct w as [m nw ts ni tr sc cl wd]. destruct m as [d tm ip dd cbs st mx].
  unfold add_scan_completion_callback, remove_scan_completion_callback, locked. simpl.
  destruct wd; simpl.
  - split; [reflexivity | intros _; reflexivity].
  - split.
    + destruct (existsb (Nat.eqb c) cbs) eqn:E; simpl; [now rewrite E |].
      rewrite existsb_app. simpl. rewrite Nat.eqb_refl, orb_true_r. reflexivity.
    + intros H. unfold with_mgr, set_callbacks. simpl.
      now rewrite (remove_first_absent c cbs H).
Qed.

End ScanFacts.

(* ================================================================== *)
(** * Facts: the playlist sync *)
(* ================================================================== *)

Module SyncFacts.
Import SoulseekClient SyncService.

(** What the database search gives for a track when nobody cancels: the
    first artist, in order, for whom the database returns a track with a
    confidence of 0.7 or more. *)
Fixpoint first_hit (env : Environment) (original_title : string) (artists : list string)
  : option (MockPlexTrack.t * Q) :=
  match artists with
  | [] => None
  | artist_name :: others =>
      match check_track_exists env original_title artist_name with
      | Returned (Some db_track, confidence) =>
          if Qle_bool 0.7%Q confidence then Some (db_track, confidence)
          else first_hit env original_title others
      | Returned (None, _) | Raised => first_hit env original_title others
      end
  end.

(** The tracks of the playlist that end up in the Plex playlist: those whose
    hit has a confidence of 0.8 or more. *)
Definition synced_of (env : Environment) (tracks : list MatchingEngine.SpotifyTrack)
  : list MockPlexTrack.t :=
  flat_map (fun track =>
              match first_hit env (MatchingEngine.name track) (MatchingEngine.artists track) with
              | Some (db_track, confidence) => if Qle_bool 0.8%Q confidence then [db_track] else []
              | None => []
              end) tracks.

(** Nobody calls [cancel_sync] during the run. *)
Definition never_cancelled (env : Environment) : Prop := forall n, cancelled env n = false.

(** A Plex client that is connected and takes every playlist. *)
Definition willing_plex : PlexClient := mkPlexClient (Returned true) (fun _ _ => Returned true).

Definition some_track : MockPlexTrack.t :=
  MockPlexTrack.mk "17" "Bohemian Rhapsody" "Queen" "A Night at the Opera" (Some 354000%Z).

(** A database that finds [some_track] for every query, with a confidence of
    0.75. *)
Definition lukewarm (env_backend : Backend) (env_service : Service) : Environment :=
  mkEnvironment (Some willing_plex) (fun _ _ => Returned (Some some_track, 0.75%Q))
                (fun _ => false) env_backend "./downloads" env_service.

Definition silent_backend : Backend := mkBackend None None (fun _ => None).
Definition silent_service : Service := fun _ _ => JNull.

Definition one_song : Playlist.t :=
  Playlist.mk "Rock" [MatchingFacts.queen_remastered].

(** The counts of a result. *)
Definition counts (r : SyncResult.t) : list Z :=
  [SyncResult.total_tracks r; SyncResult.matched_tracks r; SyncResult.synced_tracks r;
   SyncResult.downloaded_tracks r; SyncResult.failed_tracks r].

(** What holds of the result of a run and of the tracks it handed to Plex:
    either the result is an error result, all counts at 0; or it has no error,
    every track of the playlist is counted once as synced or as failed, no
    more tracks are synced than matched, none is downloaded, and the synced
    tracks are those handed to Plex, or none when Plex refused them. *)
Definition accounted (playlist : Playlist.t) (r : SyncResult.t)
                     (u : option (list MockPlexTrack.t)) : Prop :=
  (SyncResult.errors r <> [] /\ counts r = [0; 0; 0; 0; 0]%Z)
  \/ (SyncResult.errors r = []
      /\ SyncResult.total_tracks r = Z.of_nat (List.length (Playlist.tracks playlist))
      /\ (0 <= SyncResult.synced_tracks r <= SyncResult.matched_tracks r)%Z
      /\ (SyncResult.matched_tracks r <= SyncResult.total_tracks r)%Z
      /\ SyncResult.downloaded_tracks r = 0%Z
      /\ (SyncResult.synced_tracks r + SyncResult.failed_tracks r = SyncResult.total_tracks r)%Z
      /\ exists l, u = Some l
                   /\ (SyncResult.synced_tracks r = Z.of_nat (List.length l)
                       \/ SyncResult.synced_tracks r = 0%Z)).

(** The match result of a track when nobody cancels. *)
Definition entry (env : Environment) (track : MatchingEngine.SpotifyTrack) : MatchResult.t :=
  match first_hit env (MatchingEngine.name track) (MatchingEngine.artists track) with
  | Some (db_track, confidence) => MatchResult.mk track (Some db_track) confidence "robust_search"
  | None => MatchResult.mk track None 0.0%Q "no_match"
  end.

(** ** [_download_missing_tracks] *)

Lemma nothing_downloaded (env : Environment) (unmatched_tracks : list MatchResult.t) :
  forall downloaded_count,
    _download_missing_tracks env unmatched_tracks downloaded_count = downloaded_count.
Proof.
  induction unmatched_tracks as [|r l IH]; intros c; [reflexivity |].
  simpl. exact (IH c).
Qed.

(** ** [_find_track_in_plex] *)

Lemma find_by_artists_hit (env : Environment) (original_title : string)
                          (artists : list string) :
  forall n,
    match find_by_artists env original_title artists n with
    | (Some db_track, confidence, _) =>
        exists artist_name,
          In artist_name artists
          /\ check_track_exists env original_title artist_name
             = Returned (Some db_track, confidence)
          /\ (0.7 <= confidence)%Q
    | (None, confidence, _) => confidence = 0.0%Q
    end.
Proof.
  induction artists as [|a artists IH]; intros n; simpl; [reflexivity |].
  destruct (cancelled env n); [reflexivity |].
  assert (Hnext : match find_by_artists env original_title artists (S n) with
                  | (Some db_track, confidence, _) =>
                      exists artist_name,
                        (a = artist_name \/ In artist_name artists)
                        /\ check_track_exists env original_title artist_name
                           = Returned (Some db_track, confidence)
                        /\ (0.7 <= confidence)%Q
                  | (None, confidence, _) => confidence = 0.0%Q
                  end).
  { specialize (IH (S n)).
    destruct (find_by_artists env original_title artists (S n)) as [[[t |] c] n'];
      [| exact IH].
    destruct IH as (b & Hb & Hrest). exists b. split; [right; exact Hb | exact Hrest]. }
  destruct (check_track_exists env original_title a) as [[[t |] c] |] eqn:E;
    [| exact Hnext | exact Hnext].
  destruct (Qle_bool 0.7 c) eqn:Ec; [| exact Hnext].
  exists a. split; [left; reflexivity |]. split; [exact E |].
  apply Qle_bool_iff. exact Ec.
Qed.

(** A track that [_find_track_in_plex] returns is one the database gave for
    the title and one of the artists of the Spotify track, with the
    confidence that is returned, which is 0.7 or more, and Plex was
    connected; when no track is returned, the confidence is 0.0. *)
Theorem plex_match_is_database_hit
    (env : Environment) (spotify_track : MatchingEngine.SpotifyTrack) (n : nat) :
  match _find_track_in_plex env spotify_track n with
  | (Some db_track, confidence, _) =>
      (exists plex, plex_client env = Some plex /\ is_connected plex = Returned true)
      /\ exists artist_name,
           In artist_name (MatchingEngine.artists spotify_track)
           /\ check_track_exists env (MatchingEngine.name spotify_track) artist_name
              = Returned (Some db_track, confidence)
           /\ (0.7 <= confidence)%Q
  | (None, confidence, _) => confidence = 0.0%Q
  end.
Proof.
  unfold _find_track_in_plex.
  destruct (plex_client env) as [plex |]; [| reflexivity].
  destruct (is_connected plex) as [[|] |] eqn:Ec; [| reflexivity | reflexivity].
  pose proof (find_by_artists_hit env (MatchingEngine.name spotify_track)
                (MatchingEngine.artists spotify_track) n) as H.
  destruct (find_by_artists env _ _ n) as [[[t |] c] n']; [| exact H].
  split; [exists plex; split; [reflexivity | exact Ec] | exact H].
Qed.

(** ** The matching loop *)

Lemma match_tracks_length (env : Environment) (tracks : list MatchingEngine.SpotifyTrack) :
  forall n acc l n',
    match_tracks env tracks n acc = (Some l, n') ->
    List.length l = List.length acc + List.length tracks.
Proof.
  induction tracks as [|t tracks IH]; intros n acc l n'; simpl.
  - intros H. injection H as <- _. lia.
  - destruct (cancelled env n); [discriminate |].
    destruct (_find_track_in_plex env t (S n)) as [[pm c] m].
    intros H. rewrite (IH _ _ _ _ H), length_app. simpl. lia.
Qed.

Lemma matched_have_tracks (l : list MatchResult.t) :
  List.length (plex_tracks_of (filter MatchResult.is_match l))
  = List.length (filter MatchResult.is_match l).
Proof.
  unfold plex_tracks_of. induction l as [|r l IH]; [reflexivity |].
  simpl. destruct (MatchResult.is_match r) eqn:E; [| exact IH].
  simpl. unfold MatchResult.is_match in E.
  destruct (MatchResult.plex_track r); [simpl; now rewrite IH | discriminate].
Qed.

Lemma filter_length_le {A : Type} (f : A -> bool) (l : list A) :
  List.length (filter f l) <= List.length l.
Proof.
  induction l as [|x l IH]; simpl; [lia |]. destruct (f x); simpl; lia.
Qed.

Lemma error_accounted (playlist : Playlist.t) (name : string) (e : error)
                      (u : option (list MockPlexTrack.t)) :
  accounted playlist (_create_error_result name [e]) u.
Proof. left. split; [discriminate | reflexivity]. Qed.

Lemma finish_accounts (env : Environment) (playlist : Playlist.t) (download_missing : bool)
                      (match_results : list MatchResult.t) (n : nat) :
  List.length match_results = List.length (Playlist.tracks playlist) ->
  accounted playlist (fst (finish env playlist download_missing match_results n))
                     (snd (finish env playlist download_missing match_results n)).
Proof.
  intros Hlen. unfold finish.
  destruct (cancelled env n); [apply error_accounted |].
  match goal with
  | |- context [if ?b && cancelled env (S n) then _ else _] =>
      destruct (b && cancelled env (S n))
  end; [apply error_accounted |].
  match goal with |- context [cancelled env ?k] => destruct (cancelled env k) end;
    [apply error_accounted |].
  destruct (plex_client env) as [plex |]; [| apply error_accounted].
  destruct (update_playlist plex _ _) as [ok |]; [| apply error_accounted].
  right. cbn [fst snd SyncResult.errors SyncResult.total_tracks SyncResult.matched_tracks
              SyncResult.synced_tracks SyncResult.downloaded_tracks SyncResult.failed_tracks].
  assert (Hd : (if download_missing
                   && negb (Nat.eqb (List.length
                        (filter (fun r => negb (MatchResult.is_match r)) match_results)) 0)
                then _download_missing_tracks env
                       (filter (fun r => negb (MatchResult.is_match r)) match_results) 0
                else 0%Z) = 0%Z).
  { destruct (_ && _); [apply nothing_downloaded | reflexivity]. }
  rewrite Hd.
  pose proof (matched_have_tracks match_results) as Hm.
  pose proof (filter_length_le MatchResult.is_match match_results) as Hf.
  split; [reflexivity |]. split; [reflexivity |].
  split; [destruct ok; lia |]. split; [lia |]. split; [reflexivity |].
  split; [lia |].
  eexists. split; [reflexivity |]. destruct ok; [left; reflexivity | right; reflexivity].
Qed.

(** Every run of [sync_playlist] gives either an error result, all of whose
    counts are 0, or a result without errors in which the total is the length
    of the playlist, every track is counted once as synced or as failed, no
    more tracks are synced than matched, none is downloaded, and the synced
    tracks are those handed to [update_playlist] (none when Plex refused
    them).  A run that finds no sync in progress leaves both flags cleared;
    one that finds a sync in progress reports it, touches neither flag and
    hands nothing to Plex. *)
Theorem sync_accounts_for_every_track
    (env : Environment) (state : Flags) (playlist : Playlist.t) (download_missing : bool) :
  let run := sync_playlist env state playlist download_missing in
  accounted playlist (result run) (updated run)
  /\ (is_syncing state = false -> flags run = mkFlags false false)
  /\ (is_syncing state = true ->
      flags run = state
      /\ SyncResult.errors (result run) = [already_in_progress]
      /\ updated run = None).
Proof.
  cbv zeta. unfold sync_playlist.
  destruct (is_syncing state) eqn:Es.
  - split; [apply error_accounted |].
    split; [discriminate | intros _; repeat split].
  - assert (G : forall X : Run,
               accounted playlist (result X) (updated X) ->
               flags X = mkFlags false false ->
               accounted playlist (result X) (updated X)
               /\ (false = false -> flags X = mkFlags false false)
               /\ (false = true ->
                   flags X = state /\ SyncResult.errors (result X) = [already_in_progress]
                   /\ updated X = None)).
    { intros X H1 H2. split; [exact H1 | split; [intros _; exact H2 | discriminate]]. }
    destruct (cancelled env 0); [apply G; [apply error_accounted | reflexivity] |].
    destruct (Playlist.tracks playlist) as [|t tracks] eqn:Et;
      [apply G; [apply error_accounted | reflexivity] |].
    destruct (cancelled env 1); [apply G; [apply error_accounted | reflexivity] |].
    destruct (match_tracks env (t :: tracks) 2 []) as [[l |] n] eqn:Em;
      [| apply G; [apply error_accounted | reflexivity]].
    pose proof (match_tracks_length env _ _ _ _ _ Em) as Hl. simpl List.length in Hl.
    pose proof (finish_accounts env playlist download_missing l n) as Hf.
    rewrite Et in Hf. specialize (Hf Hl).
    destruct (finish env playlist download_missing l n) as [r u].
    apply G; [exact Hf | reflexivity].
Qed.

(** ** The two thresholds *)

Lemma find_by_artists_quiet (env : Environment) (original_title : string)
                            (artists : list string) :
  never_cancelled env ->
  forall n, exists n',
    find_by_artists env original_title artists n
    = (match first_hit env original_title artists with
       | Some (db_track, confidence) => (Some db_track, confidence)
       | None => (None, 0.0%Q)
       end, n').
Proof.
  intros Hq. induction artists as [|a artists IH]; intros n; simpl.
  - now exists n.
  - rewrite Hq. destruct (check_track_exists env original_title a) as [[[t |] c] |].
    + destruct (Qle_bool 0.7 c); [now exists (S n) | apply IH].
    + apply IH.
    + apply IH.
Qed.

Lemma match_tracks_quiet (env : Environment) (plex : PlexClient)
                         (tracks : list MatchingEngine.SpotifyTrack) :
  never_cancelled env -> plex_client env = Some plex -> is_connected plex = Returned true ->
  forall n acc, exists n',
    match_tracks env tracks n acc = (Some (acc ++ map (entry env) tracks), n').
Proof.
  intros Hq Hp Hc. induction tracks as [|t tracks IH]; intros n acc; simpl.
  - exists n. now rewrite app_nil_r.
  - rewrite Hq. unfold _find_track_in_plex. rewrite Hp, Hc.
    destruct (find_by_artists_quiet env (MatchingEngine.name t) (MatchingEngine.artists t)
                Hq (S n)) as [n1 E].
    rewrite E.
    assert (Ee : MatchResult.mk t
                   (fst match first_hit env (MatchingEngine.name t) (MatchingEngine.artists t) with
                        | Some (db_track, confidence) => (Some db_track, confidence)
                        | None => (None, 0.0%Q)
                        end)
                   (snd match first_hit env (MatchingEngine.name t) (MatchingEngine.artists t) with
                        | Some (db_track, confidence) => (Some db_track, confidence)
                        | None => (None, 0.0%Q)
                        end)
                   match fst match first_hit env (MatchingEngine.name t)
                                     (MatchingEngine.artists t) with
                             | Some (db_track, confidence) => (Some db_track, confidence)
                             | None => (None, 0.0%Q)
                             end with
                   | Some _ => "robust_search"%string
                   | None => "no_match"%string
                   end = entry env t).
    { unfold entry. destruct (first_hit env _ _) as [[d c] |]; reflexivity. }
    destruct (match first_hit env (MatchingEngine.name t) (MatchingEngine.artists t) with
              | Some (db_track, confidence) => (Some db_track, confidence)
              | None => (None, 0.0%Q)
              end) as [pm c] eqn:Eh.
    cbn [fst snd] in Ee. rewrite Ee.
    destruct (IH n1 (acc ++ [entry env t])) as [n' E']. exists n'.
    rewrite E', <- app_assoc. reflexivity.
Qed.

Lemma synced_of_entries (env : Environment) (tracks : list MatchingEngine.SpotifyTrack) :
  plex_tracks_of (filter MatchResult.is_match (map (entry env) tracks)) = synced_of env tracks.
Proof.
  unfold plex_tracks_of, synced_of. induction tracks as [|t tracks IH]; [reflexivity |].
  cbn [map filter flat_map]. remember (entry env t) as e eqn:Ee. unfold entry in Ee.
  unfold MatchResult.is_match at 1.
  destruct (first_hit env (MatchingEngine.name t) (MatchingEngine.artists t)) as [[d c] |];
    subst e; cbn [MatchResult.plex_track MatchResult.confidence]; [| exact IH].
  destruct (Qle_bool 0.8 c); [| exact IH].
  cbn [flat_map MatchResult.plex_track app]. now rewrite IH.
Qed.

(** When nobody cancels, Plex is connected and the playlist is not empty,
    [sync_playlist] hands to [update_playlist] exactly the database hits of
    confidence 0.8 or more, in the order of the playlist: a hit between 0.7
    and 0.8, which [_find_track_in_plex] returns, is dropped by [is_match].
    When Plex accepts them, they are the matched and the synced tracks, and
    all other tracks of the playlist are counted as failed. *)
Theorem sync_keeps_confident_matches_only
    (env : Environment) (plex : PlexClient) (playlist : Playlist.t) (download_missing : bool) :
  never_cancelled env ->
  plex_client env = Some plex ->
  is_connected plex = Returned true ->
  Playlist.tracks playlist <> [] ->
  let run := sync_playlist env (mkFlags false false) playlist download_missing in
  let kept := synced_of env (Playlist.tracks playlist) in
  updated run = Some kept
  /\ (update_playlist plex (Playlist.name playlist) kept = Returned true ->
      SyncResult.errors (result run) = []
      /\ SyncResult.matched_tracks (result run) = Z.of_nat (List.length kept)
      /\ SyncResult.synced_tracks (result run) = Z.of_nat (List.length kept)
      /\ SyncResult.failed_tracks (result run)
         = (Z.of_nat (List.length (Playlist.tracks playlist)) - Z.of_nat (List.length kept))%Z).
Proof.
  intros Hq Hp Hc Hne. cbv zeta. unfold sync_playlist. cbn [is_syncing].
  rewrite !Hq.
  destruct (Playlist.tracks playlist) as [|t tracks] eqn:Et; [now elim Hne |].
  destruct (match_tracks_quiet env plex (t :: tracks) Hq Hp Hc 2 []) as [n E].
  rewrite E. cbn [app]. unfold finish. rewrite !Hq, andb_false_r. rewrite Hp.
  rewrite synced_of_entries.
  assert (Hm : List.length (filter MatchResult.is_match (map (entry env) (t :: tracks)))
               = List.length (synced_of env (t :: tracks))).
  { rewrite <- synced_of_entries. symmetry. apply matched_have_tracks. }
  destruct (update_playlist plex (Playlist.name playlist) (synced_of env (t :: tracks)))
    as [ok |] eqn:Eu.
  - cbn [updated result]. split; [reflexivity |].
    intros H. injection H as ->.
    cbn [SyncResult.errors SyncResult.matched_tracks SyncResult.synced_tracks
         SyncResult.failed_tracks].
    rewrite Hm, Et.
    assert (Hd : (if download_missing
                     && negb (Nat.eqb (List.length
                          (filter (fun r => negb (MatchResult.is_match r))
                                  (map (entry env) (t :: tracks)))) 0)
                  then _download_missing_tracks env
                         (filter (fun r => negb (MatchResult.is_match r))
                                 (map (entry env) (t :: tracks))) 0
                  else 0%Z) = 0%Z).
    { destruct (_ && _); [apply nothing_downloaded | reflexivity]. }
    rewrite Hd. repeat split. lia.
  - cbn [updated result]. split; [reflexivity | discriminate].
Qed.

(** The database finds the only track of the playlist, with a confidence of
    0.75: the track is left out of the playlist handed to Plex, and counted
    as failed. *)
Lemma sync_keeps_confident_matches_only_witness :
  first_hit (lukewarm silent_backend silent_service) "Bohemian Rhapsody - Remastered 2011"
            ["Queen"%string] = Some (some_track, 0.75%Q)
  /\ updated (sync_playlist (lukewarm silent_backend silent_service) (mkFlags false false)
                 one_song true) = Some []
  /\ SyncResult.failed_tracks
       (result (sync_playlist (lukewarm silent_backend silent_service) (mkFlags false false)
                  one_song true)) = 1%Z.
Proof.
  assert (H1 : never_cancelled (lukewarm silent_backend silent_service))
    by (intros n; reflexivity).
  assert (H4 : Playlist.tracks one_song <> []) by discriminate.
  pose proof (sync_keeps_confident_matches_only (lukewarm silent_backend silent_service)
                willing_plex one_song true H1 eq_refl eq_refl H4) as H.
  cbv zeta in H. destruct H as (Hu & Hr).
  split; [reflexivity |]. split; [rewrite Hu; reflexivity |].
  destruct (Hr eq_refl) as (_ & _ & _ & Hf). rewrite Hf. reflexivity.
Defined.

End SyncFacts.

(* ================================================================== *)
(** * Facts: the download worker *)
(* ================================================================== *)

Module WorkerFacts.
Import SoulseekClient TrackDownloadWorker.

(** A run that is not cancelled before its first search. *)
Definition starts (cancelled : nat -> bool) : Prop := cancelled 0 = false /\ cancelled 1 = false.

(** A run of [TrackDownloadWorker] never emits [download_completed].  With a
    client, and not cancelled before its first search, it searches the track
    name alone and emits [download_failed] with the text of the exception
    that [search_and_download_best] raises; the second query is never tried.
    Without a client, or cancelled before the first search, it emits nothing
    and searches nothing. *)
Theorem worker_never_completes
    (cancelled : nat -> bool) (soulseek_client : option Client)
    (spotify_track : MatchingEngine.SpotifyTrack) (download_index track_index : Z) :
  let out := run cancelled soulseek_client spotify_track download_index track_index in
  (forall download_id,
      fst out <> Some (download_completed download_index track_index download_id))
  /\ (forall client, soulseek_client = Some client -> starts cancelled ->
        out = (Some (download_failed download_index track_index exception_text),
               [MatchingEngine.name spotify_track]))
  /\ (soulseek_client = None \/ cancelled 0 = true \/ cancelled 1 = true -> out = (None, [])).
Proof.
  cbv zeta. unfold run.
  destruct soulseek_client as [client |].
  - destruct (cancelled 0) eqn:E0.
    + split; [intros d; discriminate |]. split; [| reflexivity].
      intros c _ [H _]. congruence.
    + cbn [try_queries]. destruct (cancelled 1) eqn:E1.
      * split; [intros d; discriminate |]. split; [| reflexivity].
        intros c _ [_ H]. congruence.
      * cbn [search_and_download_best preferred members quality_of bind].
        split; [intros d; discriminate |]. split; [reflexivity |].
        intros [H | [H | H]]; congruence.
  - split; [intros d; discriminate |]. split; [discriminate | reflexivity].
Qed.

End WorkerFacts.
